(** * The Quake File System (Quake/filesys.c): a shallow embedding

    The development follows the layout of [filesys.c]: the C integer types
    and the stdio files the code reads from, the pack table, the three
    handle back ends (FS, PAK and ZIP), the two pack loaders and the QFS
    front end.  Theorems about them come last. *)

From Stdlib Require Import ZArith Lia Bool List.
From Stdlib Require Import Strings.String Strings.Byte.
From Stdlib Require SpecFloat.
From stdpp Require Import base list strings.
Import ListNotations.
Local Open Scope Z_scope.

(** ** C integer types

    [size_t] and [mz_uint64] are unsigned 64-bit integers and [int] is a
    signed 32-bit one; [qfileofs_t], whose typedef is not among the sources
    read here, is taken to be a signed 64-bit integer.  A conversion to one
    of them is written out where the source has it (a cast, an assignment or
    the usual arithmetic conversions).  Arithmetic between signed values is
    arithmetic on [Z]: signed overflow has no defined result in C. *)

Definition to_size_t (z : Z) : Z := z mod 2 ^ 64.
Definition to_qfileofs_t (z : Z) : Z := (z + 2 ^ 63) mod 2 ^ 64 - 2 ^ 63.
Definition to_int (z : Z) : Z := (z + 2 ^ 31) mod 2 ^ 32 - 2 ^ 31.

Definition INT_MAX : Z := 2 ^ 31 - 1.
Definition LONG_MAX : Z := 2 ^ 63 - 1.

Definition SEEK_SET : Z := 0.
Definition SEEK_CUR : Z := 1.
Definition SEEK_END : Z := 2.

(** The macro [q_min (a, b)], [(a) < (b) ? (a) : (b)]. *)
Definition q_min (a b : Z) : Z := if a <? b then a else b.

(** Constants of filesys.c, and [MAX_QPATH] of quakedef.h, the size of the
    [name] of a [packfile_t]. *)
Definition MAX_QPATH : Z := 64.
Definition MAX_FILES_IN_PACK : Z := 2048.
Definition MAX_PACK_FILES : Z := 32.
Definition sizeof_dpackfile_t : Z := 64.
Definition sizeof_dpackheader_t : Z := 12.

(** ** Outcomes

    [Sys_Error] does not return: a call that reaches it ends the run with
    the message.  [Undefined] marks a step C gives no meaning to (a NULL
    or mistyped pointer dereferenced); [OutOfFuel] is the bound of a loop
    of the model reached. *)

Inductive result (A : Type) : Type :=
  | Ok (a : A)
  | Sys_Error (msg : string)
  | Undefined
  | OutOfFuel.
Arguments Ok {A} a.
Arguments Sys_Error {A} msg.
Arguments Undefined {A}.
Arguments OutOfFuel {A}.

#[global] Instance result_ret : MRet result := fun A a => Ok a.

#[global] Instance result_bind : MBind result := fun A B k r =>
  match r with
  | Ok a => k a
  | Sys_Error msg => Sys_Error msg
  | Undefined => Undefined
  | OutOfFuel => OutOfFuel
  end.

#[global] Instance result_fmap : FMap result := fun A B f r =>
  match r with
  | Ok a => Ok (f a)
  | Sys_Error msg => Sys_Error msg
  | Undefined => Undefined
  | OutOfFuel => OutOfFuel
  end.

Definition is_fatal {A : Type} (r : result A) : Prop :=
  exists msg, r = Sys_Error msg.

(** ** stdio files

    A [FILE] is the bytes of the file and the stream position.  [fread
    (buf, 1, n, f)] returns the bytes from the position on, at most [n] of
    them, and moves the position past them. *)

Record FILE := mkFILE { f_bytes : list byte; f_pos : Z }.

Definition fread (n : Z) (f : FILE) : list byte * FILE :=
  let got := take (Z.to_nat n) (drop (Z.to_nat (f_pos f)) (f_bytes f)) in
  (got, mkFILE (f_bytes f) (f_pos f + Z.of_nat (length got))).

(** Modelled from the spec: [Sys_fseek (f, pos, SEEK_SET)] (not among the
    sources), the "absolute positioning on the OS file": like [fseek] it
    refuses a negative position and otherwise sets it, also past the end. *)
Definition Sys_fseek (f : FILE) (pos : Z) : Z * FILE :=
  if pos <? 0 then (-1, f) else (0, mkFILE (f_bytes f) pos).

(** Modelled from the spec: [Sys_filelength] (not among the sources), the
    "file length". *)
Definition Sys_filelength (f : FILE) : Z := Z.of_nat (length (f_bytes f)).

Definition filesystem := string -> option (list byte).

Definition fopen (disk : filesystem) (path : string) : option FILE :=
  match disk path with
  | Some bytes => Some (mkFILE bytes 0)
  | None => None
  end.

(** ** C strings

    [cstr] is the string a [char] buffer holds: its bytes up to the first
    NUL. *)

Definition is_nul (b : byte) : bool := Byte.eqb b x00.

Fixpoint cstr (buf : list byte) : list byte :=
  match buf with
  | [] => []
  | b :: rest => if is_nul b then [] else b :: cstr rest
  end.

(** Modelled from the spec: [q_strlcpy (dst, src, size)] (not among the
    sources), the "length-bounded name copy": it leaves in [dst] the first
    [size - 1] bytes of the string in [src]. *)
Definition q_strlcpy (src : list byte) (size : Z) : list byte :=
  take (Z.to_nat (size - 1)) (cstr src).

(** Little-endian [int] at offset [ofs] of a buffer. *)
Definition byte_at (buf : list byte) (i : nat) : Z :=
  match buf !! i with
  | Some b => Z.of_N (Byte.to_N b)
  | None => 0
  end.

Definition int_le_at (buf : list byte) (ofs : nat) : Z :=
  to_int (byte_at buf ofs + byte_at buf (ofs + 1) * 2 ^ 8
          + byte_at buf (ofs + 2) * 2 ^ 16 + byte_at buf (ofs + 3) * 2 ^ 24).

(** ** The zip reader and the inflater (miniz.h)

    [miniz.h] is not among the sources read here.  The central directory
    of an opened archive is the list of its entries' [file_stat] records,
    [m_filename] holding the raw name bytes of the entry. *)

Record mz_zip_archive_file_stat := mk_stat {
  m_file_index : Z;
  m_local_header_ofs : Z;
  m_comp_size : Z;
  m_uncomp_size : Z;
  m_method : Z;
  m_bit_flag : Z;
  m_is_directory : bool;
  m_is_supported : bool;
  m_filename : list byte
}.

Record mz_zip_archive := mk_zip {
  m_archive_size : Z;
  m_total_files : Z;
  m_central_dir : list mz_zip_archive_file_stat
}.

(** Modelled from the spec: [mz_zip_reader_file_stat] (miniz.h), which
    "queries file_stat" of the entry with the given index and fails when
    there is none. *)
Definition mz_zip_reader_file_stat (pk3 : mz_zip_archive) (i : Z)
  : option mz_zip_archive_file_stat :=
  if i <? 0 then None else m_central_dir pk3 !! Z.to_nat i.

(** Modelled from the spec: [mz_zip_reader_get_filename] (miniz.h), which
    "retrieves the raw filename": at most [size - 1] of its bytes and a NUL
    are written to the buffer; the count returned includes the NUL. *)
Definition mz_zip_reader_get_filename (pk3 : mz_zip_archive) (i : Z) (size : Z)
  : list byte * Z :=
  match mz_zip_reader_file_stat pk3 i with
  | Some st =>
      let n := q_min (Z.of_nat (length (m_filename st))) (size - 1) in
      (take (Z.to_nat n) (m_filename st) ++ [x00], n + 1)
  | None => ([x00], 0)
  end.

(** What filesys.c takes from miniz without looking inside: the parser of
    the central directory, the inflater with its state, its flags and its
    status of a finished stream, and the size of an I/O buffer.
    [tinfl_decompress infl input outbuf p_out szout flags] is given the
    unconsumed input, the output buffer, the offset to write at and the
    room left; it answers with its status, the number of input bytes
    consumed, the bytes produced and its next state. *)
Class Miniz := {
  tinfl_decompressor : Type;
  tinfl_init : tinfl_decompressor;
  tinfl_decompress :
    tinfl_decompressor -> list byte -> list byte -> Z -> Z -> Z ->
    Z * Z * list byte * tinfl_decompressor;
  TINFL_FLAG_HAS_MORE_INPUT : Z;
  TINFL_FLAG_USING_NON_WRAPPING_OUTPUT_BUF : Z;
  TINFL_STATUS_DONE : Z;
  MZ_ZIP_MAX_IO_BUF_SIZE : Z;
  MZ_ZIP_MAX_ARCHIVE_FILENAME_SIZE : Z;
  mz_zip_reader_init : FILE -> Z -> option mz_zip_archive
}.

(** ** The data model of filesys.c *)

Record packfile_t := mk_packfile {
  name : list byte;
  filepos : Z;
  filelen : Z
}.

(** The functions a [pack_t] or a [qfshandle_t] points to. *)
Inductive open_file_fn := PAK_Open_fn | ZIP_Open_fn.
Inductive filesize_fn := FS_FileSize_fn | PAK_FileSize_fn.
Inductive read_fn := FS_Read_fn | PAK_Read_fn | ZIP_Read_fn.
Inductive close_fn := FS_Close_fn | PAK_Close_fn | ZIP_Close_fn.
Inductive seek_fn := FS_Seek_fn | PAK_Seek_fn | ZIP_Seek_fn.

(** [files] is the array the pack points to, or NULL.  The zip reader of a
    pk3 reads through the pack's own [FILE] ([m_pIO_opaque] is
    [pack_handle]). *)
Record pack_t := mk_pack {
  pack_handle : FILE;
  filename : string;
  numfiles : Z;
  files : option (list packfile_t);
  pack_impl_data : option mz_zip_archive;
  pakver : Z;
  open_file : open_file_fn
}.

(** What [handle->data] points to. *)
Inductive handle_data :=
  | data_NULL
  | data_FILE (f : FILE)
  | data_pack (pack : pack_t).

Section WithMiniz.
Context `{miniz : Miniz}.

Record inflbuffers_t := mk_infl {
  inbuf : list byte;
  outbuf : list byte;
  foffs_in : Z;
  foffs_out : Z;
  bsz_in : Z;
  bsz_out : Z;
  readsz_in : Z;
  p_out : Z;
  p_in : Z;
  out_read_ptr : Z;
  eof_flag : bool;
  stat : mz_zip_archive_file_stat;
  infl : tinfl_decompressor
}.

Record qfshandle_t := mk_handle {
  data : handle_data;
  impl_data : option inflbuffers_t;
  fileno : Z;
  owns_data : bool;
  from_pak : bool;
  offs : Z;
  pak_offset : Z;
  start : Z;
  endtrim : Z;
  filesize : filesize_fn;
  read : read_fn;
  close : close_fn;
  seek : seek_fn
}.

Definition set_offs (handle : qfshandle_t) (v : Z) : qfshandle_t :=
  mk_handle (data handle) (impl_data handle) (fileno handle) (owns_data handle)
    (from_pak handle) v (pak_offset handle) (start handle) (endtrim handle)
    (filesize handle) (read handle) (close handle) (seek handle).

Definition set_start (handle : qfshandle_t) (v : Z) : qfshandle_t :=
  mk_handle (data handle) (impl_data handle) (fileno handle) (owns_data handle)
    (from_pak handle) (offs handle) (pak_offset handle) v (endtrim handle)
    (filesize handle) (read handle) (close handle) (seek handle).

Definition set_endtrim (handle : qfshandle_t) (v : Z) : qfshandle_t :=
  mk_handle (data handle) (impl_data handle) (fileno handle) (owns_data handle)
    (from_pak handle) (offs handle) (pak_offset handle) (start handle) v
    (filesize handle) (read handle) (close handle) (seek handle).

Definition set_data (handle : qfshandle_t) (v : handle_data) : qfshandle_t :=
  mk_handle v (impl_data handle) (fileno handle) (owns_data handle)
    (from_pak handle) (offs handle) (pak_offset handle) (start handle)
    (endtrim handle) (filesize handle) (read handle) (close handle)
    (seek handle).

Definition set_impl_data (handle : qfshandle_t) (v : option inflbuffers_t)
  : qfshandle_t :=
  mk_handle (data handle) v (fileno handle) (owns_data handle)
    (from_pak handle) (offs handle) (pak_offset handle) (start handle)
    (endtrim handle) (filesize handle) (read handle) (close handle)
    (seek handle).

(** ** The pack table

    [packs] is the program-wide array of [1 + MAX_PACK_FILES] pointers;
    slot 0 is never used.  What [fclose] and [free] are called on is kept
    in [released]; what is printed, in [console]. *)

Inductive resource :=
  | res_FILE (f : FILE)
  | res_pack (pack : pack_t)
  | res_inflbuffers
  | res_handle.

Record qfs_state := mk_state {
  packs : list (option pack_t);
  released : list resource;
  console : list string
}.

Definition countof_packs : Z := 1 + MAX_PACK_FILES.

Definition packs_empty : list (option pack_t) :=
  replicate (Z.to_nat countof_packs) None.

Definition QFS_FreePackHandle (pack : option pack_t) : list resource :=
  match pack with
  | Some p => [res_pack p]
  | None => []
  end.

(** The scan of [QFS_RegisterPack]: [n] slots are left to look at, from
    slot [i] on; the answer is the first one that holds NULL. *)
Fixpoint QFS_RegisterPack_scan (n i : nat) (tbl : list (option pack_t))
  : option nat :=
  match n with
  | O => None
  | S n' =>
      match tbl !! i with
      | Some None => Some i
      | _ => QFS_RegisterPack_scan n' (S i) tbl
      end
  end.

Definition QFS_RegisterPack (pack : pack_t) (st : qfs_state) : Z * qfs_state :=
  match QFS_RegisterPack_scan (Z.to_nat (countof_packs - 1)) 1 (packs st) with
  | Some i =>
      (Z.of_nat i,
       mk_state (<[i := Some pack]> (packs st)) (released st) (console st))
  | None =>
      (0,
       mk_state (packs st)
         (released st ++ QFS_FreePackHandle (Some pack))
         (console st ++ ["WARNING: Too many pack files loaded."%string]))
  end.

Definition QFS_GetPack (num : Z) (unregister : bool) (st : qfs_state)
  : option pack_t * qfs_state :=
  if (0 <? num) && (num <? MAX_PACK_FILES) then
    let pack := mjoin (packs st !! Z.to_nat num) in
    (pack,
     if unregister
     then mk_state (<[Z.to_nat num := None]> (packs st)) (released st) (console st)
     else st)
  else (None, st).

Definition QFS_PackInfoName (packid : Z) (st : qfs_state) : option string :=
  match fst (QFS_GetPack packid false st) with
  | Some pack => Some (filename pack)
  | None => None
  end.

Definition QFS_PackInfoNumFiles (packid : Z) (st : qfs_state) : Z :=
  match fst (QFS_GetPack packid false st) with
  | Some pack => numfiles pack
  | None => 0
  end.

Definition QFS_FreePack (packid : Z) (st : qfs_state) : qfs_state :=
  let '(pack, st') := QFS_GetPack packid true st in
  mk_state (packs st') (released st' ++ QFS_FreePackHandle pack) (console st').

Fixpoint QFS_Shutdown_loop (n i : nat) (st : qfs_state) : qfs_state :=
  match n with
  | O => st
  | S n' =>
      QFS_Shutdown_loop n' (S i)
        match mjoin (packs st !! i) with
        | Some pack =>
            mk_state (<[i := None]> (packs st))
              (released st ++ QFS_FreePackHandle (Some pack)) (console st)
        | None => st
        end
  end.

Definition QFS_Shutdown (st : qfs_state) : qfs_state :=
  QFS_Shutdown_loop (Z.to_nat (countof_packs - 1)) 1 st.

(** [a[i]] of a C array: no meaning outside the array. *)
Definition array_get {A : Type} (a : option (list A)) (i : Z) : result A :=
  match a with
  | Some l =>
      if i <? 0 then Undefined
      else match l !! Z.to_nat i with
           | Some x => Ok x
           | None => Undefined
           end
  | None => Undefined
  end.

Definition QFS_PackInfoEntrySize (packid idx : Z) (st : qfs_state) : result Z :=
  match fst (QFS_GetPack packid false st) with
  | Some pack =>
      if (0 <=? idx) && (idx <? numfiles pack)
      then e ← array_get (files pack) idx; Ok (filelen e)
      else Ok 0
  | None => Ok 0
  end.

Definition QFS_PackInfoEntryName (packid idx : Z) (st : qfs_state)
  : result (option (list byte)) :=
  match fst (QFS_GetPack packid false st) with
  | Some pack =>
      if (0 <=? idx) && (idx <? numfiles pack)
      then e ← array_get (files pack) idx; Ok (Some (name e))
      else Ok None
  | None => Ok None
  end.

(** ** Handles *)

Definition QFS_CheckHandle (handle : option qfshandle_t) : result unit :=
  match handle with
  | None => Sys_Error "Attempting to read from invalid file handle"
  | Some h =>
      match data h with
      | data_NULL => Sys_Error "Attempting to read from invalid file handle"
      | _ => Ok tt
      end
  end.

(** A read answers with the count it returns, the bytes it has put into
    [buf] and the handle as it leaves it. *)
Definition read_result : Type := Z * list byte * qfshandle_t.

(** *** FS: regular disk files *)

Definition FS_Close (handle : option qfshandle_t) : list resource :=
  match handle with
  | Some h =>
      (if owns_data h
       then match data h with
            | data_FILE f => [res_FILE f]
            | _ => []
            end
       else []) ++ [res_handle]
  | None => []
  end.

Definition FS_Read (handle : qfshandle_t) (sz : Z) : result read_result :=
  _ ← QFS_CheckHandle (Some handle);
  match data handle with
  | data_FILE f =>
      let '(got, f') := fread sz f in
      let sz := Z.of_nat (length got) in
      Ok (sz, got,
          set_offs (set_data handle (data_FILE f'))
            (to_qfileofs_t (offs handle + sz)))
  | _ => Undefined
  end.

Definition FS_FileSize (handle : qfshandle_t) : result Z :=
  match data handle with
  | data_FILE f => Ok (Sys_filelength f)
  | _ => Undefined
  end.

Definition FS_Seek (handle : qfshandle_t) (pos : Z) : result (Z * qfshandle_t) :=
  match data handle with
  | data_FILE f =>
      let '(rc, f') := Sys_fseek f pos in
      Ok (rc, set_data handle (data_FILE f'))
  | _ => Undefined
  end.

Definition FS_Open (disk : filesystem) (path : string) : option qfshandle_t :=
  match fopen disk path with
  | None => None
  | Some stdio_handle =>
      Some (mk_handle (data_FILE stdio_handle) None 0 true false 0 0 0 0
              FS_FileSize_fn FS_Read_fn FS_Close_fn FS_Seek_fn)
  end.

(** *** PAK: files inside a .pak

    The pack a handle points to is the registered pack itself unless the
    handle owns a clone; the pack's [FILE] is repositioned before every
    read, so the copy of its position kept here is never read. *)

Definition set_pack_handle (pack : pack_t) (f : FILE) : pack_t :=
  mk_pack f (filename pack) (numfiles pack) (files pack)
    (pack_impl_data pack) (pakver pack) (open_file pack).

Definition set_files (pack : pack_t) (v : option (list packfile_t)) : pack_t :=
  mk_pack (pack_handle pack) (filename pack) (numfiles pack) v
    (pack_impl_data pack) (pakver pack) (open_file pack).

Definition PAK_Close (handle : option qfshandle_t) : list resource :=
  match handle with
  | Some h =>
      (if owns_data h
       then match data h with
            | data_pack pack => QFS_FreePackHandle (Some (set_files pack None))
            | _ => []
            end
       else [])
      ++ match impl_data h with
         | Some _ => [res_inflbuffers]
         | None => []
         end
      ++ [res_handle]
  | None => []
  end.

Definition PAK_FileSize (handle : qfshandle_t) : result Z :=
  match data handle with
  | data_pack pack => e ← array_get (files pack) (fileno handle); Ok (filelen e)
  | _ => Undefined
  end.

Definition call_filesize (handle : qfshandle_t) : result Z :=
  match filesize handle with
  | FS_FileSize_fn => FS_FileSize handle
  | PAK_FileSize_fn => PAK_FileSize handle
  end.

Definition PAK_Read (handle : qfshandle_t) (sz : Z) : result read_result :=
  _ ← QFS_CheckHandle (Some handle);
  match data handle with
  | data_pack pack =>
      let actualofs := offs handle + start handle in
      fsz ← call_filesize handle;
      let filesize := to_size_t fsz in
      let sz :=
        if to_size_t (to_size_t actualofs + sz) >? filesize
        then to_size_t (filesize - to_size_t actualofs)
        else sz in
      if sz >? 0 then
        let '(rc, f) :=
          Sys_fseek (pack_handle pack)
            (pak_offset handle + offs handle + start handle) in
        if rc =? 0 then
          let '(got, f') := fread sz f in
          let sz := Z.of_nat (length got) in
          Ok (sz, got,
              set_offs (set_data handle (data_pack (set_pack_handle pack f')))
                (to_qfileofs_t (offs handle + sz)))
        else Ok (sz, [], set_data handle (data_pack (set_pack_handle pack f)))
      else Ok (sz, [], handle)
  | _ => Undefined
  end.

Definition PAK_Seek (handle : qfshandle_t) (pos : Z) : result (Z * qfshandle_t) :=
  Ok (0, set_offs handle pos).

Definition PAK_Open (disk : filesystem) (pack : pack_t) (idx : Z)
    (reopen_pack : bool) : result qfshandle_t :=
  refpack ←
    (if reopen_pack then
       match fopen disk (filename pack) with
       | Some f => Ok (set_pack_handle pack f)
       | None => Sys_Error (filename pack +:+ " failed to reopen.")
       end
     else Ok pack);
  e ← array_get (files refpack) idx;
  Ok (mk_handle (data_pack refpack) None idx reopen_pack false 0 (filepos e)
        0 0 PAK_FileSize_fn PAK_Read_fn PAK_Close_fn PAK_Seek_fn).

(** *** ZIP: deflated files inside a .pk3 *)

Definition ZIP_LowLevelRead (opaque : FILE) (ofs n : Z)
  : result (list byte * FILE) :=
  let '(rc, f) := Sys_fseek opaque (to_qfileofs_t ofs) in
  if (ofs >? LONG_MAX) || negb (rc =? 0)
  then Sys_Error "Invalid read of at offset"
  else Ok (fread n f).

Definition ZIP_Close (handle : qfshandle_t) : list resource :=
  match impl_data handle with
  | Some zip => [res_inflbuffers]
  | None => []
  end ++ PAK_Close (Some (set_impl_data handle None)).

(** [memcpy] of [src] into a buffer at offset [at_]. *)
Definition write_at (buf : list byte) (at_ : Z) (src : list byte) : list byte :=
  take (Z.to_nat at_) buf ++ src
  ++ drop (Z.to_nat at_ + length src) buf.

(** The flags argument of the call of [tinfl_decompress], as C parses it:
    [c ? a : 0 | b] is [c ? a : (0 | b)]. *)
Definition ZIP_Read_flags (p : inflbuffers_t) : Z :=
  if to_qfileofs_t (m_comp_size (stat p)) >=? foffs_in p
  then TINFL_FLAG_HAS_MORE_INPUT
  else Z.lor 0 TINFL_FLAG_USING_NON_WRAPPING_OUTPUT_BUF.

(** The state of the loop of [ZIP_Read]: the handle ([impl_data] kept
    apart in [zr_p], the pack's [FILE] in [zr_file]), the bytes copied to
    the caller's buffer and their count. *)
Record zip_read_state := mk_zr {
  zr_offs : Z;
  zr_p : inflbuffers_t;
  zr_file : FILE;
  zr_out : list byte;
  zr_rd : Z
}.

(** First part of the loop body: hand out what the output buffer holds.
    The boolean tells whether [ZIP_Read] returns [rd] here. *)
Definition ZIP_Read_copy (copy_out : bool) (sz : Z) (s : zip_read_state)
  : zip_read_state * bool :=
  let p := zr_p s in
  if (p_out p >=? bsz_out p) || eof_flag p then
    let ncpy :=
      q_min (to_size_t (p_out p - out_read_ptr p)) (to_size_t (sz - zr_rd s)) in
    let out :=
      if copy_out
      then zr_out s
           ++ take (Z.to_nat ncpy) (drop (Z.to_nat (out_read_ptr p)) (outbuf p))
      else zr_out s in
    let rd := to_size_t (zr_rd s + ncpy) in
    let out_read_ptr' := to_size_t (out_read_ptr p + ncpy) in
    let offs' := to_qfileofs_t (zr_offs s + ncpy) in
    let '(out_read_ptr'', p_out') :=
      if out_read_ptr' >=? p_out p then (0, 0) else (out_read_ptr', p_out p) in
    let p' :=
      mk_infl (inbuf p) (outbuf p) (foffs_in p) (foffs_out p) (bsz_in p)
        (bsz_out p) (readsz_in p) p_out' (p_in p) out_read_ptr'' (eof_flag p)
        (stat p) (infl p) in
    (mk_zr offs' p' (zr_file s) out rd,
     (rd >=? sz) || ((p_out' =? 0) && eof_flag p))
  else (s, false).

(** Second part: refill the input buffer from the archive. *)
Definition ZIP_Read_refill (pack : pack_t) (pak_offset : Z)
    (s : zip_read_state) : result zip_read_state :=
  let p := zr_p s in
  if p_in p >=? readsz_in p then
    let sz :=
      to_size_t (q_min (to_qfileofs_t (bsz_in p))
                   (to_qfileofs_t (m_comp_size (stat p)) - foffs_in p)) in
    match pack_impl_data pack with
    | None => Undefined
    | Some z =>
        '(got, f) ←
          ZIP_LowLevelRead (zr_file s) (to_size_t (pak_offset + foffs_in p)) sz;
        let readsz := Z.of_nat (length got) in
        if negb (readsz =? sz)
        then Sys_Error ("File I/O error on " +:+ filename pack)
        else
          Ok (mk_zr (zr_offs s)
                (mk_infl got (outbuf p) (foffs_in p + readsz) (foffs_out p)
                   (bsz_in p) (bsz_out p) readsz (p_out p) 0 (out_read_ptr p)
                   (eof_flag p) (stat p) (infl p))
                f (zr_out s) (zr_rd s))
    end
  else Ok s.

(** Third part: one call of the inflater. *)
Definition ZIP_Read_inflate (pack : pack_t) (s : zip_read_state)
  : result zip_read_state :=
  let p := zr_p s in
  let szin := to_size_t (readsz_in p - p_in p) in
  let szout := to_size_t (bsz_out p - p_out p) in
  let '(status, szin', produced, infl') :=
    tinfl_decompress (infl p)
      (take (Z.to_nat szin) (drop (Z.to_nat (p_in p)) (inbuf p)))
      (outbuf p) (p_out p) szout (ZIP_Read_flags p) in
  let szout' := Z.of_nat (length produced) in
  if status <? TINFL_STATUS_DONE
  then Sys_Error ("Failed to inflate in " +:+ filename pack)
  else
    Ok (mk_zr (zr_offs s)
          (mk_infl (inbuf p) (write_at (outbuf p) (p_out p) produced)
             (foffs_in p) (foffs_out p + szout') (bsz_in p) (bsz_out p)
             (readsz_in p) (to_size_t (p_out p + szout'))
             (to_size_t (p_in p + szin')) (out_read_ptr p)
             (status =? TINFL_STATUS_DONE) (stat p) infl')
          (zr_file s) (zr_out s) (zr_rd s)).

Fixpoint ZIP_Read_loop (fuel : nat) (pack : pack_t) (pak_offset : Z)
    (copy_out : bool) (sz : Z) (s : zip_read_state) : result zip_read_state :=
  match fuel with
  | O => OutOfFuel
  | S fuel' =>
      let '(s1, returns) := ZIP_Read_copy copy_out sz s in
      if returns then Ok s1
      else
        s2 ← ZIP_Read_refill pack pak_offset s1;
        s3 ← ZIP_Read_inflate pack s2;
        ZIP_Read_loop fuel' pack pak_offset copy_out sz s3
  end.

(** [copy_out] is [buf != NULL]. *)
Definition ZIP_Read (fuel : nat) (handle : qfshandle_t) (copy_out : bool)
    (sz : Z) : result read_result :=
  match impl_data handle, data handle with
  | Some p, data_pack pack =>
      if m_is_directory (stat p) || (m_uncomp_size (stat p) =? 0) || (sz =? 0)
      then Ok (0, [], handle)
      else
        s ← ZIP_Read_loop fuel pack (pak_offset handle) copy_out sz
              (mk_zr (offs handle) p (pack_handle pack) [] 0);
        Ok (zr_rd s, zr_out s,
            set_offs
              (set_impl_data
                 (set_data handle (data_pack (set_pack_handle pack (zr_file s))))
                 (Some (zr_p s)))
              (zr_offs s))
  | _, _ => Undefined
  end.

Definition ZIP_Seek (fuel : nat) (handle : qfshandle_t) (pos : Z)
  : result (Z * qfshandle_t) :=
  match impl_data handle with
  | None => Undefined
  | Some p =>
      let buf_start := offs handle - to_qfileofs_t (out_read_ptr p) in
      if (pos >=? buf_start) && (pos - buf_start <=? to_qfileofs_t (p_out p))
      then
        Ok (0,
            set_impl_data handle
              (Some (mk_infl (inbuf p) (outbuf p) (foffs_in p) (foffs_out p)
                       (bsz_in p) (bsz_out p) (readsz_in p) (p_out p) (p_in p)
                       (to_size_t (pos - buf_start)) (eof_flag p) (stat p)
                       (infl p))))
      else if pos >? buf_start + to_qfileofs_t (p_out p) then
        let skipcnt := to_size_t (pos - offs handle) in
        '(rd, _, handle') ← ZIP_Read fuel handle false skipcnt;
        Ok (if rd =? skipcnt then 0 else -1, handle')
      else
        let p' :=
          mk_infl (inbuf p) (outbuf p) 0 0 (bsz_in p) (bsz_out p) 0 0 (p_in p)
            0 false (stat p) tinfl_init in
        '(rd, _, handle') ←
          ZIP_Read fuel (set_offs (set_impl_data handle (Some p')) 0) false
            (to_size_t pos);
        Ok (if rd =? to_size_t pos then 0 else -1, handle')
  end.

Definition uint_le_at (buf : list byte) (ofs width : nat) : Z :=
  fold_right (fun i acc => byte_at buf (ofs + i) + 2 ^ 8 * acc) 0
    (seq 0 width).

(** A [file_stat] record as [QFS_Alloc] (calloc) leaves it. *)
Definition stat_zero : mz_zip_archive_file_stat :=
  mk_stat 0 0 0 0 0 0 false false [].

Definition ZIP_Open (disk : filesystem) (pack : pack_t) (idx : Z)
    (reopen_pack : bool) : result qfshandle_t :=
  handle ← PAK_Open disk pack idx reopen_pack;
  refpack ←
    (if reopen_pack then
       match data handle with
       | data_pack newpack =>
           match mz_zip_reader_init (pack_handle newpack)
                   (Sys_filelength (pack_handle pack)) with
           | Some za =>
               Ok (mk_pack (pack_handle newpack) (filename newpack)
                     (numfiles newpack) (files newpack) (Some za)
                     (pakver newpack) (open_file newpack))
           | None => Sys_Error (filename pack +:+ " failed to reopen.")
           end
       | _ => Undefined
       end
     else Ok pack);
  match pack_impl_data refpack with
  | None => Undefined
  | Some za =>
      e ← array_get (files refpack) idx;
      let st := default stat_zero (mz_zip_reader_file_stat za (filepos e)) in
      if negb (m_is_supported st) then Sys_Error "Unsupported zip file entry"
      else
        '(local_header1, f1) ←
          ZIP_LowLevelRead (pack_handle refpack)
            (to_size_t (m_local_header_ofs st)) 4;
        if negb (Z.of_nat (length local_header1) =? 4)
           || negb (uint_le_at local_header1 0 4 =? 0x04034b50)
        then Sys_Error ("Truncated or corrupt directory entry in "
                        +:+ filename refpack)
        else
          '(local_header2, f2) ←
            ZIP_LowLevelRead f1 (to_size_t (m_local_header_ofs st + 26)) 4;
          if negb (Z.of_nat (length local_header2) =? 4)
          then Sys_Error ("Truncated or corrupt directory entry in "
                          +:+ filename refpack)
          else
            let pak_offset :=
              to_qfileofs_t
                (m_local_header_ofs st + 30 + uint_le_at local_header2 0 2
                 + uint_le_at local_header2 2 2) in
            if to_size_t (pak_offset + m_comp_size st) >? m_archive_size za
            then Sys_Error ("Truncated zip file " +:+ filename refpack)
            else
              let refpack' := set_pack_handle refpack f2 in
              if negb (m_method st =? 0) then
                let bsz_in :=
                  q_min (to_size_t (m_comp_size st)) (MZ_ZIP_MAX_IO_BUF_SIZE / 2) in
                let zip :=
                  mk_infl [] [] 0 0 bsz_in MZ_ZIP_MAX_IO_BUF_SIZE 0 0 0 0 false
                    st tinfl_init in
                Ok (mk_handle (data_pack refpack') (Some zip) idx reopen_pack
                      false 0 pak_offset 0 0 PAK_FileSize_fn ZIP_Read_fn
                      ZIP_Close_fn ZIP_Seek_fn)
              else
                Ok (mk_handle (data_pack refpack') None idx reopen_pack false
                      0 pak_offset 0 0 PAK_FileSize_fn PAK_Read_fn
                      ZIP_Close_fn PAK_Seek_fn)
  end.

(** *** Calls through the pointers of a handle *)

Definition call_read (fuel : nat) (handle : qfshandle_t) (sz : Z)
  : result read_result :=
  match read handle with
  | FS_Read_fn => FS_Read handle sz
  | PAK_Read_fn => PAK_Read handle sz
  | ZIP_Read_fn => ZIP_Read fuel handle true sz
  end.

Definition call_seek (fuel : nat) (handle : qfshandle_t) (pos : Z)
  : result (Z * qfshandle_t) :=
  match seek handle with
  | FS_Seek_fn => FS_Seek handle pos
  | PAK_Seek_fn => PAK_Seek handle pos
  | ZIP_Seek_fn => ZIP_Seek fuel handle pos
  end.

Definition call_close (handle : qfshandle_t) : list resource :=
  match close handle with
  | FS_Close_fn => FS_Close (Some handle)
  | PAK_Close_fn => PAK_Close (Some handle)
  | ZIP_Close_fn => ZIP_Close handle
  end.

(** ** Finding a file

    [com_searchpaths] is kept by the caller of this file; an element names
    a pack by its id ([pack], 0 for a directory) or a directory by
    [sp_filename].  [registered] is the value of the cvar of that name.
    The messages for developers of a miss are not kept. *)

Record searchpath_t := mk_searchpath {
  path_id : Z;
  sp_filename : string;
  pack : Z
}.

Definition call_open_file (disk : filesystem) (pak : pack_t) (idx : Z)
    (reopen : bool) : result qfshandle_t :=
  match open_file pak with
  | PAK_Open_fn => PAK_Open disk pak idx reopen
  | ZIP_Open_fn => ZIP_Open disk pak idx reopen
  end.

(** [strcmp (a, b) == 0] on the strings two buffers hold. *)
Fixpoint bytes_eqb (a b : list byte) : bool :=
  match a, b with
  | [], [] => true
  | x :: a', y :: b' => Byte.eqb x y && bytes_eqb a' b'
  | _, _ => false
  end.

Definition strcmp_is_0 (a b : list byte) : bool :=
  bytes_eqb (cstr a) (cstr b).

(** The scan of the entries of a pack: [n] of them are left, from [i]
    on; the answer is the index of the first whose name is [filename]. *)
Fixpoint QFS_FindFile_scan (pak : pack_t) (filename : list byte) (n : nat)
    (i : Z) : result (option (Z * packfile_t)) :=
  match n with
  | O => Ok None
  | S n' =>
      e ← array_get (files pak) i;
      if strcmp_is_0 (name e) filename then Ok (Some (i, e))
      else QFS_FindFile_scan pak filename n' (i + 1)
  end.

Definition has_path_separator (filename : string) : bool :=
  existsb (fun b => Byte.eqb b "/" || Byte.eqb b "\")
    (list_byte_of_string filename).

(** The answer is the value returned, the handle left in [*file] (asked
    for when [want_file]) and the path id left in [*path_id]. *)
Fixpoint QFS_FindFile (disk : filesystem) (registered : bool)
    (st : qfs_state) (search : list searchpath_t) (filename : string)
    (want_file reopen : bool) : result (Z * option qfshandle_t * option Z) :=
  match search with
  | [] => Ok (-1, None, None)
  | sp :: next =>
      if negb (pack sp =? 0) then
        match fst (QFS_GetPack (pack sp) false st) with
        | None => Sys_Error "QFS_FindFile: invalid pack id."
        | Some pak =>
            found ←
              QFS_FindFile_scan pak (list_byte_of_string filename)
                (Z.to_nat (numfiles pak)) 0;
            match found with
            | Some (i, e) =>
                if want_file then
                  h ← call_open_file disk pak i reopen;
                  Ok (filelen e, Some h, Some (path_id sp))
                else Ok (filelen e, None, Some (path_id sp))
            | None =>
                QFS_FindFile disk registered st next filename want_file reopen
            end
        end
      else if negb registered && has_path_separator filename then
        QFS_FindFile disk registered st next filename want_file reopen
      else
        let netpath := sp_filename sp +:+ "/" +:+ filename in
        match disk netpath with
        | None =>
            QFS_FindFile disk registered st next filename want_file reopen
        | Some _ =>
            if want_file then
              match FS_Open disk netpath with
              | None => Ok (-1, None, Some (path_id sp))
              | Some h =>
                  match data h with
                  | data_FILE f => Ok (Sys_filelength f, Some h, Some (path_id sp))
                  | _ => Undefined
                  end
              end
            else Ok (0, None, Some (path_id sp))
        end
  end.

Definition QFS_FileExists (disk : filesystem) (registered : bool)
    (st : qfs_state) (search : list searchpath_t) (filename : string)
  : result bool :=
  '(ret, _, _) ← QFS_FindFile disk registered st search filename false false;
  Ok (negb (ret =? -1)).

Definition QFS_OpenFile (disk : filesystem) (registered : bool)
    (st : qfs_state) (search : list searchpath_t) (filename : string)
  : result (option qfshandle_t) :=
  '(ret, handle, _) ← QFS_FindFile disk registered st search filename true false;
  Ok (if ret >=? 0 then handle else None).

Definition QFS_FOpenFile (disk : filesystem) (registered : bool)
    (st : qfs_state) (search : list searchpath_t) (filename : string)
  : result (option qfshandle_t) :=
  '(ret, handle, _) ← QFS_FindFile disk registered st search filename true true;
  Ok (if ret >=? 0 then handle else None).

(** ** The front end

    A handle argument is a pointer: [None] is NULL.  Each operation
    answers with what it returns and with the handle as it leaves it. *)

Definition QFS_Eof (handle : option qfshandle_t) : result bool :=
  match handle with
  | None => Ok true
  | Some h =>
      fsz ← call_filesize h;
      Ok (offs h - endtrim h >=? fsz - start h)
  end.

Definition QFS_ReadFile (fuel : nat) (handle : option qfshandle_t) (size : Z)
  : result (Z * list byte * option qfshandle_t) :=
  match handle with
  | Some h =>
      filesize ← call_filesize h;
      let size :=
        if offs h + to_qfileofs_t size >? filesize - endtrim h
        then to_size_t (filesize - endtrim h)
        else size in
      '(n, got, h') ← call_read fuel h size;
      Ok (n, got, Some h')
  | None => Ok (0, [], None)
  end.

Definition QFS_FileSize (handle : option qfshandle_t) : result Z :=
  match handle with
  | Some h => fsz ← call_filesize h; Ok (fsz - start h - endtrim h)
  | None => Ok 0
  end.

Definition QFS_CloseFile (handle : option qfshandle_t) : list resource :=
  match handle with
  | Some h => call_close h
  | None => []
  end.

Definition QFS_Seek_target (h : qfshandle_t) (offs_ whence : Z)
  : result (option Z) :=
  if whence =? SEEK_SET then Ok (Some (start h + offs_))
  else if whence =? SEEK_CUR then Ok (Some (start h + offs h + offs_))
  else if whence =? SEEK_END then
    fsz ← call_filesize h; Ok (Some (fsz - endtrim h + offs_))
  else Ok None.

Definition QFS_Seek (fuel : nat) (handle : option qfshandle_t)
    (offs_ whence : Z) : result (Z * option qfshandle_t) :=
  match handle with
  | None => Ok (-1, None)
  | Some h =>
      target ← QFS_Seek_target h offs_ whence;
      match target with
      | None => Ok (-1, Some h)
      | Some actual_pos =>
          fsz ← call_filesize h;
          if (actual_pos <? start h)
             || (actual_pos >? fsz - (start h + endtrim h))
          then Ok (-1, Some h)
          else
            '(rc, h') ← call_seek fuel h actual_pos;
            if rc =? 0 then Ok (0, Some (set_offs h' actual_pos))
            else Ok (-1, Some h')
      end
  end.

Definition QFS_Tell (handle : option qfshandle_t) : Z :=
  match handle with
  | Some h => offs h - start h
  | None => 0
  end.

Definition QFS_IgnoreBytes (fuel : nat) (handle : option qfshandle_t)
    (cut whence : Z) : result (bool * option qfshandle_t) :=
  match handle with
  | Some h =>
      filesize ← call_filesize h;
      let trimmed :=
        if (whence =? SEEK_SET) && (cut <=? filesize - endtrim h)
        then Some (set_start h cut)
        else if (whence =? SEEK_END) && (cut <=? filesize - start h)
        then Some (set_endtrim h cut)
        else if (whence =? SEEK_SET) && (cut =? 0)
        then Some (set_start (set_endtrim h 0) 0)
        else None in
      match trimmed with
      | None => Ok (false, Some h)
      | Some h1 =>
          if offs h1 <? start h1 then
            '(rc, h2) ← call_seek fuel h1 (start h1);
            Ok (rc =? 0, Some h2)
          else if offs h1 >? start h1 - endtrim h1 then
            '(rc, h2) ←
              call_seek fuel h1 (filesize - start h1 - endtrim h1);
            Ok (rc =? 0, Some h2)
          else Ok (false, Some h1)
      end
  | None => Ok (false, None)
  end.

(** ** Loading a .pak *)

Definition MAX_OSPATH : Z := 1024.

(** [q_strlcpy] into the [filename] of a pack. *)
Definition pack_filename (packfile : string) : string :=
  String.substring 0 (Z.to_nat (MAX_OSPATH - 1)) packfile.

Definition header_id_ok (header : list byte) : bool :=
  match header with
  | c0 :: c1 :: c2 :: c3 :: _ =>
      Byte.eqb c0 "P" && Byte.eqb c1 "A" && Byte.eqb c2 "C" && Byte.eqb c3 "K"
  | _ => false
  end.

(** Entry [i] of the directory read into [info]. *)
Definition parse_dpackfile (info : list byte) (i : nat) : packfile_t :=
  let base := (i * Z.to_nat sizeof_dpackfile_t)%nat in
  mk_packfile (q_strlcpy (drop base info) MAX_QPATH)
    (int_le_at info (base + 56)) (int_le_at info (base + 60)).

(** The two integers of the header are taken as the bytes lie in the
    file, least significant first.  [info] is an array of
    MAX_FILES_IN_PACK records on the stack: a read of more bytes than it
    holds has no defined result.  [QFS_Alloc] is taken to succeed. *)
Definition QFS_LoadPAKFile (disk : filesystem) (packfile : string)
    (st : qfs_state) : result (Z * qfs_state) :=
  match fopen disk packfile with
  | None => Ok (0, st)
  | Some packhandle =>
      let '(header, f1) := fread sizeof_dpackheader_t packhandle in
      if negb (Z.of_nat (length header) =? sizeof_dpackheader_t)
         || negb (header_id_ok header)
      then Sys_Error (packfile +:+ " is not a packfile")
      else
        let dirofs := int_le_at header 4 in
        let dirlen := int_le_at header 8 in
        let numpackfiles := to_int (to_size_t dirlen / sizeof_dpackfile_t) in
        if (dirlen <? 0) || (dirofs <? 0)
        then Sys_Error ("Invalid packfile " +:+ packfile)
        else if numpackfiles =? 0 then
          Ok (0,
              mk_state (packs st) (released st ++ [res_FILE f1])
                (console st
                 ++ ["WARNING: " +:+ packfile +:+ " has no files, ignored"]))
        else if numpackfiles >? MAX_FILES_IN_PACK
        then Sys_Error (packfile +:+ " has too many files")
        else
          let '(_, f2) := Sys_fseek f1 dirofs in
          let '(info, f3) := fread dirlen f2 in
          if Z.of_nat (length info) >? MAX_FILES_IN_PACK * sizeof_dpackfile_t
          then Undefined
          else if negb (to_int (Z.of_nat (length info)) =? dirlen)
          then Sys_Error ("Error reading " +:+ packfile)
          else
            let newfiles :=
              map (parse_dpackfile info) (seq 0 (Z.to_nat numpackfiles)) in
            Ok (QFS_RegisterPack
                  (mk_pack f3 (pack_filename packfile) numpackfiles
                     (Some newfiles) None 1 PAK_Open_fn)
                  st)
  end.

(** ** Loading a .pk3 *)

(** Modelled from the spec: [q_strascii] (not among the sources), false
    when "the name contains any byte >= 0x80". *)
Definition q_strascii (buf : list byte) : bool :=
  forallb (fun b => (Byte.to_N b <? 128)%N) (cstr buf).

(** Modelled from the spec: the code points of IBM437 (code page 437) for
    the bytes 0x80 to 0xFF; below 0x80 a byte is its own code point. *)
Definition ibm437_high : list Z :=
  [0x00C7; 0x00FC; 0x00E9; 0x00E2; 0x00E4; 0x00E0; 0x00E5; 0x00E7;
   0x00EA; 0x00EB; 0x00E8; 0x00EF; 0x00EE; 0x00EC; 0x00C4; 0x00C5;
   0x00C9; 0x00E6; 0x00C6; 0x00F4; 0x00F6; 0x00F2; 0x00FB; 0x00F9;
   0x00FF; 0x00D6; 0x00DC; 0x00A2; 0x00A3; 0x00A5; 0x20A7; 0x0192;
   0x00E1; 0x00ED; 0x00F3; 0x00FA; 0x00F1; 0x00D1; 0x00AA; 0x00BA;
   0x00BF; 0x2310; 0x00AC; 0x00BD; 0x00BC; 0x00A1; 0x00AB; 0x00BB;
   0x2591; 0x2592; 0x2593; 0x2502; 0x2524; 0x2561; 0x2562; 0x2556;
   0x2555; 0x2563; 0x2551; 0x2557; 0x255D; 0x255C; 0x255B; 0x2510;
   0x2514; 0x2534; 0x252C; 0x251C; 0x2500; 0x253C; 0x255E; 0x255F;
   0x255A; 0x2554; 0x2569; 0x2566; 0x2560; 0x2550; 0x256C; 0x2567;
   0x2568; 0x2564; 0x2565; 0x2559; 0x2558; 0x2552; 0x2553; 0x256B;
   0x256A; 0x2518; 0x250C; 0x2588; 0x2584; 0x258C; 0x2590; 0x2580;
   0x03B1; 0x00DF; 0x0393; 0x03C0; 0x03A3; 0x03C3; 0x00B5; 0x03C4;
   0x03A6; 0x0398; 0x03A9; 0x03B4; 0x221E; 0x03C6; 0x03B5; 0x2229;
   0x2261; 0x00B1; 0x2265; 0x2264; 0x2320; 0x2321; 0x00F7; 0x2248;
   0x00B0; 0x2219; 0x00B7; 0x221A; 0x207F; 0x00B2; 0x25A0; 0x00A0].

Definition ibm437_codepoint (b : byte) : Z :=
  let c := Z.of_N (Byte.to_N b) in
  if c <? 128 then c else default 0 (ibm437_high !! Z.to_nat (c - 128)).

Definition byte_of_Z (z : Z) : byte :=
  default x00 (Byte.of_N (Z.to_N (z mod 256))).

(** Modelled from the spec: the UTF-8 bytes of a code point of the Basic
    Multilingual Plane. *)
Definition utf8_encode (cp : Z) : list byte :=
  if cp <? 0x80 then [byte_of_Z cp]
  else if cp <? 0x800 then
    [byte_of_Z (Z.lor 0xC0 (Z.shiftr cp 6));
     byte_of_Z (Z.lor 0x80 (Z.land cp 0x3F))]
  else
    [byte_of_Z (Z.lor 0xE0 (Z.shiftr cp 12));
     byte_of_Z (Z.lor 0x80 (Z.land (Z.shiftr cp 6) 0x3F));
     byte_of_Z (Z.lor 0x80 (Z.land cp 0x3F))].

(** Modelled from the spec: the name "reinterpreted as IBM437 and
    transcoded to UTF-8", byte by byte. *)
Definition utf8_of_ibm437 (s : list byte) : list byte :=
  flat_map (fun b => utf8_encode (ibm437_codepoint b)) s.

(** Modelled from the spec: [UTF8_FromIBM437 dst maxbytes src] (not among
    the sources).  It writes the transcoding of the string in [src] and a
    NUL, whole code points only and at most [maxbytes] bytes in all, and
    returns the number of bytes written, the NUL included -- the count
    [QFS_LoadPK3File] hands to [memcpy]. *)
Fixpoint UTF8_FromIBM437_loop (room : Z) (src : list byte) : list byte :=
  match src with
  | [] => []
  | b :: rest =>
      let enc := utf8_encode (ibm437_codepoint b) in
      if Z.of_nat (length enc) <=? room
      then enc ++ UTF8_FromIBM437_loop (room - Z.of_nat (length enc)) rest
      else []
  end.

Definition UTF8_FromIBM437 (maxbytes : Z) (src : list byte) : list byte * Z :=
  if maxbytes <=? 0 then ([], 0)
  else
    let dst := UTF8_FromIBM437_loop (maxbytes - 1) (cstr src) ++ [x00] in
    (dst, Z.of_nat (length dst)).

(** One round of the loop over the central directory: [buf] is the name
    buffer, which lives across rounds; the answer is the buffer and the
    entry stored, if one is. *)
Definition QFS_LoadPK3File_entry (packfile : string) (pk3 : mz_zip_archive)
    (i : Z) (buf : list byte) : result (list byte * option packfile_t) :=
  match mz_zip_reader_file_stat pk3 i with
  | None => Sys_Error ("Failed to get status of an entry in " +:+ packfile)
  | Some st =>
      if negb (m_is_directory st) then
        if m_uncomp_size st >? INT_MAX
        then Sys_Error ("A file in " +:+ packfile +:+ " is too large.")
        else
          let sizeof_buf := MZ_ZIP_MAX_ARCHIVE_FILENAME_SIZE in
          let '(raw, len) := mz_zip_reader_get_filename pk3 i sizeof_buf in
          let buf := write_at buf 0 raw in
          let '(buf, len) :=
            if (Z.land (m_bit_flag st) (Z.shiftl 1 11) =? 0)
               && negb (q_strascii buf)
            then
              let '(convbuf, len) := UTF8_FromIBM437 (sizeof_buf * 3) buf in
              if len <=? sizeof_buf
              then (write_at buf 0 (take (Z.to_nat len) convbuf), len)
              else (buf, len)
            else (buf, len) in
          if len >=? MAX_QPATH
          then Sys_Error ("A file name in " +:+ packfile
                          +:+ " exceeds maximum allowed length.")
          else
            Ok (buf,
                Some (mk_packfile (q_strlcpy buf MAX_QPATH)
                        (to_int (m_file_index st)) (to_int (m_uncomp_size st))))
      else Ok (buf, None)
  end.

(** The loop itself: [n] rounds are left, [i] is the index of the next
    entry, [newfiles] the entries stored so far. *)
Fixpoint QFS_LoadPK3File_loop (packfile : string) (pk3 : mz_zip_archive)
    (n : nat) (i : Z) (buf : list byte) (newfiles : list packfile_t)
  : result (list packfile_t) :=
  match n with
  | O => Ok newfiles
  | S n' =>
      '(buf', stored) ← QFS_LoadPK3File_entry packfile pk3 i buf;
      QFS_LoadPK3File_loop packfile pk3 n' (i + 1) buf'
        (newfiles ++ match stored with Some e => [e] | None => [] end)
  end.

Definition QFS_LoadPK3File (disk : filesystem) (packfile : string)
    (st : qfs_state) : result (Z * qfs_state) :=
  match fopen disk packfile with
  | None => Ok (0, st)
  | Some pk3handle =>
      match mz_zip_reader_init pk3handle (to_size_t (Sys_filelength pk3handle)) with
      | None => Sys_Error (packfile +:+ " can not be opened as a .pk3 file.")
      | Some pk3 =>
          let entrycount := m_total_files pk3 in
          if entrycount =? 0 then
            Ok (0,
                mk_state (packs st) (released st ++ [res_FILE pk3handle])
                  (console st
                   ++ ["WARNING: " +:+ packfile +:+ " has no files, ignored"]))
          else
            newfiles ←
              QFS_LoadPK3File_loop packfile pk3 (Z.to_nat entrycount) 0 [] [];
            let numpackfiles := Z.of_nat (length newfiles) in
            let unused :=
              replicate (Z.to_nat entrycount - length newfiles)
                (mk_packfile [] 0 0) in
            Ok (QFS_RegisterPack
                  (mk_pack pk3handle (pack_filename packfile) numpackfiles
                     (Some (newfiles ++ unused)) (Some pk3) 3 ZIP_Open_fn)
                  st)
      end
  end.

(** Modelled from the spec: [COM_FileGetExtension] and [q_strcasecmp]
    (not among the sources).  A pack is taken for a PK3 by "case-insensitive
    compare of the filename extension against pk3"; the extension is what
    follows the last dot of the name, and there is none when a path
    separator comes after that dot. *)
Fixpoint after_last_dot (s : list byte) : option (list byte) :=
  match s with
  | [] => None
  | b :: rest =>
      match after_last_dot rest with
      | Some ext => Some ext
      | None => if Byte.eqb b "." then Some rest else None
      end
  end.

Definition COM_FileGetExtension (path : string) : list byte :=
  match after_last_dot (list_byte_of_string path) with
  | Some ext =>
      if existsb (fun b => Byte.eqb b "/" || Byte.eqb b "\") ext then [] else ext
  | None => []
  end.

Definition q_tolower (b : byte) : byte :=
  let c := Byte.to_N b in
  if ((65 <=? c) && (c <=? 90))%N
  then default b (Byte.of_N (c + 32))
  else b.

Definition q_strcasecmp_is_0 (a b : list byte) : bool :=
  bytes_eqb (map q_tolower (cstr a)) (map q_tolower (cstr b)).

Definition QFS_LoadPackFile (disk : filesystem) (packfile : string)
    (st : qfs_state) : result (Z * qfs_state) :=
  if q_strcasecmp_is_0 (COM_FileGetExtension packfile)
       (list_byte_of_string "pk3")
  then QFS_LoadPK3File disk packfile st
  else QFS_LoadPAKFile disk packfile st.

End WithMiniz.

(** ** Concrete inputs

    A stand-in for miniz, used where a statement is run on a concrete
    archive.  Its compressed stream is the bytes themselves, ended by a
    NUL; statuses and flags have the values of miniz.h; the state of the
    inflater is the record of the flags it was called with.  Its reader
    knows one archive, [demo_pk3], and answers with the directory of
    that one. *)

Fixpoint literal_inflate (input : list byte) (room : nat)
  : Z * nat * list byte :=
  match input with
  | [] => (1, O, [])
  | b :: rest =>
      if is_nul b then (0, 1%nat, [])
      else match room with
           | O => (2, O, [])
           | S room' =>
               let '(status, used, out) := literal_inflate rest room' in
               (status, S used, b :: out)
           end
  end.

Definition le16 (z : Z) : list byte :=
  map (fun k => byte_of_Z (Z.shiftr (z mod 2 ^ 16) (8 * k))) [0; 1].

Definition le32 (z : Z) : list byte :=
  map (fun k => byte_of_Z (Z.shiftr (z mod 2 ^ 32) (8 * k))) [0; 1; 2; 3].

Definition bytes_of_string (s : string) : list byte :=
  list_byte_of_string s.

(** A local file header of a zip, the name and the payload. *)
Definition zip_local_entry (fname payload : list byte) : list byte :=
  le32 0x04034b50 ++ replicate 22 x00
  ++ le16 (Z.of_nat (length fname)) ++ le16 0 ++ fname ++ payload.

(** Four entries: a deflated file of five bytes; a deflated file whose
    directory record promises ten bytes where the stream holds three; a
    stored file with a name in IBM437 (0x82 is e-acute) and the UTF-8 flag
    clear; a stored file with a name in UTF-8 and the flag set. *)
Definition demo_names : list (list byte) :=
  [bytes_of_string "d.txt"; bytes_of_string "short.txt";
   x82 :: bytes_of_string ".txt"; xc3 :: xa9 :: bytes_of_string "2.txt"].

Definition demo_payloads : list (list byte) :=
  [bytes_of_string "abcde" ++ [x00]; bytes_of_string "abc" ++ [x00];
   bytes_of_string "cafe"; bytes_of_string "menu"].

Definition demo_pk3 : list byte :=
  concat (zip_with zip_local_entry demo_names demo_payloads).

Definition demo_pk3_dir : mz_zip_archive :=
  mk_zip (Z.of_nat (length demo_pk3)) 4
    [mk_stat 0 0 6 5 8 0 false true (bytes_of_string "d.txt");
     mk_stat 1 41 4 10 8 0 false true (bytes_of_string "short.txt");
     mk_stat 2 84 4 4 0 0 false true (x82 :: bytes_of_string ".txt");
     mk_stat 3 123 4 4 0 (Z.shiftl 1 11) false true
       (xc3 :: xa9 :: bytes_of_string "2.txt")].

Definition demo_reader_init (f : FILE) (size : Z) : option mz_zip_archive :=
  if bytes_eqb (f_bytes f) demo_pk3 then Some demo_pk3_dir else None.

Definition literal_inflater : Miniz := {|
  tinfl_decompressor := list Z;
  tinfl_init := [];
  tinfl_decompress := fun st input _ _ szout flags =>
    let '(status, used, out) := literal_inflate input (Z.to_nat szout) in
    (status, Z.of_nat used, out, st ++ [flags]);
  TINFL_FLAG_HAS_MORE_INPUT := 2;
  TINFL_FLAG_USING_NON_WRAPPING_OUTPUT_BUF := 4;
  TINFL_STATUS_DONE := 0;
  MZ_ZIP_MAX_IO_BUF_SIZE := 64 * 1024;
  MZ_ZIP_MAX_ARCHIVE_FILENAME_SIZE := 512;
  mz_zip_reader_init := demo_reader_init
|}.

(** A .pak with one entry, "a.txt", of twelve bytes at offset 12; the
    header names the offset and the length of the directory. *)
Definition pak_with (dirofs dirlen : Z) : list byte :=
  bytes_of_string "PACK" ++ le32 dirofs ++ le32 dirlen
  ++ bytes_of_string "hello, world"
  ++ bytes_of_string "a.txt" ++ replicate 51 x00 ++ le32 12 ++ le32 12.

Definition one_file_disk (bytes : list byte) : filesystem :=
  fun path => if String.eqb path "id1/pak0.pak" then Some bytes else None.

Definition demo_disk : filesystem :=
  fun path =>
    if String.eqb path "id1/pak0.pak" then Some (pak_with 24 64)
    else if String.eqb path "id1/demo.PK3" then Some demo_pk3
    else None.

Definition state_empty : qfs_state := mk_state packs_empty [] [].

(** Mount a pack on an empty table and open one of its files, the way a
    caller does: the search path is the pack alone. *)
Definition open_in (packfile filename : string)
  : result (option (@qfshandle_t literal_inflater)) :=
  '(id, st) ←
    QFS_LoadPackFile (miniz := literal_inflater) demo_disk packfile state_empty;
  QFS_OpenFile demo_disk true st [mk_searchpath 1 "id1" id] filename.

Definition open_a_txt : result (option (@qfshandle_t literal_inflater)) :=
  open_in "id1/pak0.pak" "a.txt".

Definition open_in_demo_pk3 (filename : string)
  : result (option (@qfshandle_t literal_inflater)) :=
  open_in "id1/demo.PK3" filename.

(** "a.txt" with its last six bytes cut off. *)
Definition a_txt_trimmed : result (option (@qfshandle_t literal_inflater)) :=
  h ← open_a_txt;
  '(_, h1) ← QFS_IgnoreBytes 0 h 6 SEEK_END;
  Ok h1.

(** The same pack file loaded [n] times over: the ids handed out and the
    table they leave. *)
Fixpoint load_pak0_times (n : nat) (st : qfs_state)
  : result (list Z * qfs_state) :=
  match n with
  | O => Ok ([], st)
  | S n' =>
      '(ids, st1) ← load_pak0_times n' st;
      '(id, st2) ←
        QFS_LoadPackFile (miniz := literal_inflater) demo_disk "id1/pak0.pak" st1;
      Ok (ids ++ [id], st2)
  end.

Definition handle_view (h : option (@qfshandle_t literal_inflater))
  : option (Z * Z * Z) :=
  match h with
  | Some h => Some (offs h, start h, endtrim h)
  | None => None
  end.

(** ** Characters, lines and whole files

    The rest of the front end of filesys.c.  A read into a buffer that
    the caller owns is given the size of that buffer: bytes written past
    its end have no defined result. *)

Section TextAndLoad.
Context `{miniz : Miniz}.

Definition QFS_ReadFile_into (fuel : nat) (handle : option qfshandle_t)
    (sizeof_buf size : Z) : result (Z * list byte * option qfshandle_t) :=
  '(n, got, handle') ← QFS_ReadFile fuel handle size;
  if Z.of_nat (length got) >? sizeof_buf then Undefined
  else Ok (n, got, handle').

(** The answer is the character returned, what is put into [*eof_flag]
    and the handle.  [ch] starts as NUL and is the buffer of the read. *)
Definition QFS_GetChar (fuel : nat) (handle : option qfshandle_t)
  : result (byte * bool * option qfshandle_t) :=
  '(n, got, handle') ← QFS_ReadFile_into fuel handle 1 1;
  if n =? 1 then Ok (default x00 (head got), false, handle')
  else Ok (x00, true, handle').

(** The loop of [QFS_GetLine]: [line] is [buf] up to [o], its length is
    [o]; [rounds] bounds the number of characters looked at. *)
Fixpoint QFS_GetLine_loop (rounds fuel : nat) (handle : option qfshandle_t)
    (bufsz : Z) (line : list byte)
  : result (list byte * option qfshandle_t) :=
  match rounds with
  | O => OutOfFuel
  | S rounds' =>
      if Z.of_nat (length line) <? to_size_t (bufsz - 1) then
        '(ch, eof_flag, handle') ← QFS_GetChar fuel handle;
        if Byte.eqb ch x0a || Byte.eqb ch x00 || eof_flag
        then Ok (line, handle')
        else if negb (Byte.eqb ch x0d)
        then QFS_GetLine_loop rounds' fuel handle' bufsz (line ++ [ch])
        else QFS_GetLine_loop rounds' fuel handle' bufsz line
      else Ok (line, handle)
  end.

(** The answer is the count returned, the bytes written to [buf] (none
    when [bufsz] is 0) and the handle. *)
Definition QFS_GetLine (rounds fuel : nat) (handle : option qfshandle_t)
    (bufsz : Z) : result (Z * option (list byte) * option qfshandle_t) :=
  if bufsz <? 1 then Ok (0, None, handle)
  else
    '(line, handle') ← QFS_GetLine_loop rounds fuel handle bufsz [];
    Ok (Z.of_nat (length line), Some (line ++ [x00]), handle').

Inductive loadfile_alloc_t := LOADFILE_HUNK | LOADFILE_MALLOC.

(** [Hunk_AllocNameNoFill] and [malloc] are taken to succeed.  Both give
    [len + 1] bytes that hold nothing yet: a byte of the buffer is [None]
    until it is written.  The answer is the buffer returned (NULL when the
    file is not found), what is put into [*ldsize] and what closing the
    handle releases. *)
Definition QFS_LoadFile (fuel : nat) (disk : filesystem) (registered : bool)
    (st : qfs_state) (search : list searchpath_t) (path : string)
    (method : loadfile_alloc_t)
  : result (option (list (option byte)) * option Z * list resource) :=
  h ← QFS_OpenFile disk registered st search path;
  match h with
  | None => Ok (None, None, [])
  | Some _ =>
      fsz ← QFS_FileSize h;
      let len := to_size_t fsz in
      let allocated :=
        match method with
        | LOADFILE_HUNK => to_size_t (len + 1)
        | LOADFILE_MALLOC => to_size_t (len + 1)
        end in
      if allocated <=? len then Undefined
      else
        let buf := replicate (Z.to_nat len) None ++ [Some x00] in
        '(nread, got, h') ← QFS_ReadFile_into fuel h allocated len;
        let buf := (Some <$> got) ++ drop (length got) buf in
        let released := QFS_CloseFile h' in
        if negb (nread =? len)
        then Sys_Error ("QFS_LoadFile: Error reading " +:+ path)
        else Ok (Some buf, Some len, released)
  end.

Definition QFS_LoadHunkFile (fuel : nat) (disk : filesystem)
    (registered : bool) (st : qfs_state) (search : list searchpath_t)
    (path : string) :=
  QFS_LoadFile fuel disk registered st search path LOADFILE_HUNK.

Definition QFS_LoadMallocFile (fuel : nat) (disk : filesystem)
    (registered : bool) (st : qfs_state) (search : list searchpath_t)
    (path : string) :=
  QFS_LoadFile fuel disk registered st search path LOADFILE_MALLOC.

End TextAndLoad.

(** * WAV streams (Quake/snd_wave.c)

    The codec reads a RIFF/WAVE header through a QFS handle.  [snd_info_t]
    and [snd_stream_t] are declared in snd_codec.h, which is not among the
    sources read here: the records below hold the fields snd_wave.c uses,
    the numbers taken to be [int]. *)

Definition to_short (z : Z) : Z := (z + 2 ^ 15) mod 2 ^ 16 - 2 ^ 15.

(** Little-endian [short] at offset [ofs] of a buffer. *)
Definition short_le_at (buf : list byte) (ofs : nat) : Z :=
  to_short (byte_at buf ofs + byte_at buf (ofs + 1) * 2 ^ 8).

(** [strncmp (a, b, n) == 0]. *)
Definition strncmp_is_0 (a b : list byte) (n : nat) : bool :=
  bytes_eqb (cstr (take n a)) (cstr (take n b)).

Module snd_info.
Record snd_info_t := mk {
  rate : Z;
  bits : Z;
  width : Z;
  channels : Z;
  samples : Z;
  size : Z;
  dataofs : Z
}.
End snd_info.

Section Wave.
Context `{miniz : Miniz}.

(** The value of the macro of snd_wave.h, which is not among the sources. *)
Variable WAV_FORMAT_PCM : Z.

Record snd_stream_t := mk_stream {
  fh : option qfshandle_t;
  info : snd_info.snd_info_t
}.

(** [LittleLong] and [LittleShort] give the value of an integer stored
    least significant byte first.  [v] is the buffer of the read; the
    bytes of it that a short read leaves unwritten count as 0 here, and
    [*ok] tells the caller not to look at the value.  The answer is the
    value, [*ok] and the handle. *)
Definition FGetLittleLong (fuel : nat) (f : option qfshandle_t) (ok : bool)
  : result (Z * bool * option qfshandle_t) :=
  '(n, got, f') ← QFS_ReadFile_into fuel f 4 4;
  Ok (int_le_at got 0, ok && (n =? 4), f').

Definition FGetLittleShort (fuel : nat) (f : option qfshandle_t) (ok : bool)
  : result (Z * bool * option qfshandle_t) :=
  '(n, got, f') ← QFS_ReadFile_into fuel f 2 2;
  Ok (short_le_at got 0, ok && (n =? 2), f').

(** The answer is the length returned, the bytes the read has put into
    [name] and the handle.  What is printed is not kept. *)
Definition WAV_ReadChunkInfo (fuel : nat) (f : option qfshandle_t)
  : result (Z * list byte * option qfshandle_t) :=
  '(n, name, f1) ← QFS_ReadFile_into fuel f 5 4;
  let r := to_int n in
  if negb (r =? 4) then Ok (-1, name, f1)
  else
    '(len, ok, f2) ← FGetLittleLong fuel f1 true;
    if negb ok then Ok (-1, name, f2)
    else if len <? 0 then Ok (-1, name, f2)
    else Ok (len, name, f2).

(** [rounds] bounds the number of chunks looked at.  A name of which the
    read has written fewer than four bytes is compared with bytes that
    were never set, and [len + 1] overflows at [INT_MAX]: neither has a
    defined result.  The value [QFS_Seek] returns is not looked at. *)
Fixpoint WAV_FindRIFFChunk (rounds fuel : nat) (f : option qfshandle_t)
    (chunk : list byte) : result (Z * option qfshandle_t) :=
  match rounds with
  | O => OutOfFuel
  | S rounds' =>
      '(len, name, f1) ← WAV_ReadChunkInfo fuel f;
      if len >=? 0 then
        if (length name <? 4)%nat then Undefined
        else if strncmp_is_0 name chunk 4 then Ok (len, f1)
        else if len =? INT_MAX then Undefined
        else
          let len := Z.land (len + 1) (Z.lnot 1) in
          '(_, f2) ← QFS_Seek fuel f1 len SEEK_CUR;
          WAV_FindRIFFChunk rounds' fuel f2 chunk
      else Ok (-1, f1)
  end.

(** The answer is [*info] when the function returns true, [None] when it
    returns false (what it has written to [*info] by then is not kept),
    and the handle. *)
Definition WAV_ReadRIFFHeader (rounds fuel : nat) (file : option qfshandle_t)
  : result (option snd_info.snd_info_t * option qfshandle_t) :=
  '(n, dump, file1) ← QFS_ReadFile_into fuel file 16 12;
  if n <? 12 then Ok (None, file1)
  else if (length dump <? 12)%nat then Undefined
  else if negb (strncmp_is_0 dump (bytes_of_string "RIFF") 4)
          || negb (strncmp_is_0 (drop 8 dump) (bytes_of_string "WAVE") 4)
  then Ok (None, file1)
  else
    '(fmtlen, file2) ←
      WAV_FindRIFFChunk rounds fuel file1 (bytes_of_string "fmt ");
    if fmtlen <? 0 then Ok (None, file2)
    else
      '(wav_format, ok, file3) ← FGetLittleShort fuel file2 true;
      if negb ok || negb (wav_format =? WAV_FORMAT_PCM) then Ok (None, file3)
      else
        '(channels, ok, file4) ← FGetLittleShort fuel file3 ok;
        '(rate, ok, file5) ← FGetLittleLong fuel file4 ok;
        '(_, ok, file6) ← FGetLittleLong fuel file5 ok;
        '(_, ok, file7) ← FGetLittleShort fuel file6 ok;
        '(bits, ok, file8) ← FGetLittleShort fuel file7 ok;
        if negb ok then Ok (None, file8)
        else if negb (bits =? 8) && negb (bits =? 16) then Ok (None, file8)
        else
          let width := bits ÷ 8 in
          file9 ←
            (if fmtlen >? 16
             then '(_, file9) ← QFS_Seek fuel file8 (fmtlen - 16) SEEK_CUR;
                  Ok file9
             else Ok file8);
          '(size, file10) ←
            WAV_FindRIFFChunk rounds fuel file9 (bytes_of_string "data");
          if size <? 0 then Ok (None, file10)
          else if negb (channels =? 1) && negb (channels =? 2)
          then Ok (None, file10)
          else
            let samples := (size ÷ width) ÷ channels in
            if samples =? 0 then Ok (None, file10)
            else
              Ok (Some (snd_info.mk rate bits width channels samples size 0),
                  file10).

(** The answer is the stream when the function returns true, with the
    handle where the header has left it. *)
Definition S_WAV_CodecOpenStream (rounds fuel : nat)
    (stream_fh : option qfshandle_t)
  : result (option snd_stream_t * option qfshandle_t) :=
  '(header, fh1) ← WAV_ReadRIFFHeader rounds fuel stream_fh;
  match header with
  | None => Ok (None, fh1)
  | Some i =>
      fsz ← QFS_FileSize fh1;
      if QFS_Tell fh1 + snd_info.size i >? fsz then Ok (None, fh1)
      else Ok (Some (mk_stream fh1 i), fh1)
  end.

(** The answer is the count returned, the bytes put into [buffer] and the
    stream.  The samples of a 16-bit stream are put into the byte order of
    the host, which changes nothing on a little-endian one: the bytes are
    given as they lie in the file. *)
Definition S_WAV_CodecReadStream (fuel : nat) (stream : snd_stream_t)
    (bytes : Z) : result (Z * list byte * snd_stream_t) :=
  let remaining := snd_info.size (info stream) - to_int (QFS_Tell (fh stream)) in
  if remaining <=? 0 then Ok (0, [], stream)
  else
    let bytes := if bytes >? remaining then remaining else bytes in
    '(n, got, fh') ← QFS_ReadFile fuel (fh stream) (to_size_t bytes);
    if negb (n =? to_size_t bytes)
    then Sys_Error "S_WAV_CodecReadStream: read error"
    else Ok (bytes, got, mk_stream fh' (info stream)).

Definition S_WAV_CodecRewindStream (fuel : nat) (stream : snd_stream_t)
  : result (Z * snd_stream_t) :=
  '(_, fh') ← QFS_Seek fuel (fh stream) 0 SEEK_SET;
  Ok (0, mk_stream fh' (info stream)).

End Wave.

(** * Alias model meshes (Quake/gl_mesh.c)

    [GL_MakeAliasModelDisplayLists] turns the triangles of an alias model
    into a vertex list and an index list.  [mtriangle_t], [stvert_t],
    [aliasmesh_t] and [aliashdr_t] are declared in headers that are not
    among the sources read here: the records hold the fields gl_mesh.c
    reads and writes, the integers taken to be [int], [vertindex] of
    [aliasmesh_t] an [unsigned short] and its texture coordinates
    [float st[2]].  A [float] is an IEEE-754 binary32 number, given by the
    specification of the Standard Library with a precision of 24 bits and
    a largest exponent of 128; the conversion of an [int] to it rounds to
    the nearest float, ties to the even one. *)

Definition to_ushort (z : Z) : Z := z mod 2 ^ 16.

Definition float : Type := SpecFloat.spec_float.

(** [(float) z] for an [int] [z]. *)
Definition float_of_int (z : Z) : float :=
  SpecFloat.binary_normalize 24 128 z 0 false.

(** [a + b] on two [int]s: no meaning when the sum is not an [int]. *)
Definition int_add (a b : Z) : result Z :=
  if (a + b <? - 2 ^ 31) || (2 ^ 31 <=? a + b) then Undefined
  else Ok (a + b).

Module mtriangle.
Record mtriangle_t := mk {
  facesfront : Z;
  vertindex : Z * Z * Z
}.
End mtriangle.

Module stvert.
Record stvert_t := mk {
  onseam : Z;
  s : Z;
  t : Z
}.
End stvert.

Module aliasmesh.
Record aliasmesh_t := mk {
  st : float * float;
  vertindex : Z
}.
End aliasmesh.

(** [a[i] = x] on a C array: no meaning outside the array. *)
Definition array_set {A : Type} (a : list A) (i : Z) (x : A) : result (list A) :=
  if (i <? 0) || (Z.of_nat (length a) <=? i) then Undefined
  else Ok (<[Z.to_nat i := x]> a).

(** [vertindex[j]] of a triangle, [j] being 0, 1 or 2. *)
Definition corner (vertindex : Z * Z * Z) (j : Z) : Z :=
  let '(a, b, c) := vertindex in
  if j =? 0 then a else if j =? 1 then b else c.

(** What the loop builds: the arrays [remap], [desc] and [indexes], and
    the counters [numverts_vbo] and [numindexes] of [pheader]. *)
Record mesh_build := mk_mesh_build {
  remap : list Z;
  desc : list aliasmesh.aliasmesh_t;
  indexes : list Z;
  numverts_vbo : Z;
  numindexes : Z
}.

(** Lines 84 to 91: the vertex of corner [j] of triangle [i], and its
    slot [v] in the remap table -- the odd slot of the pair for the back
    side of a seam. *)
Definition remap_slot (triangles : list mtriangle.mtriangle_t)
    (stverts : list stvert.stvert_t) (i j : Z) : result (Z * Z) :=
  tri ← array_get (Some triangles) i;
  let vertindex := to_ushort (corner (mtriangle.vertindex tri) j) in
  let v := vertindex * 2 in
  back_seam ←
    (if mtriangle.facesfront tri =? 0
     then st ← array_get (Some stverts) vertindex;
          Ok (negb (stvert.onseam st =? 0))
     else Ok false);
  Ok (vertindex, if back_seam : bool then v + 1 else v).

(** Lines 97 to 106: the vertex emitted for slot [v].  [s] and [t] are
    [int]s, the sum is taken in [int], and the two are converted to
    [float] when they are stored in [st]. *)
Definition emitted_vertex (skinwidth : Z) (stverts : list stvert.stvert_t)
    (vertindex v : Z) : result aliasmesh.aliasmesh_t :=
  st ← array_get (Some stverts) vertindex;
  let s := stvert.s st in
  let t := stvert.t st in
  s ← (if negb (Z.land v 1 =? 0) then int_add s (skinwidth ÷ 2) else Ok s);
  Ok (aliasmesh.mk (float_of_int s, float_of_int t) vertindex).

(** The body of the two loops, for corner [j] of triangle [i]. *)
Definition GL_MakeAliasModelDisplayLists_corner (skinwidth : Z)
    (triangles : list mtriangle.mtriangle_t) (stverts : list stvert.stvert_t)
    (i j : Z) (m : mesh_build) : result mesh_build :=
  '(vertindex, v) ← remap_slot triangles stverts i j;
  r ← array_get (Some (remap m)) v;
  m1 ←
    (if r =? 0 then
       vertex ← emitted_vertex skinwidth stverts vertindex v;
       desc' ← array_set (desc m) (numverts_vbo m) vertex;
       let numverts_vbo' := numverts_vbo m + 1 in
       remap' ← array_set (remap m) v (to_ushort numverts_vbo');
       Ok (mk_mesh_build remap' desc' (indexes m) numverts_vbo' (numindexes m))
     else Ok m);
  r1 ← array_get (Some (remap m1)) v;
  indexes' ← array_set (indexes m1) (numindexes m1) (to_ushort (r1 - 1));
  Ok (mk_mesh_build (remap m1) (desc m1) indexes' (numverts_vbo m1)
        (numindexes m1 + 1)).

(** The corners in the order the loops visit them. *)
Definition corners (numtris : Z) : list (Z * Z) :=
  flat_map (fun i => [(i, 0); (i, 1); (i, 2)])
    (map Z.of_nat (seq 0 (Z.to_nat numtris))).

Fixpoint GL_MakeAliasModelDisplayLists_loop (skinwidth : Z)
    (triangles : list mtriangle.mtriangle_t) (stverts : list stvert.stvert_t)
    (todo : list (Z * Z)) (m : mesh_build) : result mesh_build :=
  match todo with
  | [] => Ok m
  | (i, j) :: rest =>
      m' ← GL_MakeAliasModelDisplayLists_corner skinwidth triangles stverts i j m;
      GL_MakeAliasModelDisplayLists_loop skinwidth triangles stverts rest m'
  end.

(** The part of the function between the copy of the pose vertices and
    the upload: [triangles] and [stverts] are the global arrays, the
    numbers are the fields of [paliashdr] and of the global [pheader].
    [Hunk_Alloc] is taken to succeed and gives zeroed memory.  The copy of
    [poseverts], the offsets stored in the header and the upload by
    [GLMesh_LoadVertexBuffer] are not modelled. *)
Definition GL_MakeAliasModelDisplayLists
    (triangles : list mtriangle.mtriangle_t) (stverts : list stvert.stvert_t)
    (paliashdr_numverts paliashdr_skinwidth pheader_numverts pheader_numtris : Z)
  : result mesh_build :=
  let desc :=
    replicate (Z.to_nat (pheader_numverts * 2))
      (aliasmesh.mk (float_of_int 0, float_of_int 0) 0) in
  let indexes := replicate (Z.to_nat (pheader_numtris * 3)) 0 in
  let remap := replicate (Z.to_nat (paliashdr_numverts * 2)) 0 in
  GL_MakeAliasModelDisplayLists_loop paliashdr_skinwidth triangles stverts
    (corners pheader_numtris) (mk_mesh_build remap desc indexes 0 0).

(** ** More concrete inputs

    The pack that loading "id1/pak0.pak" registers, with its [FILE] at
    [pos], a handle to its one entry at position [offs], and the table and
    the search path with that pack mounted; the handle [FS_Open] gives
    for a loose file, moved to [pos]; a pack file whose header names a
    directory one byte longer than 2048 records; a WAV file in its plainest
    layout, the RIFF header, a format chunk of 16 bytes and the data
    chunk, one such file of eight samples and the stream opened on it; a
    model of two triangles that share an edge, one end of which lies on
    the seam, and its mesh; an archive of one stored file whose raw name
    is 0x82, a NUL byte and "a", with the stand-in for miniz that reads
    it; a text of two lines, the first ended by a carriage return and a
    line feed; a handle to a loose file of twelve bytes, its last six
    trimmed, at the visible end. *)

Definition empty_pak : pack_t :=
  mk_pack (mkFILE [] 0) "id1/pak0.pak" 3 None None 1 PAK_Open_fn.

Definition a_txt_pack (pos : Z) : pack_t :=
  mk_pack (mkFILE (pak_with 24 64) pos) "id1/pak0.pak" 1
    (Some [mk_packfile (bytes_of_string "a.txt") 12 12]) None 1 PAK_Open_fn.

Definition a_txt_handle (pos offs : Z) : @qfshandle_t literal_inflater :=
  mk_handle (data_pack (a_txt_pack pos)) None 0 false false offs 12 0 0
    PAK_FileSize_fn PAK_Read_fn PAK_Close_fn PAK_Seek_fn.

Definition a_txt_state : qfs_state :=
  mk_state (<[1%nat := Some (a_txt_pack 88)]> packs_empty) [] [].

Definition a_txt_search : list searchpath_t := [mk_searchpath 1 "id1" 1].

Definition loose_handle `{miniz : Miniz} (bytes : list byte) (pos : Z)
  : qfshandle_t :=
  mk_handle (data_FILE (mkFILE bytes pos)) None 0 true false pos 0 0 0
    FS_FileSize_fn FS_Read_fn FS_Close_fn FS_Seek_fn.

Definition wav_file (format channels rate bits : Z) (data : list byte)
  : list byte :=
  bytes_of_string "RIFF" ++ le32 (36 + Z.of_nat (length data))
  ++ bytes_of_string "WAVE"
  ++ bytes_of_string "fmt " ++ le32 16 ++ le16 format ++ le16 channels
  ++ le32 rate ++ le32 (rate * channels * (bits / 8))
  ++ le16 (channels * (bits / 8)) ++ le16 bits
  ++ bytes_of_string "data" ++ le32 (Z.of_nat (length data)) ++ data.

Definition oversized_pak : list byte :=
  bytes_of_string "PACK" ++ le32 12 ++ le32 131073 ++ replicate (Z.to_nat 131073) x00.

Definition demo_wav : list byte :=
  wav_file 1 1 11025 8 (bytes_of_string "abcdefgh").

Definition demo_info : snd_info.snd_info_t := snd_info.mk 11025 8 1 1 8 8 0.

Definition demo_stream : @snd_stream_t literal_inflater :=
  mk_stream (Some (loose_handle demo_wav 44)) demo_info.

Definition demo_stverts : list stvert.stvert_t :=
  [stvert.mk 0 0 0; stvert.mk 32 8 0; stvert.mk 0 4 8; stvert.mk 32 8 8].

Definition demo_triangles : list mtriangle.mtriangle_t :=
  [mtriangle.mk 1 (0, 1, 2); mtriangle.mk 0 (1, 3, 2)].

Definition demo_mesh : mesh_build :=
  mk_mesh_build [1; 0; 2; 4; 3; 0; 0; 5]
    (map (fun '(s, t, v) => aliasmesh.mk (float_of_int s, float_of_int t) v)
       [(0, 0, 0); (8, 0, 1); (4, 8, 2); (16, 0, 1); (16, 8, 3);
        (0, 0, 0); (0, 0, 0); (0, 0, 0)])
    [0; 1; 2; 3; 4; 2] 5 6.

Definition nul_name : list byte := [x82; x00; x61].

Definition nul_name_pk3 : list byte :=
  zip_local_entry nul_name (bytes_of_string "cafe").

Definition nul_name_pk3_dir : mz_zip_archive :=
  mk_zip (Z.of_nat (length nul_name_pk3)) 1
    [mk_stat 0 0 4 4 0 0 false true nul_name].

Definition nul_name_miniz : Miniz := {|
  tinfl_decompressor := list Z;
  tinfl_init := [];
  tinfl_decompress := fun st input _ _ szout flags =>
    let '(status, used, out) := literal_inflate input (Z.to_nat szout) in
    (status, Z.of_nat used, out, st ++ [flags]);
  TINFL_FLAG_HAS_MORE_INPUT := 2;
  TINFL_FLAG_USING_NON_WRAPPING_OUTPUT_BUF := 4;
  TINFL_STATUS_DONE := 0;
  MZ_ZIP_MAX_IO_BUF_SIZE := 64 * 1024;
  MZ_ZIP_MAX_ARCHIVE_FILENAME_SIZE := 512;
  mz_zip_reader_init := fun f _ =>
    if bytes_eqb (f_bytes f) nul_name_pk3 then Some nul_name_pk3_dir else None
|}.

Definition nul_name_disk : filesystem :=
  fun path =>
    if String.eqb path "id1/nul.pk3" then Some nul_name_pk3 else None.

Definition two_lines : list byte :=
  bytes_of_string "hi" ++ [x0d; x0a] ++ bytes_of_string "yo".

Definition loose_handle_trimmed : @qfshandle_t literal_inflater :=
  mk_handle (data_FILE (mkFILE (bytes_of_string "hello, world") 6)) None 0
    true false 6 0 0 6 FS_FileSize_fn FS_Read_fn FS_Close_fn FS_Seek_fn.

(** * Theorems *)

(** ** Conversions between the integer types *)

Lemma to_int_small (z : Z) : - 2 ^ 31 <= z < 2 ^ 31 -> to_int z = z.
Proof.
  intros Hz. unfold to_int.
  rewrite Z.mod_small by lia. lia.
Qed.

Lemma to_int_range (z : Z) : - 2 ^ 31 <= to_int z < 2 ^ 31.
Proof.
  unfold to_int.
  pose proof (Z.mod_pos_bound (z + 2 ^ 31) (2 ^ 32) ltac:(lia)). lia.
Qed.

Lemma to_size_t_small (z : Z) : 0 <= z < 2 ^ 64 -> to_size_t z = z.
Proof. intros Hz. unfold to_size_t. apply Z.mod_small. exact Hz. Qed.

Lemma to_qfileofs_t_small (z : Z) :
  - 2 ^ 63 <= z < 2 ^ 63 -> to_qfileofs_t z = z.
Proof.
  intros Hz. unfold to_qfileofs_t.
  rewrite Z.mod_small by lia. lia.
Qed.

(** ** NULL handles *)

(** C9.  Every operation of the front end accepts a NULL handle and
    answers with its failure value, reading nothing through the pointer:
    [QFS_ReadFile] returns 0, [QFS_Seek] -1, [QFS_Tell] 0, [QFS_FileSize]
    0, [QFS_Eof] true; [QFS_CloseFile] releases nothing and
    [QFS_IgnoreBytes] returns false. *)
Theorem QFS_null_handle_sentinels `{miniz : Miniz} (fuel : nat)
    (size off whence cut : Z) :
  QFS_ReadFile fuel None size = Ok (0, [], None)
  /\ QFS_Seek fuel None off whence = Ok (-1, None)
  /\ QFS_Tell None = 0
  /\ QFS_FileSize None = Ok 0
  /\ QFS_Eof None = Ok true
  /\ QFS_CloseFile None = []
  /\ QFS_IgnoreBytes fuel None cut whence = Ok (false, None).
Proof. repeat split. Qed.

(** ** Seeking *)

Section Seek.
Context `{miniz : Miniz}.

(** The three values of [whence] select the three formulas for the raw
    target. *)
Lemma QFS_Seek_target_cases (h : qfshandle_t) (off whence fsz p : Z) :
  call_filesize h = Ok fsz ->
  QFS_Seek_target h off whence = Ok (Some p) ->
  (whence = SEEK_SET /\ p = start h + off)
  \/ (whence = SEEK_CUR /\ p = start h + offs h + off)
  \/ (whence = SEEK_END /\ p = fsz - endtrim h + off).
Proof.
  intros Hsz. unfold QFS_Seek_target.
  destruct (Z.eqb_spec whence SEEK_SET) as [-> | _].
  { intros [= <-]. auto. }
  destruct (Z.eqb_spec whence SEEK_CUR) as [-> | _].
  { intros [= <-]. auto. }
  destruct (Z.eqb_spec whence SEEK_END) as [-> | _]; [| discriminate].
  rewrite Hsz. cbn. intros [= <-]. auto.
Qed.

Lemma QFS_Seek_unfold (fuel : nat) (h : qfshandle_t) (off whence fsz p : Z) :
  call_filesize h = Ok fsz ->
  QFS_Seek_target h off whence = Ok (Some p) ->
  QFS_Seek fuel (Some h) off whence =
    if (p <? start h) || (p >? fsz - (start h + endtrim h))
    then Ok (-1, Some h)
    else
      '(rc, h') ← call_seek fuel h p;
      if rc =? 0 then Ok (0, Some (set_offs h' p)) else Ok (-1, Some h').
Proof.
  intros Hsz Ht. unfold QFS_Seek. rewrite Ht. cbn. rewrite Hsz. reflexivity.
Qed.

(** C10.  When [QFS_Seek] turns a request down before it calls the back
    end -- the handle is NULL, [whence] is none of SEEK_SET, SEEK_CUR and
    SEEK_END, or the raw target is below [start] or above the upper bound
    (the one the code tests, and so also [filesize - endtrim] when
    [start] is not negative) -- it returns -1 and leaves the handle as it
    was given: [offs], [start] and [endtrim] are unchanged. *)
Theorem QFS_Seek_rejected_unchanged (fuel : nat)
    (handle : option qfshandle_t) (off whence : Z) :
  handle = None
  \/ (whence <> SEEK_SET /\ whence <> SEEK_CUR /\ whence <> SEEK_END)
  \/ (exists h fsz p,
        handle = Some h /\ call_filesize h = Ok fsz
        /\ QFS_Seek_target h off whence = Ok (Some p)
        /\ (p < start h
            \/ p > fsz - (start h + endtrim h)
            \/ (0 <= start h /\ p > fsz - endtrim h))) ->
  QFS_Seek fuel handle off whence = Ok (-1, handle).
Proof.
  intros [-> | [(Hset & Hcur & Hend) | (h & fsz & p & -> & Hsz & Ht & Hout)]].
  - reflexivity.
  - destruct handle as [h |]; [| reflexivity].
    unfold QFS_Seek, QFS_Seek_target.
    destruct (Z.eqb_spec whence SEEK_SET); [contradiction |].
    destruct (Z.eqb_spec whence SEEK_CUR); [contradiction |].
    destruct (Z.eqb_spec whence SEEK_END); [contradiction |].
    reflexivity.
  - rewrite (QFS_Seek_unfold fuel h off whence fsz p Hsz Ht).
    destruct (Z.ltb_spec p (start h)); [reflexivity |].
    destruct (Z.gtb_spec p (fsz - (start h + endtrim h))); [reflexivity |].
    lia.
Qed.

Lemma ZIP_Read_keeps_trims (fuel : nat) (h h' : qfshandle_t)
    (copy_out : bool) (sz n : Z) (got : list byte) :
  ZIP_Read fuel h copy_out sz = Ok (n, got, h') ->
  start h' = start h /\ endtrim h' = endtrim h.
Proof.
  unfold ZIP_Read.
  destruct (impl_data h) as [p |]; [| discriminate].
  destruct (data h) as [| f | pk]; try discriminate.
  destruct (m_is_directory (stat p) || (m_uncomp_size (stat p) =? 0) || (sz =? 0)).
  - intros [= _ _ <-]. split; reflexivity.
  - destruct (ZIP_Read_loop fuel pk (pak_offset h) copy_out sz _) as [s | | |];
      try discriminate.
    cbn. intros [= _ _ <-]. split; reflexivity.
Qed.

(** No seek of a back end touches [start] or [endtrim]. *)
Lemma call_seek_keeps_trims (fuel : nat) (h h' : qfshandle_t) (pos rc : Z) :
  call_seek fuel h pos = Ok (rc, h') ->
  start h' = start h /\ endtrim h' = endtrim h.
Proof.
  unfold call_seek. destruct (seek h).
  - unfold FS_Seek. destruct (data h) as [| f | pk]; try discriminate.
    destruct (Sys_fseek f pos) as [rc' f']. intros [= _ <-]. split; reflexivity.
  - unfold PAK_Seek. intros [= _ <-]. split; reflexivity.
  - unfold ZIP_Seek. destruct (impl_data h) as [p |] eqn:Hp; [| discriminate].
    destruct ((pos >=? offs h - to_qfileofs_t (out_read_ptr p))
              && (pos - (offs h - to_qfileofs_t (out_read_ptr p))
                  <=? to_qfileofs_t (p_out p))).
    { intros [= _ <-]. split; reflexivity. }
    destruct (pos >? offs h - to_qfileofs_t (out_read_ptr p)
                     + to_qfileofs_t (p_out p)).
    + destruct (ZIP_Read fuel h false _) as [[[n got] h1] | | |] eqn:Hrd;
        try discriminate.
      cbn. intros [= _ <-]. exact (ZIP_Read_keeps_trims _ _ _ _ _ _ _ Hrd).
    + destruct (ZIP_Read fuel _ false _) as [[[n got] h1] | | |] eqn:Hrd;
        try discriminate.
      cbn. intros [= _ <-].
      exact (ZIP_Read_keeps_trims _ _ _ _ _ _ _ Hrd).
Qed.

(** C2, as amended.  For [whence] one of SEEK_SET, SEEK_CUR and SEEK_END
    the raw target is [start + off], [start + offs + off] or
    [filesize - endtrim + off].  With [start] not negative, [QFS_Seek]
    returns -1 for every target outside [start, filesize - endtrim] and
    leaves the handle alone; it returns -1 as well whenever the seek of
    the back end fails; it returns 0 only for a target inside that
    interval on which the back end succeeded, and [offs] is then the
    target, [start] and [endtrim] being what they were; and on a handle
    with [start = 0] every target inside the interval on which the back
    end succeeds is accepted. *)
Theorem QFS_Seek_range_and_backend (fuel : nat) (h : qfshandle_t)
    (off whence fsz p : Z) :
  call_filesize h = Ok fsz ->
  QFS_Seek_target h off whence = Ok (Some p) ->
  0 <= start h ->
  ((whence = SEEK_SET /\ p = start h + off)
   \/ (whence = SEEK_CUR /\ p = start h + offs h + off)
   \/ (whence = SEEK_END /\ p = fsz - endtrim h + off))
  /\ (p < start h \/ fsz - endtrim h < p ->
      QFS_Seek fuel (Some h) off whence = Ok (-1, Some h))
  /\ (forall rc h1,
        call_seek fuel h p = Ok (rc, h1) -> rc <> 0 ->
        fst <$> QFS_Seek fuel (Some h) off whence = Ok (-1))
  /\ (forall h',
        QFS_Seek fuel (Some h) off whence = Ok (0, Some h') ->
        start h <= p <= fsz - endtrim h
        /\ (exists h1, call_seek fuel h p = Ok (0, h1) /\ h' = set_offs h1 p)
        /\ offs h' = p /\ start h' = start h /\ endtrim h' = endtrim h)
  /\ (start h = 0 -> 0 <= p <= fsz - endtrim h ->
      forall h1,
        call_seek fuel h p = Ok (0, h1) ->
        QFS_Seek fuel (Some h) off whence = Ok (0, Some (set_offs h1 p))).
Proof.
  intros Hsz Ht Hstart.
  pose proof (QFS_Seek_unfold fuel h off whence fsz p Hsz Ht) as Hunf.
  split; [exact (QFS_Seek_target_cases h off whence fsz p Hsz Ht) |].
  split; [| split; [| split]].
  - intros Hout. rewrite Hunf.
    destruct (Z.ltb_spec p (start h)); [reflexivity |].
    destruct (Z.gtb_spec p (fsz - (start h + endtrim h))); [reflexivity |].
    lia.
  - intros rc h1 Hseek Hrc. rewrite Hunf.
    destruct ((p <? start h) || (p >? fsz - (start h + endtrim h)));
      [reflexivity |].
    rewrite Hseek. cbn.
    destruct (Z.eqb_spec rc 0); [contradiction | reflexivity].
  - intros h' Hok. rewrite Hunf in Hok.
    destruct (Z.ltb_spec p (start h)); [discriminate |].
    destruct (Z.gtb_spec p (fsz - (start h + endtrim h))); [discriminate |].
    cbn [orb] in Hok.
    destruct (call_seek fuel h p) as [[rc h1] | | |] eqn:Hseek;
      try discriminate.
    cbn in Hok. destruct (Z.eqb_spec rc 0) as [-> | ?]; [| discriminate].
    injection Hok as <-.
    destruct (call_seek_keeps_trims _ _ _ _ _ Hseek) as [Hs He].
    split; [lia |]. split; [exists h1; split; reflexivity |].
    split; [reflexivity |]. split; [exact Hs | exact He].
  - intros Hs0 Hin h1 Hseek. rewrite Hunf.
    destruct (Z.ltb_spec p (start h)); [lia |].
    destruct (Z.gtb_spec p (fsz - (start h + endtrim h))); [lia |].
    cbn. rewrite Hseek. reflexivity.
Qed.

End Seek.

(** C2, the counterexample.  "short.txt" of [demo_pk3] is a deflated
    entry of declared size 10 whose stream ends after three bytes.  On its
    handle, fresh from [QFS_OpenFile], [start] and [endtrim] are 0 and the
    target of [QFS_Seek (5, SEEK_SET)] is 5, inside [start, filesize -
    endtrim] = [0, 10]; the seek of the back end runs out of stream and
    [QFS_Seek] returns -1. *)
Lemma QFS_Seek_fails_inside_interval :
  exists h fsz,
    open_in_demo_pk3 "short.txt" = Ok (Some h)
    /\ call_filesize h = Ok fsz
    /\ QFS_Seek_target h 5 SEEK_SET = Ok (Some 5)
    /\ start h <= 5 <= fsz - endtrim h
    /\ fst <$> QFS_Seek 4 (Some h) 5 SEEK_SET = Ok (-1).
Proof.
  eexists. exists 10.
  split; [vm_compute; reflexivity |].
  split; [reflexivity |].
  split; [reflexivity |].
  split; [vm_compute; split; discriminate |].
  vm_compute. reflexivity.
Qed.

(** The witness of C2: "a.txt" (twelve bytes, nothing trimmed), asked
    for position 13 from the start, and for position 7. *)
Lemma QFS_Seek_range_and_backend_witness :
  exists h,
    open_a_txt = Ok (Some h)
    /\ QFS_Seek 0 (Some h) 13 SEEK_SET = Ok (-1, Some h)
    /\ QFS_Seek 0 (Some h) 7 SEEK_SET
       = Ok (0, Some (set_offs (set_offs h 7) 7)).
Proof.
  eexists. split; [vm_compute; reflexivity |].
  split.
  - refine (proj1 (proj2 (QFS_Seek_range_and_backend 0 _ 13 SEEK_SET 12 13 _ _ _)) _).
    + reflexivity.
    + reflexivity.
    + vm_compute. discriminate.
    + right. vm_compute. reflexivity.
  - refine (proj2 (proj2 (proj2 (proj2
              (QFS_Seek_range_and_backend 0 _ 7 SEEK_SET 12 7 _ _ _)))) _ _ _ _).
    + reflexivity.
    + reflexivity.
    + vm_compute. discriminate.
    + reflexivity.
    + vm_compute. split; discriminate.
    + reflexivity.
Defined.

(** The witness of C10: a NULL handle; then "a.txt" (twelve bytes) with
    a [whence] of 7, with a target of 13 and with a target of -1. *)
Lemma QFS_Seek_rejected_unchanged_witness :
  QFS_Seek (miniz := literal_inflater) 0 None 0 SEEK_SET = Ok (-1, None)
  /\ exists h,
       open_a_txt = Ok (Some h)
       /\ QFS_Seek 0 (Some h) 0 7 = Ok (-1, Some h)
       /\ QFS_Seek 0 (Some h) 13 SEEK_SET = Ok (-1, Some h)
       /\ QFS_Seek 0 (Some h) (-1) SEEK_CUR = Ok (-1, Some h).
Proof.
  split.
  - apply QFS_Seek_rejected_unchanged. left. reflexivity.
  - eexists. split; [vm_compute; reflexivity |].
    split; [| split].
    + apply QFS_Seek_rejected_unchanged. right. left.
      repeat split; discriminate.
    + apply QFS_Seek_rejected_unchanged. right. right.
      eexists. exists 12, 13.
      split; [reflexivity |]. split; [reflexivity |]. split; [reflexivity |].
      right. left. reflexivity.
    + apply QFS_Seek_rejected_unchanged. right. right.
      eexists. exists 12, (-1).
      split; [reflexivity |]. split; [reflexivity |]. split; [reflexivity |].
      left. reflexivity.
Defined.

(** The upper bound [QFS_Seek] tests has [start] taken off once more than
    the interval of the visible bytes has.  "a.txt" with its first two
    bytes cut off: the visible bytes are at the raw positions 2 to 12,
    [QFS_FileSize] is 10, and neither [QFS_Seek (0, SEEK_END)] nor
    [QFS_Seek (10, SEEK_SET)] is accepted; [QFS_Seek (8, SEEK_SET)] is. *)
Lemma QFS_Seek_upper_bound_with_start :
  (h ← open_a_txt;
   '(_, h1) ← QFS_IgnoreBytes 0 h 2 SEEK_SET;
   size ← QFS_FileSize h1;
   '(rc_end, _) ← QFS_Seek 0 h1 0 SEEK_END;
   '(rc_set, _) ← QFS_Seek 0 h1 10 SEEK_SET;
   '(rc_8, h2) ← QFS_Seek 0 h1 8 SEEK_SET;
   Ok (handle_view h1, size, rc_end, rc_set, rc_8, handle_view h2))
  = Ok (Some (2, 2, 0), 10, -1, -1, 0, Some (10, 2, 0)).
Proof. vm_compute. reflexivity. Qed.

(** ** The pack table *)

Lemma QFS_RegisterPack_scan_Some (n i k : nat) (tbl : list (option pack_t)) :
  QFS_RegisterPack_scan n i tbl = Some k ->
  (i <= k < i + n)%nat
  /\ tbl !! k = Some None
  /\ forall j, (i <= j < k)%nat -> tbl !! j <> Some None.
Proof.
  revert i. induction n as [| n IH]; intros i; simpl; [discriminate |].
  destruct (tbl !! i) as [[p |] |] eqn:Hi.
  - intros Hscan. destruct (IH _ Hscan) as (Hk & Hfree & Hbefore).
    split; [lia |]. split; [exact Hfree |].
    intros j Hj. destruct (decide (j = i)) as [-> | Hne].
    + rewrite Hi. discriminate.
    + apply Hbefore. lia.
  - intros [= <-]. split; [lia |]. split; [exact Hi |]. intros j Hj. lia.
  - intros Hscan. destruct (IH _ Hscan) as (Hk & Hfree & Hbefore).
    split; [lia |]. split; [exact Hfree |].
    intros j Hj. destruct (decide (j = i)) as [-> | Hne].
    + rewrite Hi. discriminate.
    + apply Hbefore. lia.
Qed.

Lemma QFS_RegisterPack_scan_None (n i : nat) (tbl : list (option pack_t)) :
  QFS_RegisterPack_scan n i tbl = None ->
  forall j, (i <= j < i + n)%nat -> tbl !! j <> Some None.
Proof.
  revert i. induction n as [| n IH]; intros i; simpl; [lia |].
  destruct (tbl !! i) as [[p |] |] eqn:Hi; try discriminate;
    intros Hscan j Hj; (destruct (decide (j = i)) as [-> | Hne];
      [rewrite Hi; discriminate | apply (IH _ Hscan); lia]).
Qed.

(** Registration takes the first slot among 1..32 that holds NULL and
    puts the pack there; with none left it returns 0, prints the warning
    and releases the pack. *)
Lemma QFS_RegisterPack_first_free (pack : pack_t) (st st' : qfs_state) (id : Z) :
  QFS_RegisterPack pack st = (id, st') ->
  (1 <= id <= 32
   /\ packs st !! Z.to_nat id = Some None
   /\ (forall j, (1 <= j < Z.to_nat id)%nat -> packs st !! j <> Some None)
   /\ packs st' !! Z.to_nat id = Some (Some pack)
   /\ released st' = released st /\ console st' = console st)
  \/ (id = 0
      /\ (forall j, (1 <= j <= 32)%nat -> packs st !! j <> Some None)
      /\ packs st' = packs st
      /\ released st' = released st ++ [res_pack pack]
      /\ console st' = console st ++ ["WARNING: Too many pack files loaded."%string]).
Proof.
  unfold QFS_RegisterPack.
  change (Z.to_nat (countof_packs - 1)) with 32%nat.
  destruct (QFS_RegisterPack_scan 32 1 (packs st)) as [k |] eqn:Hscan.
  - intros [= <- <-]. left.
    destruct (QFS_RegisterPack_scan_Some _ _ _ _ Hscan) as (Hk & Hfree & Hbefore).
    rewrite Nat2Z.id. simpl.
    split; [lia |]. split; [exact Hfree |]. split; [exact Hbefore |].
    split; [| split; reflexivity].
    apply list_lookup_insert_eq. apply lookup_lt_Some in Hfree. exact Hfree.
  - intros [= <- <-]. right. simpl.
    split; [reflexivity |]. split; [| repeat split].
    intros j Hj. apply (QFS_RegisterPack_scan_None _ _ _ Hscan). lia.
Qed.

(** What is registered stays where it is when another pack is
    registered, and when another id is freed. *)
Lemma QFS_RegisterPack_keeps (pack q : pack_t) (st st' : qfs_state) (id : Z)
    (k : nat) :
  QFS_RegisterPack pack st = (id, st') ->
  packs st !! k = Some (Some q) ->
  packs st' !! k = Some (Some q).
Proof.
  unfold QFS_RegisterPack.
  destruct (QFS_RegisterPack_scan _ 1 (packs st)) as [i |] eqn:Hscan.
  - intros [= <- <-] Hk. simpl.
    destruct (QFS_RegisterPack_scan_Some _ _ _ _ Hscan) as (_ & Hfree & _).
    rewrite list_lookup_insert_ne; [exact Hk |].
    intros ->. rewrite Hk in Hfree. discriminate.
  - intros [= <- <-] Hk. exact Hk.
Qed.

Lemma QFS_FreePack_keeps (q : pack_t) (st : qfs_state) (id : Z) (k : nat) :
  k <> Z.to_nat id ->
  packs st !! k = Some (Some q) ->
  packs (QFS_FreePack id st) !! k = Some (Some q).
Proof.
  intros Hne Hk. unfold QFS_FreePack, QFS_GetPack.
  destruct ((0 <? id) && (id <? MAX_PACK_FILES)); simpl; [| exact Hk].
  rewrite list_lookup_insert_ne by congruence. exact Hk.
Qed.

(** For the ids 1..31 the lookup finds what registration put there. *)
Lemma QFS_GetPack_finds_below_32 (st : qfs_state) (id : Z) (q : pack_t) :
  0 < id < 32 ->
  packs st !! Z.to_nat id = Some (Some q) ->
  QFS_GetPack id false st = (Some q, st)
  /\ QFS_PackInfoName id st = Some (filename q).
Proof.
  intros Hid Hq. unfold QFS_PackInfoName, QFS_GetPack, MAX_PACK_FILES.
  destruct (Z.ltb_spec 0 id); [| lia].
  destruct (Z.ltb_spec id 32); [| lia].
  rewrite Hq. split; reflexivity.
Qed.

(** C3.  The same pack file loaded 32 times on an empty table: the ids
    returned are 1, 2, ..., 32, each the first free index; the last pack
    sits in slot 32 and nothing has been released; yet [QFS_GetPack]
    answers NULL for id 32, [QFS_PackInfoName] finds no pack,
    [QFS_FindFile] stops with "invalid pack id" and [QFS_FreePack]
    releases nothing.  Id 31 is looked up as it should. *)
Theorem QFS_GetPack_misses_id_32 :
  exists st p,
    load_pak0_times 32 state_empty = Ok (Z.of_nat <$> seq 1 32, st)
    /\ packs st !! 32%nat = Some (Some p)
    /\ released st = []
    /\ QFS_GetPack 32 false st = (None, st)
    /\ QFS_PackInfoName 32 st = None
    /\ QFS_PackInfoNumFiles 32 st = 0
    /\ QFS_FindFile (miniz := literal_inflater) demo_disk true st
         [mk_searchpath 1 "id1" 32] "a.txt" true false
       = Sys_Error "QFS_FindFile: invalid pack id."
    /\ QFS_FreePack 32 st = st
    /\ QFS_PackInfoName 31 st = Some "id1/pak0.pak"%string.
Proof.
  eexists. eexists.
  split; [vm_compute; reflexivity |].
  split; [vm_compute; reflexivity |].
  repeat split.
Qed.

(** ** Reading, the end of the file and trimming *)

(** C1.  "a.txt" holds twelve bytes; its last six are cut off with
    [QFS_IgnoreBytes (6, SEEK_END)], so six are visible.  From position 5
    a read of 3 bytes returns 6 and leaves the position at 11; and at the
    visible end, reached with [QFS_Seek (0, SEEK_END)], a read of 1 byte
    returns the 6 bytes that were cut off. *)
Theorem QFS_ReadFile_returns_more_than_asked :
  (h ← a_txt_trimmed;
   size ← QFS_FileSize h;
   '(rc, h1) ← QFS_Seek 0 h 5 SEEK_SET;
   '(n, got, h2) ← QFS_ReadFile 0 h1 3;
   Ok (size, rc, QFS_Tell h1, n, got, QFS_Tell h2))
  = Ok (6, 0, 5, 6, bytes_of_string ", worl", 11)
  /\ (h ← a_txt_trimmed;
      size ← QFS_FileSize h;
      '(rc, h1) ← QFS_Seek 0 h 0 SEEK_END;
      '(n, got, h2) ← QFS_ReadFile 0 h1 1;
      Ok (size, rc, QFS_Tell h1, n, got, QFS_Tell h2))
     = Ok (6, 0, 6, 6, bytes_of_string " world", 12).
Proof. split; vm_compute; reflexivity. Qed.

(** The same on a file of the directory tree: the pack file itself, 88
    bytes, opened as a loose file, its directory of 64 bytes cut off.  At
    the visible end, position 24, a read of 1 byte returns 24 bytes of
    the directory. *)
Lemma QFS_ReadFile_loose_file_past_the_end :
  (h ← QFS_OpenFile (miniz := literal_inflater) demo_disk true state_empty
         [mk_searchpath 1 "id1" 0] "pak0.pak";
   '(_, h1) ← QFS_IgnoreBytes 0 h 64 SEEK_END;
   size ← QFS_FileSize h1;
   '(rc, h2) ← QFS_Seek 0 h1 0 SEEK_END;
   '(n, got, h3) ← QFS_ReadFile 0 h2 1;
   Ok (size, rc, QFS_Tell h2, n, length got, QFS_Tell h3))
  = Ok (24, 0, 24, 24, 24%nat, 48).
Proof. vm_compute. reflexivity. Qed.

Section ReadAndTrim.
Context `{miniz : Miniz}.

(** The size handed to the back end: the request, or all of
    [filesize - endtrim] when the request would pass that bound -- not
    what is left up to it. *)
Lemma QFS_ReadFile_size_passed (fuel : nat) (h : qfshandle_t) (size fsz : Z) :
  call_filesize h = Ok fsz ->
  QFS_ReadFile fuel (Some h) size =
    ('(n, got, h') ←
       call_read fuel h
         (if offs h + to_qfileofs_t size >? fsz - endtrim h
          then to_size_t (fsz - endtrim h) else size);
     Ok (n, got, Some h')).
Proof. intros Hsz. unfold QFS_ReadFile. rewrite Hsz. reflexivity. Qed.

(** What [QFS_Eof] tests, with [offs] on its own: [endtrim] is added to
    the bound where the visible size has it taken off. *)
Lemma QFS_Eof_test (h : qfshandle_t) (fsz : Z) :
  call_filesize h = Ok fsz ->
  QFS_Eof (Some h) = Ok (offs h >=? fsz - start h + endtrim h)
  /\ QFS_FileSize (Some h) = Ok (fsz - start h - endtrim h).
Proof.
  intros Hsz. unfold QFS_Eof, QFS_FileSize. rewrite Hsz. cbn.
  split; [| reflexivity]. f_equal.
  destruct (Z.geb_spec (offs h - endtrim h) (fsz - start h));
    destruct (Z.geb_spec (offs h) (fsz - start h + endtrim h));
    reflexivity || lia.
Qed.

(** The branch of [QFS_IgnoreBytes] that resets both trims is reached
    only when [endtrim] exceeds the size of the file: otherwise the first
    test takes the call [(0, SEEK_SET)] and sets [start] alone. *)
Lemma QFS_IgnoreBytes_reset_sets_start_only (fuel : nat) (h : qfshandle_t)
    (fsz : Z) :
  call_filesize h = Ok fsz ->
  endtrim h <= fsz ->
  forall ok h',
    QFS_IgnoreBytes fuel (Some h) 0 SEEK_SET = Ok (ok, Some h') ->
    start h' = 0 /\ endtrim h' = endtrim h.
Proof.
  intros Hsz He ok h'. unfold QFS_IgnoreBytes. rewrite Hsz. cbn.
  destruct (Z.leb_spec 0 (fsz - endtrim h)); [| lia]. cbn.
  destruct (offs h <? 0).
  - destruct (call_seek _ _ _) as [[rc h2] | | |] eqn:Hs; try discriminate.
    cbn. intros [= _ <-]. exact (call_seek_keeps_trims _ _ _ _ _ Hs).
  - destruct (offs h >? 0 - endtrim h).
    + destruct (call_seek _ _ _) as [[rc h2] | | |] eqn:Hs; try discriminate.
      cbn. intros [= _ <-]. exact (call_seek_keeps_trims _ _ _ _ _ Hs).
    + intros [= _ <-]. split; reflexivity.
Qed.

End ReadAndTrim.

(** C4.  On "a.txt" with six bytes visible, [QFS_Seek (0, SEEK_END)]
    succeeds and [QFS_Tell] is 6, the visible size; [QFS_Eof] is false. *)
Theorem QFS_Eof_false_at_visible_end :
  (h ← a_txt_trimmed;
   size ← QFS_FileSize h;
   '(rc, h1) ← QFS_Seek 0 h 0 SEEK_END;
   eof ← QFS_Eof h1;
   Ok (size, rc, QFS_Tell h1, eof))
  = Ok (6, 0, 6, false).
Proof. vm_compute. reflexivity. Qed.

(** C5.  "a.txt" again: three bytes are cut off at the end, then two at
    the front; [QFS_IgnoreBytes (0, SEEK_SET)] then sets [start] back to 0
    and leaves [endtrim] at 3, so the size is 9 where it was 12.  On the
    way the position is moved although it was inside the window: the
    first call takes it from 0 to 9, the second from 9 to 7 where the
    window is [2, 9].  The triples are [offs], [start] and [endtrim]. *)
Theorem QFS_IgnoreBytes_reset_keeps_endtrim :
  (h ← open_a_txt;
   size0 ← QFS_FileSize h;
   '(_, h1) ← QFS_IgnoreBytes 0 h 3 SEEK_END;
   '(_, h2) ← QFS_IgnoreBytes 0 h1 2 SEEK_SET;
   '(ok, h3) ← QFS_IgnoreBytes 0 h2 0 SEEK_SET;
   size3 ← QFS_FileSize h3;
   Ok (handle_view h, size0, handle_view h1, handle_view h2, ok,
       handle_view h3, size3))
  = Ok (Some (0, 0, 0), 12, Some (9, 0, 3), Some (7, 2, 3), true,
        Some (9, 0, 3), 9).
Proof. vm_compute. reflexivity. Qed.

(** ** The inflater's flags *)

Section InflaterFlags.
Context `{miniz : Miniz}.

(** As long as the count of compressed bytes taken from the archive does
    not exceed the compressed size, the flags are
    TINFL_FLAG_HAS_MORE_INPUT, whether bytes remain or not. *)
Lemma ZIP_Read_flags_always_more_input (p : inflbuffers_t) :
  foffs_in p <= to_qfileofs_t (m_comp_size (stat p)) ->
  ZIP_Read_flags p = TINFL_FLAG_HAS_MORE_INPUT.
Proof.
  intros Hle. unfold ZIP_Read_flags.
  destruct (Z.geb_spec (to_qfileofs_t (m_comp_size (stat p))) (foffs_in p));
    [reflexivity | lia].
Qed.

(** The bound holds from round to round of the loop of [ZIP_Read]: the
    copy and the inflater leave [foffs_in] alone, and the refill takes no
    more than what is left of the compressed bytes. *)
Lemma ZIP_Read_copy_keeps_input (copy_out : bool) (sz : Z)
    (s s1 : zip_read_state) (returns : bool) :
  ZIP_Read_copy copy_out sz s = (s1, returns) ->
  foffs_in (zr_p s1) = foffs_in (zr_p s)
  /\ stat (zr_p s1) = stat (zr_p s) /\ bsz_in (zr_p s1) = bsz_in (zr_p s).
Proof.
  unfold ZIP_Read_copy.
  destruct ((p_out (zr_p s) >=? bsz_out (zr_p s)) || eof_flag (zr_p s)).
  - destruct (_ >=? p_out (zr_p s)); intros [= <- _]; repeat split.
  - intros [= <- _]. repeat split.
Qed.

Lemma ZIP_Read_refill_keeps_input (pk : pack_t) (pak_offset : Z)
    (s s2 : zip_read_state) :
  0 <= bsz_in (zr_p s) < 2 ^ 63 ->
  0 <= foffs_in (zr_p s) <= to_qfileofs_t (m_comp_size (stat (zr_p s))) ->
  ZIP_Read_refill pk pak_offset s = Ok s2 ->
  0 <= foffs_in (zr_p s2) <= to_qfileofs_t (m_comp_size (stat (zr_p s2)))
  /\ stat (zr_p s2) = stat (zr_p s) /\ bsz_in (zr_p s2) = bsz_in (zr_p s).
Proof.
  intros Hbsz Hin. unfold ZIP_Read_refill.
  destruct (p_in (zr_p s) >=? readsz_in (zr_p s)).
  - destruct (pack_impl_data pk) as [z |]; [| discriminate].
    destruct (ZIP_LowLevelRead _ _ _) as [[got f] | | |]; try discriminate.
    cbn.
    destruct (Z.eqb_spec (Z.of_nat (length got))
                (to_size_t (q_min (to_qfileofs_t (bsz_in (zr_p s)))
                   (to_qfileofs_t (m_comp_size (stat (zr_p s)))
                    - foffs_in (zr_p s))))) as [Hlen | _]; [| discriminate].
    cbn. intros [= <-]. cbn. split; [| split; reflexivity].
    rewrite Hlen, (to_qfileofs_t_small (bsz_in (zr_p s))) by lia.
    assert (Hq : - 2 ^ 63 <= to_qfileofs_t (m_comp_size (stat (zr_p s))) < 2 ^ 63).
    { unfold to_qfileofs_t.
      pose proof (Z.mod_pos_bound (m_comp_size (stat (zr_p s)) + 2 ^ 63)
                    (2 ^ 64) ltac:(lia)). lia. }
    unfold q_min.
    destruct (Z.ltb_spec (bsz_in (zr_p s))
                (to_qfileofs_t (m_comp_size (stat (zr_p s))) - foffs_in (zr_p s)));
      rewrite to_size_t_small by lia; lia.
  - intros [= <-]. split; [exact Hin | split; reflexivity].
Qed.

Lemma ZIP_Read_inflate_keeps_input (pk : pack_t) (s s3 : zip_read_state) :
  ZIP_Read_inflate pk s = Ok s3 ->
  foffs_in (zr_p s3) = foffs_in (zr_p s)
  /\ stat (zr_p s3) = stat (zr_p s) /\ bsz_in (zr_p s3) = bsz_in (zr_p s).
Proof.
  unfold ZIP_Read_inflate.
  destruct (tinfl_decompress _ _ _ _ _ _) as [[[status used] produced] infl'].
  destruct (status <? TINFL_STATUS_DONE); [discriminate |].
  intros [= <-]. repeat split.
Qed.

(** So in every round the inflater is called with
    TINFL_FLAG_HAS_MORE_INPUT and nothing else, also in a round that
    starts with all compressed bytes consumed. *)
Lemma ZIP_Read_round_flags (pk : pack_t) (pak_offset : Z) (copy_out : bool)
    (sz : Z) (s s1 s2 s3 : zip_read_state) :
  0 <= bsz_in (zr_p s) < 2 ^ 63 ->
  0 <= foffs_in (zr_p s) <= to_qfileofs_t (m_comp_size (stat (zr_p s))) ->
  ZIP_Read_copy copy_out sz s = (s1, false) ->
  ZIP_Read_refill pk pak_offset s1 = Ok s2 ->
  ZIP_Read_inflate pk s2 = Ok s3 ->
  ZIP_Read_flags (zr_p s2) = TINFL_FLAG_HAS_MORE_INPUT
  /\ 0 <= bsz_in (zr_p s3) < 2 ^ 63
  /\ 0 <= foffs_in (zr_p s3) <= to_qfileofs_t (m_comp_size (stat (zr_p s3))).
Proof.
  intros Hbsz Hin Hcopy Hrefill Hinfl.
  destruct (ZIP_Read_copy_keeps_input _ _ _ _ _ Hcopy) as (Hf1 & Hs1 & Hb1).
  destruct (ZIP_Read_refill_keeps_input pk pak_offset s1 s2) as (Hin2 & Hs2 & Hb2);
    [rewrite Hb1; exact Hbsz | rewrite Hf1, Hs1; exact Hin | exact Hrefill |].
  destruct (ZIP_Read_inflate_keeps_input _ _ _ Hinfl) as (Hf3 & Hs3 & Hb3).
  split; [apply ZIP_Read_flags_always_more_input; lia |].
  rewrite Hb3, Hb2, Hb1, Hf3, Hs3. split; [exact Hbsz | exact Hin2].
Qed.

End InflaterFlags.

(** C8.  "d.txt" of [demo_pk3] is six compressed bytes.  In the first
    round of the loop of [ZIP_Read] the refill takes all six, so none
    remains ([foffs_in] is [m_comp_size]); the flags of the call that
    follows are TINFL_FLAG_HAS_MORE_INPUT alone, without the flag of a
    non-wrapping buffer.  The read of five bytes calls the inflater once,
    and that call is recorded with these flags. *)
Theorem ZIP_Read_flags_at_end_of_input :
  let more_input := @TINFL_FLAG_HAS_MORE_INPUT literal_inflater in
  let non_wrapping := @TINFL_FLAG_USING_NON_WRAPPING_OUTPUT_BUF literal_inflater in
  exists (h h' : @qfshandle_t literal_inflater) p pk s1 s2,
    open_in_demo_pk3 "d.txt" = Ok (Some h)
    /\ impl_data h = Some p /\ data h = data_pack pk
    /\ ZIP_Read_copy true 5 (mk_zr (offs h) p (pack_handle pk) [] 0) = (s1, false)
    /\ ZIP_Read_refill pk (pak_offset h) s1 = Ok s2
    /\ foffs_in (zr_p s2) = 6 /\ m_comp_size (stat (zr_p s2)) = 6
    /\ ZIP_Read_flags (zr_p s2) = more_input
    /\ Z.land (ZIP_Read_flags (zr_p s2)) non_wrapping = 0
    /\ non_wrapping = 4
    /\ QFS_ReadFile 2 (Some h) 5 = Ok (5, bytes_of_string "abcde", Some h')
    /\ (infl <$> impl_data h') = Some [more_input].
Proof.
  cbv zeta. do 6 eexists.
  split; [vm_compute; reflexivity |].
  split; [reflexivity |]. split; [reflexivity |].
  split; [vm_compute; reflexivity |].
  split; [vm_compute; reflexivity |].
  split; [reflexivity |]. split; [reflexivity |].
  split; [reflexivity |]. split; [reflexivity |]. split; [reflexivity |].
  split; [vm_compute; reflexivity |].
  reflexivity.
Qed.

(** ** Loading a .pak *)

Lemma int_le_at_range (buf : list byte) (ofs : nat) :
  - 2 ^ 31 <= int_le_at buf ofs < 2 ^ 31.
Proof. apply to_int_range. Qed.

Lemma byte_at_take (buf : list byte) (n i : nat) :
  (i < n)%nat -> byte_at (take n buf) i = byte_at buf i.
Proof. intros Hi. unfold byte_at. rewrite lookup_take_lt by exact Hi. reflexivity. Qed.

Lemma int_le_at_take (buf : list byte) (n ofs : nat) :
  (ofs + 3 < n)%nat -> int_le_at (take n buf) ofs = int_le_at buf ofs.
Proof.
  intros Hn. unfold int_le_at. rewrite !byte_at_take by lia. reflexivity.
Qed.

Lemma header_id_ok_take (bytes : list byte) :
  header_id_ok (take 12 bytes) = header_id_ok bytes.
Proof.
  destruct bytes as [| c0 [| c1 [| c2 [| c3 rest]]]]; reflexivity.
Qed.

Lemma header_id_ok_spec (bytes : list byte) :
  header_id_ok bytes = true <-> take 4 bytes = bytes_of_string "PACK".
Proof.
  change (bytes_of_string "PACK") with ["P"; "A"; "C"; "K"]%byte.
  destruct bytes as [| c0 [| c1 [| c2 [| c3 rest]]]]; simpl;
    try (split; discriminate).
  rewrite !andb_true_iff. split.
  - intros [[[H0 H1] H2] H3].
    apply byte_dec_bl in H0, H1, H2, H3. subst. reflexivity.
  - intros [= -> -> -> ->]. repeat split.
Qed.

(** The number of entries the loader works with, for a directory
    length that is not negative. *)
Lemma numpackfiles_nonneg (dirlen : Z) :
  0 <= dirlen < 2 ^ 31 ->
  to_int (to_size_t dirlen / sizeof_dpackfile_t) = dirlen / 64.
Proof.
  intros Hd. unfold to_size_t, sizeof_dpackfile_t.
  rewrite Z.mod_small by lia.
  apply to_int_small.
  assert (0 <= dirlen / 64 <= dirlen).
  { split; [apply Z.div_pos; lia | apply Z.div_le_upper_bound; lia]. }
  lia.
Qed.

(** The loader after the header has been read and the magic found: what
    is left is the chain of tests on [dirlen], [dirofs] and the number of
    entries. *)
Lemma QFS_LoadPAKFile_after_magic (disk : filesystem) (packfile : string)
    (st : qfs_state) (bytes : list byte) :
  disk packfile = Some bytes ->
  (12 <= length bytes)%nat ->
  header_id_ok bytes = true ->
  let dirofs := int_le_at bytes 4 in
  let dirlen := int_le_at bytes 8 in
  let numpackfiles := to_int (to_size_t dirlen / sizeof_dpackfile_t) in
  QFS_LoadPAKFile disk packfile st =
    if (dirlen <? 0) || (dirofs <? 0)
    then Sys_Error ("Invalid packfile " +:+ packfile)
    else if numpackfiles =? 0 then
      Ok (0,
          mk_state (packs st) (released st ++ [res_FILE (mkFILE bytes 12)])
            (console st
             ++ ["WARNING: " +:+ packfile +:+ " has no files, ignored"]))
    else if numpackfiles >? MAX_FILES_IN_PACK
    then Sys_Error (packfile +:+ " has too many files")
    else
      let '(info, f3) := fread dirlen (mkFILE bytes dirofs) in
      if Z.of_nat (length info) >? MAX_FILES_IN_PACK * sizeof_dpackfile_t
      then Undefined
      else if negb (to_int (Z.of_nat (length info)) =? dirlen)
      then Sys_Error ("Error reading " +:+ packfile)
      else
        Ok (QFS_RegisterPack
              (mk_pack f3 (pack_filename packfile) numpackfiles
                 (Some (map (parse_dpackfile info)
                          (seq 0 (Z.to_nat numpackfiles))))
                 None 1 PAK_Open_fn)
              st).
Proof.
  intros Hdisk Hlen Hmagic. cbv zeta.
  unfold QFS_LoadPAKFile, fopen. rewrite Hdisk.
  unfold fread at 1. cbn [f_pos f_bytes].
  change (Z.to_nat 0) with 0%nat. rewrite drop_0.
  change (Z.to_nat sizeof_dpackheader_t) with 12%nat.
  rewrite header_id_ok_take, Hmagic.
  rewrite length_take_le by exact Hlen.
  change (Z.of_nat 12 =? sizeof_dpackheader_t) with true.
  cbn [negb orb].
  rewrite !int_le_at_take by lia.
  change (0 + Z.of_nat 12) with 12.
  destruct ((int_le_at bytes 8 <? 0) || (int_le_at bytes 4 <? 0)) eqn:Hneg;
    [reflexivity |].
  destruct (_ =? 0); [reflexivity |].
  destruct (_ >? MAX_FILES_IN_PACK); [reflexivity |].
  unfold Sys_fseek. cbn [f_bytes].
  apply orb_false_iff in Hneg as [_ Hofs]. rewrite Hofs. reflexivity.
Qed.

(** C6.  For a pack file that could be opened: a header that is short or
    does not begin with "PACK" is fatal; so is a negative [dirlen] or
    [dirofs], and so are more than 2048 entries; no entry at all makes
    the loader print its warning, close the file and return 0, the
    table untouched.  A file with [dirlen = -1] ends in [Sys_Error]: no
    id comes back. *)
Theorem QFS_LoadPAKFile_rejects (disk : filesystem) (packfile : string)
    (st : qfs_state) (bytes : list byte) (dirofs dirlen : Z) :
  disk packfile = Some bytes ->
  dirofs = int_le_at bytes 4 ->
  dirlen = int_le_at bytes 8 ->
  let magic_ok :=
    (12 <= length bytes)%nat /\ take 4 bytes = bytes_of_string "PACK" in
  let load := QFS_LoadPAKFile disk packfile st in
  (~ magic_ok -> is_fatal load)
  /\ (magic_ok -> dirlen < 0 \/ dirofs < 0 -> is_fatal load)
  /\ (magic_ok -> 0 <= dirlen -> 0 <= dirofs ->
      dirlen / 64 > MAX_FILES_IN_PACK -> is_fatal load)
  /\ (magic_ok -> 0 <= dirlen -> 0 <= dirofs -> dirlen / 64 = 0 ->
      exists st',
        load = Ok (0, st')
        /\ packs st' = packs st
        /\ released st' = released st ++ [res_FILE (mkFILE bytes 12)]
        /\ console st'
           = console st ++ ["WARNING: " +:+ packfile +:+ " has no files, ignored"])
  /\ (magic_ok -> dirlen = -1 ->
      is_fatal load /\ forall id st', load <> Ok (id, st')).
Proof.
  intros Hdisk -> -> magic_ok load.
  assert (Hbad : ~ magic_ok -> is_fatal load).
  { intros Hno. subst load. unfold QFS_LoadPAKFile, fopen. rewrite Hdisk.
    unfold fread at 1. cbn [f_pos f_bytes].
    change (Z.to_nat 0) with 0%nat. rewrite drop_0.
    change (Z.to_nat sizeof_dpackheader_t) with 12%nat.
    rewrite header_id_ok_take.
    destruct (Z.eqb_spec (Z.of_nat (length (take 12 bytes))) sizeof_dpackheader_t)
      as [Hl | Hl]; [| eexists; reflexivity].
    destruct (header_id_ok bytes) eqn:Hid; [| eexists; reflexivity].
    exfalso. apply Hno. split; [| apply header_id_ok_spec; exact Hid].
    rewrite length_take in Hl. unfold sizeof_dpackheader_t in Hl. lia. }
  assert (Hgood : magic_ok ->
            load = _ ) by
    (intros [Hlen Hid]; apply (QFS_LoadPAKFile_after_magic disk packfile st bytes Hdisk Hlen);
     apply header_id_ok_spec; exact Hid).
  cbv zeta in Hgood.
  pose proof (int_le_at_range bytes 8) as Hr8.
  assert (Hneg : magic_ok ->
            int_le_at bytes 8 < 0 \/ int_le_at bytes 4 < 0 -> is_fatal load).
  { intros Hm Hn. rewrite (Hgood Hm).
    destruct (Z.ltb_spec (int_le_at bytes 8) 0); [eexists; reflexivity |].
    destruct (Z.ltb_spec (int_le_at bytes 4) 0); [eexists; reflexivity |].
    lia. }
  split; [exact Hbad |]. split; [exact Hneg |]. split; [| split].
  - intros Hm Hl Ho Hmany. rewrite (Hgood Hm).
    destruct (Z.ltb_spec (int_le_at bytes 8) 0); [lia |].
    destruct (Z.ltb_spec (int_le_at bytes 4) 0); [lia |].
    rewrite numpackfiles_nonneg by lia. cbn [orb].
    destruct (Z.eqb_spec (int_le_at bytes 8 / 64) 0);
      [unfold MAX_FILES_IN_PACK in Hmany; lia |].
    destruct (Z.gtb_spec (int_le_at bytes 8 / 64) MAX_FILES_IN_PACK); [| lia].
    eexists; reflexivity.
  - intros Hm Hl Ho Hnone. rewrite (Hgood Hm).
    destruct (Z.ltb_spec (int_le_at bytes 8) 0); [lia |].
    destruct (Z.ltb_spec (int_le_at bytes 4) 0); [lia |].
    rewrite numpackfiles_nonneg by lia. cbn [orb]. rewrite Hnone.
    change (0 =? 0) with true. cbn iota.
    eexists. split; [reflexivity |]. repeat split.
  - intros Hm Hminus.
    assert (Hf : is_fatal load) by (apply Hneg; [exact Hm | lia]).
    split; [exact Hf |].
    intros id st' Heq. destruct Hf as [msg Hmsg]. congruence.
Qed.

(** The witness of C6: the pack file of [pak_with], its [dirlen] set to
    -1; and the same with [dirlen = 0]. *)
Lemma QFS_LoadPAKFile_rejects_witness :
  is_fatal (QFS_LoadPAKFile (one_file_disk (pak_with 24 (-1))) "id1/pak0.pak"
              state_empty)
  /\ exists st',
       QFS_LoadPAKFile (one_file_disk (pak_with 24 0)) "id1/pak0.pak" state_empty
       = Ok (0, st').
Proof.
  split.
  - refine (proj1 (proj2 (proj2 (proj2 (proj2
      (QFS_LoadPAKFile_rejects (one_file_disk (pak_with 24 (-1)))
         "id1/pak0.pak" state_empty (pak_with 24 (-1)) 24 (-1) _ _ _)))) _ _)).
    + reflexivity.
    + vm_compute. reflexivity.
    + vm_compute. reflexivity.
    + split; [vm_compute; lia | vm_compute; reflexivity].
    + reflexivity.
  - destruct (proj1 (proj2 (proj2 (proj2
      (QFS_LoadPAKFile_rejects (one_file_disk (pak_with 24 0))
         "id1/pak0.pak" state_empty (pak_with 24 0) 24 0
         eq_refl ltac:(vm_compute; reflexivity) ltac:(vm_compute; reflexivity)))))
      ltac:(split; [vm_compute; lia | vm_compute; reflexivity])
      ltac:(lia) ltac:(lia) ltac:(reflexivity)) as (st' & Hload & _).
    exists st'. exact Hload.
Defined.

(** ** Loading a .pk3: the names *)

Lemma is_nul_false (b : byte) : b <> x00 -> is_nul b = false.
Proof.
  intros Hb. unfold is_nul. destruct (Byte.eqb b x00) eqn:E; [| reflexivity].
  apply byte_dec_bl in E. contradiction.
Qed.

Lemma cstr_nul_free (s rest : list byte) :
  Forall (fun b => b <> x00) s -> cstr (s ++ x00 :: rest) = s.
Proof.
  induction 1 as [| b s Hb _ IH]; [reflexivity |].
  simpl. rewrite (is_nul_false b Hb), IH. reflexivity.
Qed.

Lemma write_at_0 (buf src : list byte) :
  write_at buf 0 src = src ++ drop (length src) buf.
Proof. reflexivity. Qed.

Lemma cstr_write_at_0 (buf s : list byte) :
  Forall (fun b => b <> x00) s -> cstr (write_at buf 0 (s ++ [x00])) = s.
Proof.
  intros Hs. rewrite write_at_0, <- app_assoc. apply cstr_nul_free, Hs.
Qed.

Lemma utf8_encode_ibm437_length (b : byte) :
  (1 <= length (utf8_encode (ibm437_codepoint b)) <= 3)%nat.
Proof. destruct b; vm_compute; lia. Qed.

Lemma utf8_encode_ibm437_nul_free (b : byte) :
  b <> x00 -> Forall (fun c => c <> x00) (utf8_encode (ibm437_codepoint b)).
Proof.
  destruct b; intros Hb; try contradiction; vm_compute;
    repeat (constructor; [discriminate |]); constructor.
Qed.

Lemma utf8_encode_ibm437_ascii (b : byte) :
  (Byte.to_N b <? 128)%N = true -> utf8_encode (ibm437_codepoint b) = [b].
Proof. destruct b; intros Hb; try discriminate Hb; reflexivity. Qed.

Lemma utf8_of_ibm437_length (s : list byte) :
  (length s <= length (utf8_of_ibm437 s))%nat.
Proof.
  induction s as [| b s IH]; [reflexivity |].
  unfold utf8_of_ibm437 in *. simpl. rewrite length_app.
  pose proof (utf8_encode_ibm437_length b). lia.
Qed.

Lemma utf8_of_ibm437_nul_free (s : list byte) :
  Forall (fun b => b <> x00) s ->
  Forall (fun b => b <> x00) (utf8_of_ibm437 s).
Proof.
  induction 1 as [| b s Hb _ IH]; [constructor |].
  unfold utf8_of_ibm437 in *. simpl. apply Forall_app. split; [| exact IH].
  apply utf8_encode_ibm437_nul_free, Hb.
Qed.

(** An ASCII name is its own transcoding. *)
Lemma utf8_of_ibm437_ascii (s : list byte) :
  forallb (fun b => (Byte.to_N b <? 128)%N) s = true -> utf8_of_ibm437 s = s.
Proof.
  induction s as [| b s IH]; [reflexivity |].
  simpl. intros [Hb Hs]%andb_true_iff.
  unfold utf8_of_ibm437 in *. simpl.
  rewrite (utf8_encode_ibm437_ascii b Hb), (IH Hs). reflexivity.
Qed.

(** The loop of the transcoder writes the whole transcoding when there
    is room for it, and otherwise stops within three bytes of the end of
    the room. *)
Lemma UTF8_FromIBM437_loop_fits (room : Z) (s : list byte) :
  Z.of_nat (length (utf8_of_ibm437 s)) <= room ->
  UTF8_FromIBM437_loop room s = utf8_of_ibm437 s.
Proof.
  revert room. induction s as [| b s IH]; intros room; [reflexivity |].
  unfold utf8_of_ibm437 in *. simpl. rewrite length_app. intros Hroom.
  destruct (Z.leb_spec (Z.of_nat (length (utf8_encode (ibm437_codepoint b)))) room);
    [| lia].
  rewrite IH by lia. reflexivity.
Qed.

Lemma UTF8_FromIBM437_loop_cut (room : Z) (s : list byte) :
  UTF8_FromIBM437_loop room s = utf8_of_ibm437 s
  \/ room - 3 < Z.of_nat (length (UTF8_FromIBM437_loop room s)).
Proof.
  revert room. induction s as [| b s IH]; intros room; [left; reflexivity |].
  simpl. pose proof (utf8_encode_ibm437_length b) as Hlen.
  destruct (Z.leb_spec (Z.of_nat (length (utf8_encode (ibm437_codepoint b)))) room).
  - destruct (IH (room - Z.of_nat (length (utf8_encode (ibm437_codepoint b)))))
      as [-> | Hcut]; [left; reflexivity |].
    right. rewrite length_app. lia.
  - right. simpl. lia.
Qed.

Lemma UTF8_FromIBM437_loop_nul_free (room : Z) (s : list byte) :
  Forall (fun b => b <> x00) s ->
  Forall (fun b => b <> x00) (UTF8_FromIBM437_loop room s).
Proof.
  intros Hs. revert room. induction Hs as [| b s Hb _ IH]; intros room;
    [constructor |].
  simpl. destruct (_ <=? room); [| constructor].
  apply Forall_app. split; [apply utf8_encode_ibm437_nul_free, Hb | apply IH].
Qed.

Lemma forallb_ascii_false (raw : list byte) :
  Exists (fun b => (128 <= Byte.to_N b)%N) raw ->
  forallb (fun b => (Byte.to_N b <? 128)%N) raw = false.
Proof.
  induction 1 as [b l Hb | b l _ IH]; simpl.
  - destruct (N.ltb_spec (Byte.to_N b) 128); [lia | reflexivity].
  - rewrite IH. apply andb_false_r.
Qed.

(** The string in a buffer ends at the first NUL: what follows it does
    not count, the string holds no NUL, and the string in the first [n]
    bytes is the first [n] bytes of the string. *)
Lemma cstr_upto_nul (s rest : list byte) :
  cstr (s ++ x00 :: rest) = cstr s.
Proof.
  induction s as [| b s IH]; [reflexivity |].
  simpl. destruct (is_nul b); [reflexivity |]. rewrite IH. reflexivity.
Qed.

Lemma cstr_holds_no_nul (s : list byte) : Forall (fun b => b <> x00) (cstr s).
Proof.
  induction s as [| b s IH]; [constructor |].
  simpl. unfold is_nul. destruct (Byte.eqb b x00) eqn:E; [constructor |].
  constructor; [| exact IH]. intros ->. discriminate.
Qed.

Lemma cstr_length (s : list byte) : (length (cstr s) <= length s)%nat.
Proof.
  induction s as [| b s IH]; [reflexivity |].
  simpl. destruct (is_nul b); simpl; lia.
Qed.

Lemma cstr_take (n : nat) (s : list byte) :
  cstr (take n s) = take n (cstr s).
Proof.
  revert n. induction s as [| b s IH]; intros [| n]; try reflexivity.
  simpl. destruct (is_nul b); [reflexivity |]. simpl. rewrite IH. reflexivity.
Qed.

Lemma cstr_of_nul_free (s : list byte) :
  Forall (fun b => b <> x00) s -> cstr s = s.
Proof.
  induction 1 as [| b s Hb _ IH]; [reflexivity |].
  simpl. rewrite (is_nul_false b Hb), IH. reflexivity.
Qed.

Lemma forallb_take_false {A : Type} (p : A -> bool) (n : nat) (l : list A) :
  forallb p (take n l) = false -> forallb p l = false.
Proof.
  revert n. induction l as [| a l IH]; intros [| n]; simpl; try discriminate.
  destruct (p a); [apply IH | reflexivity].
Qed.

Lemma forallb_ascii_false_inv (raw : list byte) :
  forallb (fun b => (Byte.to_N b <? 128)%N) raw = false ->
  Exists (fun b => (128 <= Byte.to_N b)%N) raw.
Proof.
  induction raw as [| b l IH]; simpl; [discriminate |].
  destruct (N.ltb_spec (Byte.to_N b) 128) as [_ | Hb].
  - intros Hl. apply Exists_cons_tl, IH, Hl.
  - intros _. apply Exists_cons_hd. exact Hb.
Qed.

Section Pk3Names.
Context `{miniz : Miniz}.

(** One round of the loop, for an entry that is a file of admissible
    size: [r] is the name as [mz_zip_reader_get_filename] hands it
    over. *)
Lemma QFS_LoadPK3File_entry_unfold (packfile : string) (pk3 : mz_zip_archive)
    (i : Z) (buf : list byte) (st : mz_zip_archive_file_stat) :
  mz_zip_reader_file_stat pk3 i = Some st ->
  m_is_directory st = false ->
  m_uncomp_size st <= INT_MAX ->
  let size := MZ_ZIP_MAX_ARCHIVE_FILENAME_SIZE in
  let n := q_min (Z.of_nat (length (m_filename st))) (size - 1) in
  let r := take (Z.to_nat n) (m_filename st) in
  let buf1 := write_at buf 0 (r ++ [x00]) in
  QFS_LoadPK3File_entry packfile pk3 i buf =
    let '(buf2, len) :=
      if (Z.land (m_bit_flag st) (Z.shiftl 1 11) =? 0) && negb (q_strascii buf1)
      then
        let '(convbuf, len) := UTF8_FromIBM437 (size * 3) buf1 in
        if len <=? size
        then (write_at buf1 0 (take (Z.to_nat len) convbuf), len)
        else (buf1, len)
      else (buf1, n + 1) in
    if len >=? MAX_QPATH
    then Sys_Error ("A file name in " +:+ packfile
                    +:+ " exceeds maximum allowed length.")
    else
      Ok (buf2,
          Some (mk_packfile (q_strlcpy buf2 MAX_QPATH)
                  (to_int (m_file_index st)) (to_int (m_uncomp_size st)))).
Proof.
  intros Hst Hdir Hsize. cbv zeta.
  unfold QFS_LoadPK3File_entry, mz_zip_reader_get_filename.
  rewrite Hst, Hdir. cbn [negb].
  destruct (Z.gtb_spec (m_uncomp_size st) INT_MAX); [lia |].
  reflexivity.
Qed.

(** The entry such a round stores, whatever the name buffer held before
    and whatever bytes the raw name holds.  The name counts as a C
    string, [cstr raw]: the raw name up to its first NUL byte, all of it
    when it has none.  That string is transcoded when bit 11 is clear and
    it is not ASCII, and kept otherwise.  The round stores the entry when
    the name fits -- the transcoding and its NUL in less than MAX_QPATH
    bytes, or, for a name that is kept, the whole raw name and its NUL --
    and is fatal when it does not. *)
Lemma QFS_LoadPK3File_entry_stored (packfile : string) (pk3 : mz_zip_archive)
    (i : Z) (buf : list byte) (st : mz_zip_archive_file_stat) :
  MAX_QPATH <= MZ_ZIP_MAX_ARCHIVE_FILENAME_SIZE ->
  mz_zip_reader_file_stat pk3 i = Some st ->
  m_is_directory st = false ->
  m_uncomp_size st <= INT_MAX ->
  let raw := m_filename st in
  let transcoded :=
    (Z.land (m_bit_flag st) (Z.shiftl 1 11) =? 0)
    && negb (forallb (fun b => (Byte.to_N b <? 128)%N) (cstr raw)) in
  let stored_name :=
    if transcoded then utf8_of_ibm437 (cstr raw) else cstr raw in
  let fits :=
    if transcoded
    then Z.of_nat (length (utf8_of_ibm437 (cstr raw))) + 1 < MAX_QPATH
    else Z.of_nat (length raw) + 1 < MAX_QPATH in
  let entry :=
    mk_packfile stored_name (to_int (m_file_index st))
      (to_int (m_uncomp_size st)) in
  (forall buf' o,
     QFS_LoadPK3File_entry packfile pk3 i buf = Ok (buf', o) ->
     o = Some entry /\ fits)
  /\ (fits ->
      exists buf', QFS_LoadPK3File_entry packfile pk3 i buf = Ok (buf', Some entry))
  /\ (~ fits -> is_fatal (QFS_LoadPK3File_entry packfile pk3 i buf)).
Proof.
  intros Hmax Hst Hdir Hsize raw transcoded stored_name fits entry.
  pose proof (QFS_LoadPK3File_entry_unfold packfile pk3 i buf st Hst Hdir Hsize)
    as Hunf.
  cbv zeta in Hunf. fold raw in Hunf.
  set (size := MZ_ZIP_MAX_ARCHIVE_FILENAME_SIZE) in *.
  set (n := q_min (Z.of_nat (length raw)) (size - 1)) in *.
  set (r := take (Z.to_nat n) raw) in *.
  set (buf1 := write_at buf 0 (r ++ [x00])) in *.
  unfold MAX_QPATH in *.
  set (c := cstr raw) in *.
  pose proof (cstr_length raw) as Hc_len. fold c in Hc_len.
  pose proof (cstr_holds_no_nul r) as Hcr_nul.
  assert (Hcr : cstr r = take (Z.to_nat n) c) by apply cstr_take.
  assert (Hcstr1 : cstr buf1 = cstr r).
  { unfold buf1. rewrite write_at_0, <- app_assoc. apply cstr_upto_nul. }
  assert (Hn : (n = Z.of_nat (length raw) /\ r = raw /\ cstr r = c)
               \/ (63 <= n /\ n < Z.of_nat (length raw))).
  { unfold n, q_min.
    destruct (Z.ltb_spec (Z.of_nat (length raw)) (size - 1)).
    - left. split; [reflexivity |].
      assert (Hr : r = raw).
      { unfold r, n, q_min.
        destruct (Z.ltb_spec (Z.of_nat (length raw)) (size - 1)); [| lia].
        rewrite Nat2Z.id. apply take_ge. lia. }
      split; [exact Hr |]. rewrite Hr. reflexivity.
    - destruct (Z.eq_dec (Z.of_nat (length raw)) (size - 1)) as [Heq | Hne].
      + left. split; [lia |].
        assert (Hr : r = raw).
        { unfold r, n, q_min.
          destruct (Z.ltb_spec (Z.of_nat (length raw)) (size - 1)); [lia |].
          apply take_ge. lia. }
        split; [exact Hr |]. rewrite Hr. reflexivity.
      + right. lia. }
  assert (Hshort : Z.of_nat (length c) < 63 -> cstr r = c).
  { intros Hl. rewrite Hcr. apply take_ge.
    destruct Hn as [(Hn & _ & _) | (Hn & _)]; lia. }
  assert (Hcr_len : Z.of_nat (length (cstr r)) < 63 -> cstr r = c).
  { intros Hl. destruct Hn as [(_ & _ & Heq) | (Hn & Hlt)]; [exact Heq |].
    apply Hshort. rewrite Hcr, length_take in Hl. lia. }
  assert (Hascii : q_strascii buf1
                   = forallb (fun b => (Byte.to_N b <? 128)%N) (cstr r)).
  { unfold q_strascii. rewrite Hcstr1. reflexivity. }
  rewrite Hascii in Hunf.
  assert (Hq : forall s rest,
             Forall (fun b => b <> x00) s -> Z.of_nat (length s) + 1 < 64 ->
             q_strlcpy (write_at rest 0 (s ++ [x00])) 64 = s).
  { intros s rest Hs Hl. unfold q_strlcpy. rewrite cstr_write_at_0 by exact Hs.
    apply take_ge. lia. }
  (* what the transcoder leaves in the buffer *)
  set (L := UTF8_FromIBM437_loop (size * 3 - 1) (cstr r)) in *.
  assert (HL_nul : Forall (fun b => b <> x00) L)
    by (apply UTF8_FromIBM437_loop_nul_free, Hcr_nul).
  assert (Hconv : UTF8_FromIBM437 (size * 3) buf1
                  = (L ++ [x00], Z.of_nat (length L) + 1)).
  { unfold UTF8_FromIBM437. rewrite Hcstr1.
    destruct (Z.leb_spec (size * 3) 0) as [Hle | _]; [lia |].
    fold L. rewrite length_app. cbn [length]. f_equal. lia. }
  rewrite Hconv in Hunf.
  pose proof (utf8_of_ibm437_length (cstr r)) as Hge_r.
  pose proof (utf8_of_ibm437_length c) as Hge_c.
  assert (HL_cut : L = utf8_of_ibm437 (cstr r) \/ 188 <= Z.of_nat (length L)).
  { destruct (UTF8_FromIBM437_loop_cut (size * 3 - 1) (cstr r)) as [HLr | Hcut];
      [left; exact HLr | right; fold L in Hcut; lia]. }
  (* the three answers follow from one description of the round *)
  assert (Hround :
            (fits
             /\ exists buf', QFS_LoadPK3File_entry packfile pk3 i buf
                             = Ok (buf', Some entry))
            \/ (~ fits /\ is_fatal (QFS_LoadPK3File_entry packfile pk3 i buf))).
  { subst fits entry stored_name transcoded. fold c.
    destruct ((Z.land (m_bit_flag st) (Z.shiftl 1 11) =? 0)
              && negb (forallb (fun b => (Byte.to_N b <? 128)%N) (cstr r)))
      eqn:Hcode.
    - (* the round transcodes *)
      apply andb_true_iff in Hcode. destruct Hcode as [Hbit Hhigh].
      apply negb_true_iff in Hhigh.
      assert (Hhigh_c : forallb (fun b => (Byte.to_N b <? 128)%N) c = false).
      { rewrite Hcr in Hhigh. exact (forallb_take_false _ _ _ Hhigh). }
      rewrite Hbit, Hhigh_c. cbn [andb negb].
      assert (Hunf' :
                QFS_LoadPK3File_entry packfile pk3 i buf =
                  if Z.of_nat (length L) + 1 >=? 64
                  then Sys_Error ("A file name in " +:+ packfile
                                  +:+ " exceeds maximum allowed length.")
                  else
                    Ok (write_at buf1 0 (L ++ [x00]),
                        Some (mk_packfile
                                (q_strlcpy (write_at buf1 0 (L ++ [x00])) 64)
                                (to_int (m_file_index st))
                                (to_int (m_uncomp_size st))))).
      { rewrite Hunf.
        destruct (Z.leb_spec (Z.of_nat (length L) + 1) size) as [_ | Hbig].
        - rewrite take_ge by (rewrite length_app; cbn [length]; lia).
          reflexivity.
        - destruct (Z.geb_spec (Z.of_nat (length L) + 1) 64);
            [reflexivity | lia]. }
      rewrite Hunf'.
      destruct (Z.geb_spec (Z.of_nat (length L) + 1) 64) as [Hge | Hlt].
      + right. split; [| eexists; reflexivity].
        intros Hfit.
        assert (Heq : cstr r = c) by (apply Hshort; lia).
        assert (HL : L = utf8_of_ibm437 c).
        { unfold L. rewrite Heq. apply UTF8_FromIBM437_loop_fits. lia. }
        rewrite HL in Hge. lia.
      + left.
        assert (HL : L = utf8_of_ibm437 (cstr r))
          by (destruct HL_cut as [HL | Hlong]; [exact HL | lia]).
        assert (Heq : cstr r = c).
        { apply Hcr_len. rewrite HL in Hlt. lia. }
        rewrite Heq in HL.
        split; [rewrite <- HL; lia |].
        assert (Hname : q_strlcpy (write_at buf1 0 (L ++ [x00])) 64
                        = utf8_of_ibm437 c).
        { transitivity L; [| exact HL]. apply Hq; [exact HL_nul | lia]. }
        rewrite Hname. eexists. reflexivity.
    - (* the round keeps the name *)
      assert (Hunf' :
                QFS_LoadPK3File_entry packfile pk3 i buf =
                  if n + 1 >=? 64
                  then Sys_Error ("A file name in " +:+ packfile
                                  +:+ " exceeds maximum allowed length.")
                  else
                    Ok (buf1,
                        Some (mk_packfile (q_strlcpy buf1 64)
                                (to_int (m_file_index st))
                                (to_int (m_uncomp_size st)))))
        by (rewrite Hunf; reflexivity).
      rewrite Hunf'.
      destruct (Z.geb_spec (n + 1) 64) as [Hge | Hlt].
      + right. split; [| eexists; reflexivity].
        destruct ((Z.land (m_bit_flag st) (Z.shiftl 1 11) =? 0)
                  && negb (forallb (fun b => (Byte.to_N b <? 128)%N) c))
          eqn:Hspec.
        * intros Hfit.
          assert (Heq : cstr r = c) by (apply Hshort; lia).
          rewrite Heq, Hspec in Hcode. discriminate.
        * intros Hfit. destruct Hn as [(Hn & _ & _) | (Hn & Hlt)]; lia.
      + left.
        destruct Hn as [(Hn & Hr & Heq) | (Hn & _)]; [| lia].
        rewrite Heq in Hcode. rewrite Hcode.
        split; [lia |].
        assert (Hname : q_strlcpy buf1 64 = c).
        { unfold q_strlcpy. rewrite Hcstr1, Heq. apply take_ge. lia. }
        rewrite Hname. eexists. reflexivity. }
  destruct Hround as [[Hfit [buf0 Hok]] | [Hnofit [msg Hmsg]]].
  - split; [| split].
    + intros buf' o Hbuf. rewrite Hok in Hbuf. injection Hbuf as _ <-.
      split; [reflexivity | exact Hfit].
    + intros _. exists buf0. exact Hok.
    + intros Hno. contradiction.
  - split; [| split].
    + intros buf' o Hbuf. rewrite Hmsg in Hbuf. discriminate.
    + intros Hfit. contradiction.
    + intros _. exists msg. exact Hmsg.
Qed.

(** A round for a directory stores nothing and leaves the buffer. *)
Lemma QFS_LoadPK3File_entry_directory (packfile : string)
    (pk3 : mz_zip_archive) (i : Z) (buf : list byte)
    (st : mz_zip_archive_file_stat) :
  mz_zip_reader_file_stat pk3 i = Some st ->
  m_is_directory st = true ->
  QFS_LoadPK3File_entry packfile pk3 i buf = Ok (buf, None).
Proof.
  intros Hst Hdir. unfold QFS_LoadPK3File_entry. rewrite Hst, Hdir.
  reflexivity.
Qed.

(** The loop over the central directory adds to [newfiles], in order,
    what its rounds store: every entry added comes from a round, and
    every round's entry is among those added. *)
Lemma QFS_LoadPK3File_loop_entries (packfile : string) (pk3 : mz_zip_archive)
    (n : nat) (i : Z) (buf : list byte) (newfiles files : list packfile_t) :
  QFS_LoadPK3File_loop packfile pk3 n i buf newfiles = Ok files ->
  exists added,
    files = newfiles ++ added
    /\ Forall (fun e =>
                 exists j b b',
                   i <= j < i + Z.of_nat n
                   /\ QFS_LoadPK3File_entry packfile pk3 j b = Ok (b', Some e))
         added
    /\ forall j, i <= j < i + Z.of_nat n ->
         exists b b' o,
           QFS_LoadPK3File_entry packfile pk3 j b = Ok (b', o)
           /\ forall e, o = Some e -> e ∈ added.
Proof.
  revert i buf newfiles. induction n as [| n IH]; intros i buf newfiles.
  - simpl. intros [= <-]. exists []. rewrite app_nil_r.
    split; [reflexivity |]. split; [constructor | lia].
  - simpl.
    destruct (QFS_LoadPK3File_entry packfile pk3 i buf) as [[buf' o] | | |] eqn:He;
      try discriminate.
    cbn. intros Hloop.
    destruct (IH _ _ _ Hloop) as (added & -> & Hall & Hcov).
    exists (match o with Some e => [e] | None => [] end ++ added).
    split; [rewrite app_assoc; reflexivity |]. split.
    + apply Forall_app. split.
      * destruct o as [e |]; [| constructor].
        constructor; [| constructor]. exists i, buf, buf'. split; [lia | exact He].
      * eapply Forall_impl; [exact Hall |].
        intros e (j & b & b' & Hj & Hjb). exists j, b, b'. split; [lia | exact Hjb].
    + intros j Hj. destruct (Z.eq_dec j i) as [-> | Hne].
      * exists buf, buf', o. split; [exact He |].
        intros e ->. apply elem_of_app. left. apply list_elem_of_singleton.
        reflexivity.
      * destruct (Hcov j ltac:(lia)) as (b & b' & o' & Hjb & Hin).
        exists b, b', o'. split; [exact Hjb |].
        intros e Ho. apply elem_of_app. right. exact (Hin e Ho).
Qed.

(** The loop comes to its end when every round does, whatever the name
    buffer holds. *)
Lemma QFS_LoadPK3File_loop_returns (packfile : string) (pk3 : mz_zip_archive)
    (n : nat) (i : Z) (buf : list byte) (newfiles : list packfile_t) :
  (forall j b, i <= j < i + Z.of_nat n ->
     exists b' o, QFS_LoadPK3File_entry packfile pk3 j b = Ok (b', o)) ->
  exists files, QFS_LoadPK3File_loop packfile pk3 n i buf newfiles = Ok files.
Proof.
  revert i buf newfiles. induction n as [| n IH]; intros i buf newfiles Hall.
  - eexists. reflexivity.
  - simpl. destruct (Hall i buf ltac:(lia)) as (b' & o & He).
    rewrite He. cbn. apply IH. intros j b Hj. apply Hall. lia.
Qed.

(** C7.  What [QFS_LoadPK3File] stores, for an archive that it can open.
    The name of an entry counts as a C string: the raw name up to its
    first NUL byte, all of it when it has none.

    When the loader returns the id of a pack, that pack is in the table
    under the id and holds, for every entry of the central directory that
    is a file, an entry with the position and the size of that file whose
    name is the transcoding of the name from IBM437 to UTF-8 when bit 11
    of the flags is clear and the name holds a byte of 0x80 or more, and
    the name itself when bit 11 is set; for a raw name without a NUL byte
    the name is the raw name.

    The loader returns when the directory has an entry for every index
    and every file in it has an admissible size and a name that fits, and
    the id is not 0 unless the table is full; a name that does not fit is
    fatal. *)
Theorem QFS_LoadPK3File_stored_names (disk : filesystem) (packfile : string)
    (st : qfs_state) (f : FILE) (pk3 : mz_zip_archive) :
  MAX_QPATH <= MZ_ZIP_MAX_ARCHIVE_FILENAME_SIZE ->
  fopen disk packfile = Some f ->
  mz_zip_reader_init f (to_size_t (Sys_filelength f)) = Some pk3 ->
  let bit11_clear stj := Z.land (m_bit_flag stj) (Z.shiftl 1 11) = 0 in
  let high_byte stj :=
    Exists (fun b => (128 <= Byte.to_N b)%N) (cstr (m_filename stj)) in
  let fits stj :=
    (bit11_clear stj -> high_byte stj ->
     Z.of_nat (length (utf8_of_ibm437 (cstr (m_filename stj)))) + 1
     < MAX_QPATH)
    /\ (~ (bit11_clear stj /\ high_byte stj) ->
        Z.of_nat (length (m_filename stj)) + 1 < MAX_QPATH) in
  (forall id st',
     QFS_LoadPK3File disk packfile st = Ok (id, st') -> id <> 0 ->
     exists pak stored unused,
       packs st' !! Z.to_nat id = Some (Some pak)
       /\ files pak = Some (stored ++ unused)
       /\ numfiles pak = Z.of_nat (length stored)
       /\ forall j stj,
            0 <= j < m_total_files pk3 ->
            mz_zip_reader_file_stat pk3 j = Some stj ->
            m_is_directory stj = false ->
            exists e,
              e ∈ stored
              /\ filepos e = to_int (m_file_index stj)
              /\ filelen e = to_int (m_uncomp_size stj)
              /\ (bit11_clear stj -> high_byte stj ->
                  name e = utf8_of_ibm437 (cstr (m_filename stj)))
              /\ (~ bit11_clear stj -> name e = cstr (m_filename stj))
              /\ (Forall (fun b => b <> x00) (m_filename stj) ->
                  cstr (m_filename stj) = m_filename stj)
              /\ fits stj)
  /\ (0 < m_total_files pk3 ->
      (forall j, 0 <= j < m_total_files pk3 ->
         exists stj,
           mz_zip_reader_file_stat pk3 j = Some stj
           /\ (m_is_directory stj = false ->
               m_uncomp_size stj <= INT_MAX /\ fits stj)) ->
      exists id st',
        QFS_LoadPK3File disk packfile st = Ok (id, st')
        /\ (id = 0 ->
            forall k, (1 <= k <= 32)%nat -> packs st !! k <> Some None))
  /\ (forall j stj,
        0 <= j < m_total_files pk3 ->
        mz_zip_reader_file_stat pk3 j = Some stj ->
        m_is_directory stj = false -> m_uncomp_size stj <= INT_MAX ->
        ~ fits stj ->
        forall id st', QFS_LoadPK3File disk packfile st <> Ok (id, st')).
Proof.
  intros Hmax Hopen Hinit bit11_clear high_byte fits.
  (* the choice the code makes, in the words of the statement *)
  assert (Hchoice : forall stj,
            let transcoded :=
              (Z.land (m_bit_flag stj) (Z.shiftl 1 11) =? 0)
              && negb (forallb (fun b => (Byte.to_N b <? 128)%N)
                         (cstr (m_filename stj))) in
            (transcoded = true <-> bit11_clear stj /\ high_byte stj)).
  { intros stj transcoded. subst transcoded bit11_clear high_byte. cbv beta.
    rewrite andb_true_iff, negb_true_iff, Z.eqb_eq.
    split; intros [Hbit Hhigh]; (split; [exact Hbit |]).
    - apply forallb_ascii_false_inv. exact Hhigh.
    - apply forallb_ascii_false. exact Hhigh. }
  assert (Hfits : forall stj,
            let transcoded :=
              (Z.land (m_bit_flag stj) (Z.shiftl 1 11) =? 0)
              && negb (forallb (fun b => (Byte.to_N b <? 128)%N)
                         (cstr (m_filename stj))) in
            (if transcoded
             then Z.of_nat (length (utf8_of_ibm437 (cstr (m_filename stj)))) + 1
                  < MAX_QPATH
             else Z.of_nat (length (m_filename stj)) + 1 < MAX_QPATH)
            <-> fits stj).
  { intros stj transcoded. pose proof (Hchoice stj) as Hc. cbv zeta in Hc.
    fold transcoded in Hc. subst fits. cbv beta.
    destruct transcoded.
    - destruct (proj1 Hc eq_refl) as [Hbit Hhigh]. split.
      + intros Hlen. split; [intros _ _; exact Hlen |].
        intros Hno. exfalso. apply Hno. split; assumption.
      + intros [Hlen _]. apply Hlen; assumption.
    - assert (Hno : ~ (bit11_clear stj /\ high_byte stj)).
      { intros Hboth. apply Hc in Hboth. discriminate. }
      split.
      + intros Hlen. split; [| intros _; exact Hlen].
        intros Hbit Hhigh. exfalso. apply Hno. split; assumption.
      + intros [_ Hlen]. apply Hlen. exact Hno. }
  unfold QFS_LoadPK3File. rewrite Hopen, Hinit.
  split; [| split].
  - (* what a registered pack holds *)
    intros id st'.
    destruct (m_total_files pk3 =? 0).
    { intros [= <- _] Hid. contradiction. }
    destruct (QFS_LoadPK3File_loop packfile pk3 _ 0 [] []) as [newfiles | | |]
      eqn:Hloop; try discriminate.
    cbn. intros [= Hreg] Hid.
    destruct (QFS_RegisterPack_first_free _ _ _ _ Hreg)
      as [(_ & _ & _ & Hslot & _) | (H0 & _)]; [| contradiction].
    destruct (QFS_LoadPK3File_loop_entries _ _ _ _ _ _ _ Hloop)
      as (added & Hfiles & _ & Hcov).
    simpl in Hfiles. subst added.
    eexists _, newfiles, _.
    split; [exact Hslot |]. split; [reflexivity |]. split; [reflexivity |].
    intros j stj Hj Hstj Hdir.
    destruct (Hcov j ltac:(lia)) as (b & b' & o & Hjb & Hin).
    assert (Hsize : m_uncomp_size stj <= INT_MAX).
    { unfold QFS_LoadPK3File_entry in Hjb. rewrite Hstj, Hdir in Hjb.
      cbn [negb] in Hjb.
      destruct (Z.gtb_spec (m_uncomp_size stj) INT_MAX); [discriminate | lia]. }
    destruct (QFS_LoadPK3File_entry_stored packfile pk3 j b stj
                Hmax Hstj Hdir Hsize) as (Honly & _ & _).
    destruct (Honly _ _ Hjb) as [-> Hfit].
    apply Hfits in Hfit.
    eexists. split; [apply Hin; reflexivity |].
    cbn [filepos filelen name].
    split; [reflexivity |]. split; [reflexivity |].
    pose proof (Hchoice stj) as Hc. cbv zeta in Hc.
    split; [| split; [| split; [apply cstr_of_nul_free | exact Hfit]]].
    + intros Hbit Hhigh. rewrite (proj2 Hc (conj Hbit Hhigh)). reflexivity.
    + intros Hset.
      destruct ((Z.land (m_bit_flag stj) (Z.shiftl 1 11) =? 0)
                && negb (forallb (fun b0 => (Byte.to_N b0 <? 128)%N)
                           (cstr (m_filename stj)))) eqn:Ht; [| reflexivity].
      exfalso. apply Hset. exact (proj1 (proj1 Hc eq_refl)).
  - (* the loader returns *)
    intros Hsome Hall.
    destruct (Z.eqb_spec (m_total_files pk3) 0) as [| _]; [lia |].
    destruct (QFS_LoadPK3File_loop_returns packfile pk3
                (Z.to_nat (m_total_files pk3)) 0 [] []) as (newfiles & Hloop).
    { intros j b Hj. destruct (Hall j ltac:(lia)) as (stj & Hstj & Hfile).
      destruct (m_is_directory stj) eqn:Hdir.
      - do 2 eexists.
        exact (QFS_LoadPK3File_entry_directory _ _ _ _ _ Hstj Hdir).
      - destruct (Hfile eq_refl) as [Hsize Hfit].
        destruct (QFS_LoadPK3File_entry_stored packfile pk3 j b stj
                    Hmax Hstj Hdir Hsize) as (_ & Hstored & _).
        destruct (Hstored (proj2 (Hfits stj) Hfit)) as (b' & Hb').
        do 2 eexists. exact Hb'. }
    rewrite Hloop. cbn [mbind result_bind].
    destruct (QFS_RegisterPack _ st) as [id st'] eqn:Hreg.
    exists id, st'. split; [reflexivity |].
    intros ->.
    destruct (QFS_RegisterPack_first_free _ _ _ _ Hreg)
      as [(Hid & _) | (_ & Hfull & _)]; [lia | exact Hfull].
  - (* a name that does not fit *)
    intros j stj Hj Hstj Hdir Hsize Hnofit id st'.
    destruct (m_total_files pk3 =? 0) eqn:Hzero.
    { apply Z.eqb_eq in Hzero. lia. }
    destruct (QFS_LoadPK3File_loop packfile pk3 _ 0 [] []) as [newfiles | | |]
      eqn:Hloop; try discriminate.
    exfalso.
    destruct (QFS_LoadPK3File_loop_entries _ _ _ _ _ _ _ Hloop)
      as (added & _ & _ & Hcov).
    destruct (Hcov j ltac:(lia)) as (b & b' & o & Hjb & _).
    destruct (QFS_LoadPK3File_entry_stored packfile pk3 j b stj
                Hmax Hstj Hdir Hsize) as (Honly & _ & _).
    destruct (Honly _ _ Hjb) as [_ Hfit].
    apply Hnofit, Hfits, Hfit.
Qed.

End Pk3Names.

(** C7, the counterexample.  The one entry of [nul_name_pk3] has bit 11
    clear and the raw name 0x82, NUL, "a", which holds a byte of 0x80 or
    more.  The loader stores it under 0xC3 0xA9, the transcoding of the
    name up to the NUL, and not under the transcoding of the raw bytes,
    which is 0xC3 0xA9, NUL, "a". *)
Lemma QFS_LoadPK3File_name_cut_at_nul :
  exists st pak stj e,
    QFS_LoadPK3File (miniz := nul_name_miniz) nul_name_disk "id1/nul.pk3"
      state_empty = Ok (1, st)
    /\ packs st !! 1%nat = Some (Some pak)
    /\ mz_zip_reader_file_stat nul_name_pk3_dir 0 = Some stj
    /\ m_is_directory stj = false
    /\ Z.land (m_bit_flag stj) (Z.shiftl 1 11) = 0
    /\ Exists (fun b => (128 <= Byte.to_N b)%N) (m_filename stj)
    /\ files pak = Some [e]
    /\ name e = [xc3; xa9]
    /\ utf8_of_ibm437 (m_filename stj) = [xc3; xa9; x00; x61]
    /\ name e <> utf8_of_ibm437 (m_filename stj).
Proof.
  do 4 eexists.
  split; [vm_compute; reflexivity |].
  split; [reflexivity |].
  split; [reflexivity |].
  split; [reflexivity |].
  split; [reflexivity |].
  split; [constructor; vm_compute; discriminate |].
  split; [reflexivity |].
  split; [reflexivity |].
  split; [reflexivity |].
  discriminate.
Qed.

(** The witness of C7: [demo_pk3] on an empty table.  It is registered
    under id 1; its third entry, the raw name 0x82 ".txt" with bit 11
    clear, is stored as 0xC3 0xA9 ".txt", and its fourth, the raw name
    0xC3 0xA9 "2.txt" with bit 11 set, as it is. *)
Lemma QFS_LoadPK3File_stored_names_witness :
  exists st pak stored unused e3 e4,
    QFS_LoadPK3File (miniz := literal_inflater) demo_disk "id1/demo.PK3"
      state_empty = Ok (1, st)
    /\ packs st !! 1%nat = Some (Some pak)
    /\ files pak = Some (stored ++ unused)
    /\ e3 ∈ stored /\ name e3 = xc3 :: xa9 :: bytes_of_string ".txt"
    /\ e4 ∈ stored /\ name e4 = xc3 :: xa9 :: bytes_of_string "2.txt".
Proof.
  destruct (QFS_LoadPK3File_stored_names (miniz := literal_inflater) demo_disk
              "id1/demo.PK3" state_empty (mkFILE demo_pk3 0) demo_pk3_dir
              ltac:(vm_compute; discriminate) eq_refl
              ltac:(vm_compute; reflexivity)) as (Hholds & Hreturns & _).
  destruct (Hreturns ltac:(vm_compute; reflexivity)) as (id & st & Hload & _).
  { intros j Hj.
    assert (Hcases : j = 0 \/ j = 1 \/ j = 2 \/ j = 3)
      by (change (m_total_files demo_pk3_dir) with 4 in Hj; lia).
    destruct Hcases as [-> | [-> | [-> | ->]]];
      (eexists; split; [reflexivity |]; intros _;
       split; [vm_compute; discriminate |];
       split; [intros _ _; vm_compute; reflexivity
              | intros _; vm_compute; reflexivity]). }
  assert (Hid : id = 1).
  { revert Hload. vm_compute. intros [= <- _]. reflexivity. }
  subst id.
  destruct (Hholds 1 st Hload ltac:(discriminate))
    as (pak & stored & unused & Hslot & Hfiles & _ & Hnames).
  destruct (Hnames 2 (mk_stat 2 84 4 4 0 0 false true
                        (x82 :: bytes_of_string ".txt"))
              ltac:(vm_compute; split; [discriminate | reflexivity])
              eq_refl eq_refl)
    as (e3 & He3 & _ & _ & Hname3 & _).
  destruct (Hnames 3 (mk_stat 3 123 4 4 0 (Z.shiftl 1 11) false true
                        (xc3 :: xa9 :: bytes_of_string "2.txt"))
              ltac:(vm_compute; split; [discriminate | reflexivity])
              eq_refl eq_refl)
    as (e4 & He4 & _ & _ & _ & Hname4 & _).
  exists st, pak, stored, unused, e3, e4.
  split; [exact Hload |]. split; [exact Hslot |]. split; [exact Hfiles |].
  split; [exact He3 |].
  split; [apply Hname3; [reflexivity | constructor; vm_compute; discriminate] |].
  split; [exact He4 |].
  apply Hname4. vm_compute. discriminate.
Defined.

(** The whole loader on [demo_pk3]: the names of the pack it registers. *)
Example QFS_LoadPackFile_demo_names :
  exists st pak,
    QFS_LoadPackFile (miniz := literal_inflater) demo_disk "id1/demo.PK3"
      state_empty = Ok (1, st)
    /\ QFS_GetPack 1 false st = (Some pak, st)
    /\ (map name <$> files pak)
       = Some [bytes_of_string "d.txt"; bytes_of_string "short.txt";
               xc3 :: xa9 :: bytes_of_string ".txt";
               xc3 :: xa9 :: bytes_of_string "2.txt"].
Proof.
  do 2 eexists. split; [vm_compute; reflexivity |].
  split; vm_compute; reflexivity.
Qed.

(** * Further properties of the code

    ** The pack table *)

Lemma QFS_GetPack_lookup (st : qfs_state) (id : Z) :
  0 < id < 32 ->
  QFS_GetPack id false st = (mjoin (packs st !! Z.to_nat id), st).
Proof.
  intros Hid. unfold QFS_GetPack, MAX_PACK_FILES.
  destruct (Z.ltb_spec 0 id); [| lia].
  destruct (Z.ltb_spec id 32); [| lia]. reflexivity.
Qed.

(** X1.  When one of the slots 1..31 of the pack table is free,
    [QFS_RegisterPack] returns the lowest free index: an id in 1..31
    whose slot held NULL, every slot below it being taken; nothing is
    released or printed; looking that id up afterwards gives the pack
    registered, with its name and its number of files, and every other
    slot of the table is as before. *)
Theorem QFS_RegisterPack_then_lookup (pack : pack_t) (st : qfs_state) (j : nat) :
  (1 <= j <= 31)%nat ->
  packs st !! j = Some None ->
  let id := fst (QFS_RegisterPack pack st) in
  let st' := snd (QFS_RegisterPack pack st) in
  1 <= id <= Z.of_nat j
  /\ packs st !! Z.to_nat id = Some None
  /\ (forall k, (1 <= k < Z.to_nat id)%nat -> packs st !! k <> Some None)
  /\ QFS_GetPack id false st' = (Some pack, st')
  /\ QFS_PackInfoName id st' = Some (filename pack)
  /\ QFS_PackInfoNumFiles id st' = numfiles pack
  /\ (forall k, k <> Z.to_nat id -> packs st' !! k = packs st !! k)
  /\ released st' = released st /\ console st' = console st.
Proof.
  intros Hj Hfree id st'.
  destruct (QFS_RegisterPack pack st) as [id0 st0] eqn:Hreg.
  subst id st'. cbn [fst snd].
  pose proof (QFS_RegisterPack_first_free _ _ _ _ Hreg) as Hff.
  destruct Hff as [(Hid & Hwas & Hbefore & Hnow & Hrel & Hcon)
                  | (_ & Hfull & _)].
  2: { exfalso. apply (Hfull j); [lia | exact Hfree]. }
  assert (Hle : id0 <= Z.of_nat j).
  { destruct (Z.le_gt_cases id0 (Z.of_nat j)) as [Hle | Hgt]; [exact Hle |].
    exfalso. apply (Hbefore j); [lia | exact Hfree]. }
  assert (Hget : QFS_GetPack id0 false st0 = (Some pack, st0)).
  { rewrite QFS_GetPack_lookup by lia. rewrite Hnow. reflexivity. }
  split; [lia |]. split; [exact Hwas |]. split; [exact Hbefore |].
  split; [exact Hget |].
  split; [unfold QFS_PackInfoName; rewrite Hget; reflexivity |].
  split; [unfold QFS_PackInfoNumFiles; rewrite Hget; reflexivity |].
  split; [| split; assumption].
  intros k Hk. revert Hreg. unfold QFS_RegisterPack.
  destruct (QFS_RegisterPack_scan _ 1 (packs st)) as [i |].
  - intros [= <- <-]. cbn. rewrite Nat2Z.id in Hk.
    apply list_lookup_insert_ne. congruence.
  - intros [= <- <-]. reflexivity.
Qed.

Lemma QFS_RegisterPack_then_lookup_witness :
  QFS_PackInfoNumFiles (fst (QFS_RegisterPack empty_pak state_empty))
    (snd (QFS_RegisterPack empty_pak state_empty)) = 3.
Proof.
  exact (proj1 (proj2 (proj2 (proj2 (proj2 (proj2
           (QFS_RegisterPack_then_lookup empty_pak state_empty 1
              ltac:(lia) eq_refl))))))).
Defined.

(** X2.  [QFS_FreePack] on a registered id in 1..31 releases that pack and
    no other, empties its slot and leaves the other slots alone: the id is
    no longer found, and the next registration gets an id not above it.
    On an id outside 1..31 it changes nothing, whatever the table holds. *)
Theorem QFS_FreePack_frees (st : qfs_state) (id : Z) (q p : pack_t) :
  0 < id < 32 ->
  packs st !! Z.to_nat id = Some (Some q) ->
  let st' := QFS_FreePack id st in
  QFS_GetPack id false st' = (None, st')
  /\ QFS_PackInfoName id st' = None
  /\ released st' = released st ++ [res_pack q]
  /\ (forall k, k <> Z.to_nat id -> packs st' !! k = packs st !! k)
  /\ 1 <= fst (QFS_RegisterPack p st') <= id
  /\ forall id', id' <= 0 \/ 32 <= id' -> QFS_FreePack id' st = st.
Proof.
  intros Hid Hq st'.
  assert (Hst' : st' = mk_state (<[Z.to_nat id := None]> (packs st))
                         (released st ++ [res_pack q]) (console st)).
  { subst st'. unfold QFS_FreePack, QFS_GetPack, MAX_PACK_FILES.
    destruct (Z.ltb_spec 0 id); [| lia].
    destruct (Z.ltb_spec id 32); [| lia]. cbn. rewrite Hq. reflexivity. }
  assert (Hslot : packs st' !! Z.to_nat id = Some None).
  { rewrite Hst'. cbn. apply list_lookup_insert_eq.
    apply lookup_lt_Some in Hq. exact Hq. }
  assert (Hget : QFS_GetPack id false st' = (None, st')).
  { rewrite QFS_GetPack_lookup by lia. rewrite Hslot. reflexivity. }
  split; [exact Hget |].
  split; [unfold QFS_PackInfoName; rewrite Hget; reflexivity |].
  split; [rewrite Hst'; reflexivity |].
  split.
  { intros k Hk. rewrite Hst'. cbn. apply list_lookup_insert_ne. congruence. }
  split.
  { destruct (QFS_RegisterPack p st') as [id1 st1] eqn:Hreg. cbn [fst].
    destruct (QFS_RegisterPack_first_free _ _ _ _ Hreg)
      as [(Hid1 & _ & Hbefore & _) | (_ & Hfull & _)].
    - split; [lia |].
      destruct (Z.le_gt_cases id1 id) as [Hle | Hgt]; [exact Hle |].
      exfalso. apply (Hbefore (Z.to_nat id)); [lia | exact Hslot].
    - exfalso. apply (Hfull (Z.to_nat id)); [lia | exact Hslot]. }
  intros id' Hout. unfold QFS_FreePack, QFS_GetPack, MAX_PACK_FILES.
  destruct ((0 <? id') && (id' <? 32)) eqn:Hin.
  { apply andb_true_iff in Hin. destruct Hin as [H1 H2].
    apply Z.ltb_lt in H1, H2. lia. }
  destruct st as [tbl rel con]. cbn. rewrite app_nil_r. reflexivity.
Qed.

Lemma QFS_FreePack_frees_witness :
  released (QFS_FreePack 1 (snd (QFS_RegisterPack empty_pak state_empty)))
  = [res_pack empty_pak].
Proof.
  exact (proj1 (proj2 (proj2
           (QFS_FreePack_frees (snd (QFS_RegisterPack empty_pak state_empty))
              1 empty_pak empty_pak ltac:(lia) eq_refl)))).
Defined.

Lemma QFS_Shutdown_loop_spec (n i : nat) (st : qfs_state) :
  (i + n <= length (packs st))%nat ->
  let st' := QFS_Shutdown_loop n i st in
  packs st' = take i (packs st) ++ replicate n None ++ drop (i + n) (packs st)
  /\ released st' =
       released st
       ++ omap (fun o => res_pack <$> o) (take n (drop i (packs st)))
  /\ console st' = console st.
Proof.
  revert i st. induction n as [| n IH]; intros i st Hlen; cbn zeta.
  - cbn. rewrite Nat.add_0_r, take_drop, app_nil_r. auto.
  - cbn [QFS_Shutdown_loop].
    destruct (packs st !! i) as [o |] eqn:Hi.
    2: { apply lookup_ge_None in Hi. lia. }
    set (st1 := match mjoin (Some o) with
                | Some pack =>
                    mk_state (<[i := None]> (packs st))
                      (released st ++ QFS_FreePackHandle (Some pack)) (console st)
                | None => st
                end).
    assert (H1 : packs st1 = <[i := None]> (packs st)
                 /\ released st1 = released st ++ omap (fun o => res_pack <$> o) [o]
                 /\ console st1 = console st).
    { subst st1. destruct o as [pk |]; cbn.
      - auto.
      - rewrite app_nil_r. split; [| auto].
        symmetry. apply list_insert_id. exact Hi. }
    destruct H1 as (Hp1 & Hr1 & Hc1).
    specialize (IH (S i) st1).
    rewrite Hp1, length_insert in IH. specialize (IH ltac:(lia)).
    cbn zeta in IH. destruct IH as (Hp & Hr & Hc).
    split; [| split].
    + rewrite Hp.
      rewrite take_insert_lt by lia.
      rewrite drop_insert_lt by lia.
      rewrite (take_S_r _ _ _ Hi).
      rewrite insert_app_r_alt by (rewrite length_take; lia).
      rewrite length_take, Nat.min_l by lia. rewrite Nat.sub_diag.
      cbn. rewrite <- app_assoc. cbn.
      replace (S (i + n)) with (i + S n)%nat by lia. reflexivity.
    + rewrite Hr, Hr1, <- app_assoc. f_equal.
      rewrite drop_insert_lt by lia.
      rewrite (drop_S _ _ _ Hi). cbn [take].
      change (o :: take n (drop (S i) (packs st)))
        with ([o] ++ take n (drop (S i) (packs st))).
      rewrite omap_app. reflexivity.
    + rewrite Hc. exact Hc1.
Qed.

(** X3.  [QFS_Shutdown] leaves every slot 1..32 of the table NULL, slot 32
    included, and releases each pack that was registered, once and in the
    order of the slots; nothing is printed.  Afterwards no id is found and
    the next registration gets id 1. *)
Theorem QFS_Shutdown_empties (st : qfs_state) (p : pack_t) :
  Z.of_nat (length (packs st)) = countof_packs ->
  let st' := QFS_Shutdown st in
  packs st' = take 1 (packs st) ++ replicate 32 None
  /\ released st' =
       released st ++ omap (fun o => res_pack <$> o) (drop 1 (packs st))
  /\ console st' = console st
  /\ (forall id, fst (QFS_GetPack id false st') = None)
  /\ fst (QFS_RegisterPack p st') = 1.
Proof.
  intros Hlen st'. unfold countof_packs, MAX_PACK_FILES in Hlen.
  assert (Hlen' : length (packs st) = 33%nat) by lia.
  assert (Hst' : st' = QFS_Shutdown_loop 32 1 st) by reflexivity.
  destruct (QFS_Shutdown_loop_spec 32 1 st ltac:(lia)) as (Hp & Hr & Hc).
  rewrite <- Hst' in Hp, Hr, Hc. clearbody st'.
  rewrite (drop_ge (packs st) (1 + 32)) in Hp by lia.
  rewrite app_nil_r in Hp.
  rewrite (take_ge (drop 1 (packs st))) in Hr by (rewrite length_drop; lia).
  split; [exact Hp |]. split; [exact Hr |]. split; [exact Hc |].
  assert (Hslot : forall k, (1 <= k <= 32)%nat -> packs st' !! k = Some None).
  { intros k Hk. rewrite Hp.
    rewrite lookup_app_r by (rewrite length_take; lia).
    rewrite length_take, Nat.min_l by lia.
    apply lookup_replicate_2. lia. }
  split.
  - intros id. unfold QFS_GetPack, MAX_PACK_FILES.
    destruct ((0 <? id) && (id <? 32)) eqn:Hin; [| reflexivity].
    apply andb_true_iff in Hin. destruct Hin as [H1 H2].
    apply Z.ltb_lt in H1, H2. cbn [fst].
    rewrite Hslot by lia. reflexivity.
  - destruct (QFS_RegisterPack p st') as [id1 st1] eqn:Hreg. cbn [fst].
    destruct (QFS_RegisterPack_first_free _ _ _ _ Hreg)
      as [(Hid1 & _ & Hbefore & _) | (_ & Hfull & _)].
    + destruct (Z.eq_dec id1 1) as [-> | Hne]; [reflexivity |].
      exfalso. apply (Hbefore 1%nat); [lia | apply Hslot; lia].
    + exfalso. apply (Hfull 1%nat); [lia | apply Hslot; lia].
Qed.

Lemma QFS_Shutdown_empties_witness :
  released (QFS_Shutdown (snd (QFS_RegisterPack empty_pak state_empty)))
  = [res_pack empty_pak].
Proof.
  exact (proj1 (proj2
           (QFS_Shutdown_empties (snd (QFS_RegisterPack empty_pak state_empty))
              empty_pak eq_refl))).
Defined.

(** ** Reads through the back ends *)

Section BackEndReads.
Context `{miniz : Miniz}.

Lemma q_min_bounds (a b : Z) : 0 <= a -> 0 <= b -> 0 <= q_min a b <= b.
Proof. intros Ha Hb. unfold q_min. destruct (Z.ltb_spec a b); lia. Qed.

Lemma to_size_t_nonneg (z : Z) : 0 <= to_size_t z.
Proof.
  unfold to_size_t. pose proof (Z.mod_pos_bound z (2 ^ 64) ltac:(lia)). lia.
Qed.

(** One round of the copy of [ZIP_Read]: the count stays within the size
    asked, the position moves by what is counted, and no more bytes are
    handed out than are counted. *)
Lemma ZIP_Read_copy_count (copy_out : bool) (sz : Z) (s s1 : zip_read_state)
    (returns : bool) :
  0 <= zr_rd s <= sz -> sz < 2 ^ 64 ->
  ZIP_Read_copy copy_out sz s = (s1, returns) ->
  zr_rd s <= zr_rd s1 <= sz
  /\ Z.of_nat (length (zr_out s1)) - zr_rd s1
     <= Z.of_nat (length (zr_out s)) - zr_rd s
  /\ (- 2 ^ 63 <= zr_offs s -> zr_offs s + (sz - zr_rd s) < 2 ^ 63 ->
      zr_offs s1 = zr_offs s + (zr_rd s1 - zr_rd s)).
Proof.
  intros Hrd Hsz. unfold ZIP_Read_copy.
  destruct ((p_out (zr_p s) >=? bsz_out (zr_p s)) || eof_flag (zr_p s)).
  2: { intros [= <- _]. repeat split; lia. }
  set (ncpy := q_min (to_size_t (p_out (zr_p s) - out_read_ptr (zr_p s)))
                 (to_size_t (sz - zr_rd s))).
  assert (Hn : 0 <= ncpy <= sz - zr_rd s).
  { subst ncpy. rewrite (to_size_t_small (sz - zr_rd s)) by lia.
    apply q_min_bounds; [apply to_size_t_nonneg | lia]. }
  destruct (to_size_t (out_read_ptr (zr_p s) + ncpy) >=? p_out (zr_p s));
    intros [= <- _]; cbn [zr_rd zr_offs zr_out];
    rewrite (to_size_t_small (zr_rd s + ncpy)) by lia;
    (split; [lia |]);
    (split; [destruct copy_out; [rewrite length_app, length_take |]; lia |]);
    intros Hlo Hhi; rewrite (to_qfileofs_t_small (zr_offs s + ncpy)) by lia;
    lia.
Qed.

Lemma ZIP_Read_refill_count (pack : pack_t) (pak_offset : Z)
    (s s' : zip_read_state) :
  ZIP_Read_refill pack pak_offset s = Ok s' ->
  zr_rd s' = zr_rd s /\ zr_offs s' = zr_offs s /\ zr_out s' = zr_out s.
Proof.
  unfold ZIP_Read_refill.
  destruct (p_in (zr_p s) >=? readsz_in (zr_p s)).
  2: { intros [= <-]. auto. }
  destruct (pack_impl_data pack); [| discriminate].
  destruct (ZIP_LowLevelRead _ _ _) as [[got f] | | |]; try discriminate.
  cbn. destruct (negb _); [discriminate |]. intros [= <-]. auto.
Qed.

Lemma ZIP_Read_inflate_count (pack : pack_t) (s s' : zip_read_state) :
  ZIP_Read_inflate pack s = Ok s' ->
  zr_rd s' = zr_rd s /\ zr_offs s' = zr_offs s /\ zr_out s' = zr_out s.
Proof.
  unfold ZIP_Read_inflate.
  destruct (tinfl_decompress _ _ _ _ _ _) as [[[status szin] produced] infl'].
  destruct (status <? TINFL_STATUS_DONE); [discriminate |].
  intros [= <-]. auto.
Qed.

Lemma ZIP_Read_loop_count (fuel : nat) (pack : pack_t) (pak_offset : Z)
    (copy_out : bool) (sz : Z) (s s' : zip_read_state) :
  0 <= zr_rd s <= sz -> sz < 2 ^ 64 ->
  ZIP_Read_loop fuel pack pak_offset copy_out sz s = Ok s' ->
  zr_rd s <= zr_rd s' <= sz
  /\ Z.of_nat (length (zr_out s')) - zr_rd s'
     <= Z.of_nat (length (zr_out s)) - zr_rd s
  /\ (- 2 ^ 63 <= zr_offs s -> zr_offs s + (sz - zr_rd s) < 2 ^ 63 ->
      zr_offs s' = zr_offs s + (zr_rd s' - zr_rd s)).
Proof.
  revert s. induction fuel as [| fuel IH]; intros s Hrd Hsz; [discriminate |].
  cbn [ZIP_Read_loop].
  destruct (ZIP_Read_copy copy_out sz s) as [s1 returns] eqn:Hcopy.
  destruct (ZIP_Read_copy_count _ _ _ _ _ Hrd Hsz Hcopy)
    as (Hrd1 & Hout1 & Hoffs1).
  destruct returns.
  { intros [= <-]. auto. }
  destruct (ZIP_Read_refill pack pak_offset s1) as [s2 | | |] eqn:Hrefill;
    try discriminate.
  destruct (ZIP_Read_refill_count _ _ _ _ Hrefill) as (Hrd2 & Hoffs2 & Hout2).
  cbn. destruct (ZIP_Read_inflate pack s2) as [s3 | | |] eqn:Hinfl;
    try discriminate.
  destruct (ZIP_Read_inflate_count _ _ _ Hinfl) as (Hrd3 & Hoffs3 & Hout3).
  cbn. intros Hloop.
  destruct (IH s3 ltac:(lia) Hsz Hloop) as (Hrd' & Hout' & Hoffs').
  rewrite Hout3, Hout2 in Hout'.
  split; [lia |]. split; [lia |].
  intros Hlo Hhi. specialize (Hoffs1 Hlo Hhi).
  rewrite Hoffs' by lia. lia.
Qed.

(** No back end puts more bytes into the buffer than it counts. *)
Lemma call_read_length (fuel : nat) (h h' : qfshandle_t) (sz n : Z)
    (got : list byte) :
  0 <= sz < 2 ^ 64 ->
  call_read fuel h sz = Ok (n, got, h') ->
  Z.of_nat (length got) <= n.
Proof.
  intros Hsz. unfold call_read. destruct (read h).
  - unfold FS_Read. destruct (QFS_CheckHandle (Some h)); try discriminate.
    cbn. destruct (data h) as [| f | pk]; try discriminate.
    intros [= <- <- _]. cbn. lia.
  - unfold PAK_Read. destruct (QFS_CheckHandle (Some h)); try discriminate.
    cbn. destruct (data h) as [| f | pk]; try discriminate.
    destruct (call_filesize h) as [fsz | | |]; try discriminate.
    cbn.
    set (sz' := if _ >? to_size_t fsz then _ else sz).
    assert (Hsz' : 0 <= sz').
    { subst sz'. destruct (_ >? _); [apply to_size_t_nonneg | lia]. }
    destruct (sz' >? 0).
    + destruct (Sys_fseek _ _) as [rc f]. destruct (rc =? 0).
      * intros [= <- <- _]. cbn. lia.
      * intros [= <- <- _]. cbn. lia.
    + intros [= <- <- _]. cbn. lia.
  - unfold ZIP_Read.
    destruct (impl_data h) as [p |]; [| discriminate].
    destruct (data h) as [| f | pk]; try discriminate.
    destruct (m_is_directory (stat p) || (m_uncomp_size (stat p) =? 0)
              || (sz =? 0)).
    { intros [= <- <- _]. cbn. lia. }
    destruct (ZIP_Read_loop fuel pk (pak_offset h) true sz _) as [s | | |] eqn:Hloop;
      try discriminate.
    cbn. intros [= <- <- _].
    apply ZIP_Read_loop_count in Hloop; [| cbn; lia ..].
    destruct Hloop as (Hrd & Hout & _). cbn in Hrd, Hout. lia.
Qed.

Lemma fread_length (n : Z) (f : FILE) :
  Z.of_nat (length (fst (fread n f))) <= Z.max 0 n.
Proof. unfold fread. cbn. rewrite length_take. lia. Qed.

(** X4.  A read through any of the three back ends, for a size asked that
    fits a signed 64-bit position and, on a PAK handle, a position inside
    the entry: the count returned lies between 0 and the size asked, no
    more bytes than that are put into the buffer, the position [offs] has
    advanced by exactly the count, and the trims are as before.  For the
    ZIP back end this holds with every inflater. *)
Theorem call_read_count (fuel : nat) (h h' : qfshandle_t) (sz n : Z)
    (got : list byte) :
  0 <= sz < 2 ^ 63 -> - 2 ^ 63 <= offs h -> offs h + sz < 2 ^ 63 ->
  (read h = PAK_Read_fn ->
   exists fsz, call_filesize h = Ok fsz
     /\ 0 <= offs h + start h <= fsz /\ fsz < 2 ^ 63
     /\ 0 <= pak_offset h + offs h + start h) ->
  call_read fuel h sz = Ok (n, got, h') ->
  0 <= n <= sz
  /\ Z.of_nat (length got) <= n
  /\ offs h' = offs h + n
  /\ start h' = start h /\ endtrim h' = endtrim h.
Proof.
  intros Hsz Hlo Hhi Hpak. unfold call_read.
  destruct (read h) eqn:Hread.
  - (* FS *)
    unfold FS_Read. destruct (QFS_CheckHandle (Some h)); try discriminate.
    cbn. destruct (data h) as [| f | pk]; try discriminate.
    pose proof (fread_length sz f) as Hlen.
    unfold fread in Hlen. cbn [fst] in Hlen.
    intros [= <- <- <-]. cbn.
    rewrite to_qfileofs_t_small by lia. repeat split; lia.
  - (* PAK *)
    destruct (Hpak eq_refl) as (fsz & Hfsz & Hofs & Hfsz' & Hseek).
    unfold PAK_Read. destruct (QFS_CheckHandle (Some h)); try discriminate.
    cbn. destruct (data h) as [| f | pk]; try discriminate.
    rewrite Hfsz. cbn.
    rewrite (to_size_t_small fsz) by lia.
    rewrite (to_size_t_small (offs h + start h)) by lia.
    rewrite (to_size_t_small (offs h + start h + sz)) by lia.
    set (sz' := if offs h + start h + sz >? fsz
                then to_size_t (fsz - (offs h + start h)) else sz).
    assert (Hsz' : 0 <= sz' <= sz).
    { subst sz'. destruct (Z.gtb_spec (offs h + start h + sz) fsz).
      - rewrite to_size_t_small by lia. lia.
      - lia. }
    destruct (Z.gtb_spec sz' 0) as [Hpos | Hzero].
    2: { intros [= <- <- <-]. cbn. repeat split; lia. }
    unfold Sys_fseek.
    destruct (Z.ltb_spec (pak_offset h + offs h + start h) 0); [lia |].
    cbn.
    pose proof (fread_length sz'
                  (mkFILE (f_bytes (pack_handle pk))
                     (pak_offset h + offs h + start h))) as Hlen.
    unfold fread in Hlen. cbn [fst f_pos f_bytes] in Hlen.
    intros [= <- <- <-]. cbn.
    rewrite to_qfileofs_t_small by lia. repeat split; lia.
  - (* ZIP *)
    unfold ZIP_Read.
    destruct (impl_data h) as [p |]; [| discriminate].
    destruct (data h) as [| f | pk]; try discriminate.
    destruct (m_is_directory (stat p) || (m_uncomp_size (stat p) =? 0)
              || (sz =? 0)).
    { intros [= <- <- <-]. cbn. repeat split; lia. }
    destruct (ZIP_Read_loop fuel pk (pak_offset h) true sz _) as [s | | |] eqn:Hloop;
      try discriminate.
    cbn. intros [= <- <- <-]. cbn.
    apply ZIP_Read_loop_count in Hloop; [| cbn; lia ..].
    destruct Hloop as (Hrd & Hout & Hoffs).
    cbn in Hrd, Hoffs, Hout. specialize (Hoffs ltac:(lia) ltac:(lia)).
    repeat split; lia.
Qed.

End BackEndReads.

(** ** What a read returns on a handle that was never trimmed *)

Section SliceReads.
Context `{miniz : Miniz}.

Lemma length_take_drop_Z (bytes : list byte) (k p : Z) :
  0 <= k -> 0 <= p -> p + k <= Z.of_nat (length bytes) ->
  Z.of_nat (length (take (Z.to_nat k) (drop (Z.to_nat p) bytes))) = k.
Proof. intros Hk Hp Hlen. rewrite length_take, length_drop. lia. Qed.

(** The read of the PAK back end, for a position inside the entry: the
    bytes are those of the pack file from [pak_offset + offs + start] on,
    as many as were asked for and never beyond the end of the entry. *)
Lemma PAK_Read_slice (h : qfshandle_t) (pk : pack_t) (e : packfile_t) (sz : Z) :
  data h = data_pack pk -> filesize h = PAK_FileSize_fn ->
  array_get (files pk) (fileno h) = Ok e ->
  0 <= offs h + start h <= filelen e -> filelen e < 2 ^ 63 ->
  0 <= sz < 2 ^ 63 -> - 2 ^ 63 <= offs h -> offs h + sz < 2 ^ 63 ->
  0 <= pak_offset h + offs h + start h ->
  let bytes :=
    take (Z.to_nat (Z.min sz (filelen e - (offs h + start h))))
      (drop (Z.to_nat (pak_offset h + offs h + start h))
         (f_bytes (pack_handle pk))) in
  exists f',
    f_bytes f' = f_bytes (pack_handle pk)
    /\ PAK_Read h sz =
         Ok (Z.of_nat (length bytes), bytes,
             set_offs (set_data h (data_pack (set_pack_handle pk f')))
               (offs h + Z.of_nat (length bytes))).
Proof.
  intros Hdata Hfs He Hofs Hlen Hsz Hlo Hhi Hseek bytes.
  assert (Hfsz : call_filesize h = Ok (filelen e)).
  { unfold call_filesize, PAK_FileSize. rewrite Hfs, Hdata, He. reflexivity. }
  unfold PAK_Read, QFS_CheckHandle. rewrite Hdata. cbn.
  rewrite Hfsz. cbn.
  rewrite (to_size_t_small (filelen e)) by lia.
  rewrite (to_size_t_small (offs h + start h)) by lia.
  rewrite (to_size_t_small (offs h + start h + sz)) by lia.
  set (sz' := if offs h + start h + sz >? filelen e
              then to_size_t (filelen e - (offs h + start h)) else sz).
  assert (Hsz' : sz' = Z.min sz (filelen e - (offs h + start h))).
  { subst sz'. destruct (Z.gtb_spec (offs h + start h + sz) (filelen e)).
    - rewrite to_size_t_small by lia. lia.
    - lia. }
  fold bytes. rewrite Hsz'.
  destruct (Z.gtb_spec (Z.min sz (filelen e - (offs h + start h))) 0)
    as [Hpos | Hzero].
  - unfold Sys_fseek.
    destruct (Z.ltb_spec (pak_offset h + offs h + start h) 0); [lia |].
    cbn. fold bytes.
    exists (mkFILE (f_bytes (pack_handle pk))
              (pak_offset h + offs h + start h + Z.of_nat (length bytes))).
    split; [reflexivity |].
    rewrite to_qfileofs_t_small; [reflexivity |].
    assert (Z.of_nat (length bytes) <= sz); [| lia].
    subst bytes. rewrite length_take. lia.
  - exists (pack_handle pk). split; [reflexivity |].
    assert (Hnil : bytes = []).
    { subst bytes.
      replace (Z.to_nat (Z.min sz (filelen e - (offs h + start h)))) with O
        by lia.
      reflexivity. }
    rewrite Hnil. cbn [length Z.of_nat].
    replace (Z.min sz (filelen e - (offs h + start h))) with 0 by lia.
    rewrite Z.add_0_r. do 3 f_equal.
    destruct h; cbn in *. subst. destruct pk; reflexivity.
Qed.

(** X5.  On a handle into a .pak (or to a stored entry of a .pk3) that
    was never trimmed, at a position inside the entry whose bytes all lie
    in the pack file, [QFS_ReadFile] returns the smaller of the size asked
    and the distance to the end of the entry; the bytes it gives are the
    bytes of the pack file at [pak_offset + offs], and the handle is the
    same open file with the position advanced by the count. *)
Theorem QFS_ReadFile_pak_entry (fuel : nat) (h : qfshandle_t) (pk : pack_t)
    (e : packfile_t) (size : Z) :
  data h = data_pack pk -> read h = PAK_Read_fn ->
  filesize h = PAK_FileSize_fn ->
  array_get (files pk) (fileno h) = Ok e ->
  start h = 0 -> endtrim h = 0 ->
  0 <= offs h <= filelen e -> filelen e < 2 ^ 31 ->
  0 <= size < 2 ^ 63 ->
  0 <= pak_offset h ->
  pak_offset h + filelen e <= Z.of_nat (length (f_bytes (pack_handle pk))) ->
  let k := Z.min size (filelen e - offs h) in
  exists f',
    f_bytes f' = f_bytes (pack_handle pk)
    /\ QFS_ReadFile fuel (Some h) size =
         Ok (k,
             take (Z.to_nat k)
               (drop (Z.to_nat (pak_offset h + offs h))
                  (f_bytes (pack_handle pk))),
             Some (set_offs (set_data h (data_pack (set_pack_handle pk f')))
                     (offs h + k))).
Proof.
  intros Hdata Hread Hfs He Hstart Hend Hofs Hlen Hsize Hpo Hin k.
  assert (Hfsz : call_filesize h = Ok (filelen e)).
  { unfold call_filesize, PAK_FileSize. rewrite Hfs, Hdata, He. reflexivity. }
  rewrite (QFS_ReadFile_size_passed fuel h size _ Hfsz).
  rewrite Hend, Z.sub_0_r, (to_qfileofs_t_small size) by lia.
  rewrite (to_size_t_small (filelen e)) by lia.
  set (size' := if offs h + size >? filelen e then filelen e else size).
  assert (Hsize' : 0 <= size' < 2 ^ 63 /\ offs h + size' < 2 ^ 63
                   /\ Z.min size' (filelen e - (offs h + start h)) = k).
  { subst size' k. rewrite Hstart.
    destruct (Z.gtb_spec (offs h + size) (filelen e)); lia. }
  destruct Hsize' as (Hrange & Hsum & Hk).
  unfold call_read. rewrite Hread.
  destruct (PAK_Read_slice h pk e size' Hdata Hfs He ltac:(lia) ltac:(lia)
              Hrange ltac:(lia) ltac:(lia) ltac:(lia))
    as (f' & Hf' & Hpak).
  rewrite Hk, Hstart, !Z.add_0_r in Hpak.
  rewrite (length_take_drop_Z _ k (pak_offset h + offs h)) in Hpak
    by (subst k; lia).
  exists f'. split; [exact Hf' |]. rewrite Hpak. reflexivity.
Qed.

(** X6.  On a handle to a loose file that was never trimmed and whose
    stdio position agrees with [offs], [QFS_ReadFile] returns the smaller
    of the size asked and the distance to the end of the file, gives the
    bytes of the file from the position on, and leaves the two positions
    in step, advanced by the count. *)
Theorem QFS_ReadFile_loose_file (fuel : nat) (h : qfshandle_t) (f : FILE)
    (size : Z) :
  data h = data_FILE f -> read h = FS_Read_fn ->
  filesize h = FS_FileSize_fn ->
  start h = 0 -> endtrim h = 0 -> f_pos f = offs h ->
  0 <= offs h <= Z.of_nat (length (f_bytes f)) ->
  Z.of_nat (length (f_bytes f)) < 2 ^ 63 ->
  0 <= size < 2 ^ 63 ->
  let k := Z.min size (Z.of_nat (length (f_bytes f)) - offs h) in
  QFS_ReadFile fuel (Some h) size =
    Ok (k,
        take (Z.to_nat k) (drop (Z.to_nat (offs h)) (f_bytes f)),
        Some (set_offs
                (set_data h (data_FILE (mkFILE (f_bytes f) (offs h + k))))
                (offs h + k))).
Proof.
  intros Hdata Hread Hfs Hstart Hend Hpos Hofs Hlen Hsize k.
  assert (Hfsz : call_filesize h = Ok (Z.of_nat (length (f_bytes f)))).
  { unfold call_filesize, FS_FileSize. rewrite Hfs, Hdata. reflexivity. }
  rewrite (QFS_ReadFile_size_passed fuel h size _ Hfsz).
  rewrite Hend, Z.sub_0_r, (to_qfileofs_t_small size) by lia.
  rewrite (to_size_t_small (Z.of_nat (length (f_bytes f)))) by lia.
  set (len := Z.of_nat (length (f_bytes f))) in *.
  set (size' := if offs h + size >? len then len else size).
  unfold call_read. rewrite Hread.
  unfold FS_Read, QFS_CheckHandle. rewrite Hdata. cbn.
  rewrite Hpos.
  assert (Htake : take (Z.to_nat size') (drop (Z.to_nat (offs h)) (f_bytes f))
                  = take (Z.to_nat k) (drop (Z.to_nat (offs h)) (f_bytes f))).
  { subst size' k.
    destruct (Z.gtb_spec (offs h + size) len).
    - rewrite !take_ge by (rewrite length_drop; lia). reflexivity.
    - replace (Z.min size (len - offs h)) with size by lia. reflexivity. }
  rewrite Htake.
  rewrite (length_take_drop_Z _ k (offs h)) by (subst k len; lia).
  rewrite to_qfileofs_t_small by (subst k; lia).
  reflexivity.
Qed.

(** A read through the handle to a loose file: the smaller of the size
    asked and what the file still holds. *)
Lemma loose_handle_read_min (fuel : nat) (bytes : list byte) (p s : Z) :
  0 <= p <= Z.of_nat (length bytes) -> 0 <= s < 2 ^ 63 ->
  Z.of_nat (length bytes) < 2 ^ 63 ->
  let k := Z.min s (Z.of_nat (length bytes) - p) in
  QFS_ReadFile fuel (Some (loose_handle bytes p)) s =
    Ok (k, take (Z.to_nat k) (drop (Z.to_nat p) bytes),
        Some (loose_handle bytes (p + k))).
Proof.
  intros Hp Hs Hlen k.
  unfold QFS_ReadFile, call_filesize, call_read, FS_Read, QFS_CheckHandle.
  cbn -[to_size_t to_qfileofs_t Z.add take drop Sys_filelength Z.min].
  unfold Sys_filelength. cbn [f_bytes].
  rewrite Z.sub_0_r, (to_qfileofs_t_small s) by lia.
  rewrite (to_size_t_small (Z.of_nat (length bytes))) by lia.
  set (len := Z.of_nat (length bytes)) in *.
  assert (Htake : take (Z.to_nat (if p + s >? len then len else s))
                    (drop (Z.to_nat p) bytes)
                  = take (Z.to_nat k) (drop (Z.to_nat p) bytes)).
  { subst k. destruct (Z.gtb_spec (p + s) len).
    - rewrite !take_ge by (rewrite length_drop; lia). reflexivity.
    - replace (Z.min s (len - p)) with s by lia. reflexivity. }
  rewrite Htake, length_take, length_drop.
  replace (Z.of_nat (Nat.min (Z.to_nat k) (length bytes - Z.to_nat p))) with k
    by (subst k len; lia).
  rewrite to_qfileofs_t_small by (subst k; lia). reflexivity.
Qed.

(** A read of [s] bytes that the file still holds, through a handle to a
    loose file. *)
Lemma loose_handle_read (fuel : nat) (bytes : list byte) (p s : Z) :
  0 <= p -> 0 <= s -> p + s <= Z.of_nat (length bytes) ->
  Z.of_nat (length bytes) < 2 ^ 63 ->
  QFS_ReadFile fuel (Some (loose_handle bytes p)) s =
    Ok (s, take (Z.to_nat s) (drop (Z.to_nat p) bytes),
        Some (loose_handle bytes (p + s))).
Proof.
  intros Hp Hs Hfits Hlen.
  unfold QFS_ReadFile, call_filesize, call_read, FS_Read, QFS_CheckHandle.
  cbn -[to_size_t to_qfileofs_t Z.add take drop Sys_filelength].
  unfold Sys_filelength. cbn [f_bytes].
  rewrite Z.sub_0_r, (to_qfileofs_t_small s) by lia.
  destruct (Z.gtb_spec (p + s) (Z.of_nat (length bytes))); [lia |].
  rewrite length_take, length_drop.
  replace (Z.of_nat (Nat.min (Z.to_nat s) (length bytes - Z.to_nat p))) with s
    by lia.
  rewrite to_qfileofs_t_small by lia. reflexivity.
Qed.

Lemma loose_handle_read_into (fuel : nat) (bytes : list byte) (p s cap : Z) :
  0 <= p -> 0 <= s <= cap -> p + s <= Z.of_nat (length bytes) ->
  Z.of_nat (length bytes) < 2 ^ 63 ->
  QFS_ReadFile_into fuel (Some (loose_handle bytes p)) cap s =
    Ok (s, take (Z.to_nat s) (drop (Z.to_nat p) bytes),
        Some (loose_handle bytes (p + s))).
Proof.
  intros Hp Hs Hfits Hlen. unfold QFS_ReadFile_into.
  rewrite loose_handle_read by lia. cbn [mbind result_bind].
  rewrite length_take, length_drop.
  destruct (Z.gtb_spec
              (Z.of_nat (Nat.min (Z.to_nat s) (length bytes - Z.to_nat p))) cap);
    [lia | reflexivity].
Qed.

End SliceReads.

(** ** Handles as they are opened *)

Section FreshHandles.
Context `{miniz : Miniz}.

(** The scan of a pack stops at the first entry with the name asked
    for: the entries before it exist and have other names. *)
Lemma QFS_FindFile_scan_Some (pak : pack_t) (fname : list byte) (n : nat)
    (i0 i : Z) (e : packfile_t) :
  QFS_FindFile_scan pak fname n i0 = Ok (Some (i, e)) ->
  i0 <= i < i0 + Z.of_nat n
  /\ array_get (files pak) i = Ok e
  /\ strcmp_is_0 (name e) fname = true
  /\ forall j, i0 <= j < i ->
       exists e', array_get (files pak) j = Ok e'
                  /\ strcmp_is_0 (name e') fname = false.
Proof.
  revert i0. induction n as [| n IH]; intros i0; cbn [QFS_FindFile_scan];
    [discriminate |].
  destruct (array_get (files pak) i0) as [e0 | | |] eqn:He0; try discriminate.
  cbn. destruct (strcmp_is_0 (name e0) fname) eqn:Hcmp.
  - intros [= <- <-]. split; [lia |]. split; [exact He0 |].
    split; [exact Hcmp |]. intros j Hj. lia.
  - intros Hscan. destruct (IH _ Hscan) as (Hi & He & Hname & Hbefore).
    split; [lia |]. split; [exact He |]. split; [exact Hname |].
    intros j Hj. destruct (Z.eq_dec j i0) as [-> | Hne].
    + exists e0. auto.
    + apply Hbefore. lia.
Qed.

Lemma QFS_FindFile_scan_None (pak : pack_t) (fname : list byte) (n : nat)
    (i0 : Z) :
  QFS_FindFile_scan pak fname n i0 = Ok None ->
  forall j, i0 <= j < i0 + Z.of_nat n ->
    exists e', array_get (files pak) j = Ok e'
               /\ strcmp_is_0 (name e') fname = false.
Proof.
  revert i0. induction n as [| n IH]; intros i0; cbn [QFS_FindFile_scan].
  { intros _ j Hj. lia. }
  destruct (array_get (files pak) i0) as [e0 | | |] eqn:He0; try discriminate.
  cbn. destruct (strcmp_is_0 (name e0) fname) eqn:Hcmp; [discriminate |].
  intros Hscan j Hj. destruct (Z.eq_dec j i0) as [-> | Hne].
  - exists e0. auto.
  - apply (IH _ Hscan). lia.
Qed.

Lemma PAK_Open_fresh (disk : filesystem) (pak : pack_t) (idx : Z)
    (reopen : bool) (h : qfshandle_t) :
  PAK_Open disk pak idx reopen = Ok h ->
  exists refpack e,
    array_get (files pak) idx = Ok e
    /\ h = mk_handle (data_pack refpack) None idx reopen false 0 (filepos e)
             0 0 PAK_FileSize_fn PAK_Read_fn PAK_Close_fn PAK_Seek_fn
    /\ files refpack = files pak
    /\ filename refpack = filename pak
    /\ pack_impl_data refpack = pack_impl_data pak
    /\ (reopen = false -> refpack = pak)
    /\ (reopen = true ->
        fopen disk (filename pak) = Some (pack_handle refpack)).
Proof.
  unfold PAK_Open. destruct reopen.
  - destruct (fopen disk (filename pak)) as [f |] eqn:Hf; [| discriminate].
    cbn. destruct (array_get (files pak) idx) as [e | | |] eqn:He;
      try discriminate.
    cbn. intros [= <-]. exists (set_pack_handle pak f), e.
    repeat split; try reflexivity; discriminate.
  - cbn. destruct (array_get (files pak) idx) as [e | | |] eqn:He;
      try discriminate.
    cbn. intros [= <-]. exists pak, e.
    repeat split; try reflexivity; discriminate.
Qed.

Lemma call_open_file_fresh (disk : filesystem) (pak : pack_t) (idx : Z)
    (reopen : bool) (h : qfshandle_t) :
  call_open_file disk pak idx reopen = Ok h ->
  exists e,
    array_get (files pak) idx = Ok e
    /\ offs h = 0 /\ start h = 0 /\ endtrim h = 0
    /\ call_filesize h = Ok (filelen e).
Proof.
  unfold call_open_file. destruct (open_file pak).
  - intros Hopen.
    destruct (PAK_Open_fresh _ _ _ _ _ Hopen)
      as (refpack & e & He & -> & Hfiles & _).
    exists e. split; [exact He |].
    unfold call_filesize, PAK_FileSize. cbn.
    rewrite Hfiles, He. auto.
  - unfold ZIP_Open.
    destruct (PAK_Open disk pak idx reopen) as [h0 | | |] eqn:Hopen;
      try discriminate.
    destruct (PAK_Open_fresh _ _ _ _ _ Hopen)
      as (refpack0 & e & He & -> & Hfiles & _ & _ & Hsame & _).
    cbn.
    set (refpack_of :=
           if reopen
           then match mz_zip_reader_init (pack_handle refpack0)
                        (Sys_filelength (pack_handle pak)) with
                | Some za =>
                    Ok (mk_pack (pack_handle refpack0) (filename refpack0)
                          (numfiles refpack0) (files refpack0) (Some za)
                          (pakver refpack0) (open_file refpack0))
                | None => Sys_Error (filename pak +:+ " failed to reopen.")
                end
           else Ok pak).
    assert (Href : forall refpack, refpack_of = Ok refpack ->
                     files refpack = files pak).
    { subst refpack_of. intros refpack. destruct reopen.
      - destruct (mz_zip_reader_init _ _); [| discriminate].
        intros [= <-]. exact Hfiles.
      - intros [= <-]. reflexivity. }
    destruct refpack_of as [refpack | | |]; try discriminate.
    specialize (Href refpack eq_refl). cbn.
    destruct (pack_impl_data refpack) as [za |]; [| discriminate].
    rewrite Href, He. cbn.
    destruct (negb (m_is_supported _)); [discriminate |].
    destruct (ZIP_LowLevelRead (pack_handle refpack) _ 4)
      as [[lh1 f1] | | |]; try discriminate.
    cbn. destruct (_ || _); [discriminate |].
    destruct (ZIP_LowLevelRead f1 _ 4) as [[lh2 f2] | | |]; try discriminate.
    cbn. destruct (negb _); [discriminate |].
    destruct (_ >? m_archive_size za); [discriminate |].
    destruct (negb (m_method _ =? 0));
      intros [= <-]; exists e; (split; [reflexivity |]);
      unfold call_filesize, PAK_FileSize; cbn;
      rewrite Href, He; auto.
Qed.

Lemma QFS_FindFile_fresh (disk : filesystem) (registered : bool)
    (st : qfs_state) (search : list searchpath_t) (fname : string)
    (reopen : bool) (ret : Z) (h : qfshandle_t) (pid : option Z) :
  QFS_FindFile disk registered st search fname true reopen
    = Ok (ret, Some h, pid) ->
  offs h = 0 /\ start h = 0 /\ endtrim h = 0 /\ call_filesize h = Ok ret.
Proof.
  induction search as [| sp next IH]; cbn [QFS_FindFile]; [discriminate |].
  destruct (negb (pack sp =? 0)).
  - destruct (fst (QFS_GetPack (pack sp) false st)) as [pak |];
      [| discriminate].
    destruct (QFS_FindFile_scan pak _ _ 0) as [[[i e] |] | | |] eqn:Hscan;
      try discriminate; cbn; [| exact IH].
    destruct (call_open_file disk pak i reopen) as [h0 | | |] eqn:Hopen;
      try discriminate.
    cbn. intros [= <- <- _].
    destruct (call_open_file_fresh _ _ _ _ _ Hopen) as (e' & He' & Hfresh).
    destruct (QFS_FindFile_scan_Some _ _ _ _ _ _ Hscan) as (_ & He & _).
    rewrite He in He'. injection He' as <-. exact Hfresh.
  - destruct (negb registered && has_path_separator fname); [exact IH |].
    destruct (disk (sp_filename sp +:+ "/" +:+ fname)) as [bytes |] eqn:Hdisk;
      [| exact IH].
    unfold FS_Open, fopen. rewrite Hdisk. cbn.
    intros [= <- <- _]. cbn. auto.
Qed.

Lemma QFS_OpenFile_handle (disk : filesystem) (registered : bool)
    (st : qfs_state) (search : list searchpath_t) (fname : string)
    (h : qfshandle_t) :
  QFS_OpenFile disk registered st search fname = Ok (Some h)
  \/ QFS_FOpenFile disk registered st search fname = Ok (Some h) ->
  exists ret,
    0 <= ret /\ offs h = 0 /\ start h = 0 /\ endtrim h = 0
    /\ call_filesize h = Ok ret.
Proof.
  assert (Hboth : forall reopen,
            ('(ret, handle, _) ←
               QFS_FindFile disk registered st search fname true reopen;
             Ok (if ret >=? 0 then handle else None)) = Ok (Some h) ->
            exists ret,
              0 <= ret /\ offs h = 0 /\ start h = 0 /\ endtrim h = 0
              /\ call_filesize h = Ok ret).
  { intros reopen.
    destruct (QFS_FindFile disk registered st search fname true reopen)
      as [[[ret handle] pid] | | |] eqn:Hfind; try discriminate.
    cbn. destruct (Z.geb_spec ret 0) as [Hret | Hret]; [| discriminate].
    intros [= ->]. exists ret. split; [lia |].
    exact (QFS_FindFile_fresh _ _ _ _ _ _ _ _ _ Hfind). }
  intros [Hopen | Hopen]; [apply (Hboth false) | apply (Hboth true)];
    exact Hopen.
Qed.

(** X7.  A handle that [QFS_OpenFile] or [QFS_FOpenFile] returns, from
    whatever search path, pack or directory it comes: it is untrimmed and
    at the start, so [QFS_Tell] is 0; its size is not negative; and
    [QFS_Eof] holds exactly when the file is empty. *)
Theorem QFS_OpenFile_fresh (disk : filesystem) (registered : bool)
    (st : qfs_state) (search : list searchpath_t) (fname : string)
    (h : qfshandle_t) :
  QFS_OpenFile disk registered st search fname = Ok (Some h)
  \/ QFS_FOpenFile disk registered st search fname = Ok (Some h) ->
  QFS_Tell (Some h) = 0
  /\ start h = 0 /\ endtrim h = 0
  /\ exists sz,
       0 <= sz
       /\ QFS_FileSize (Some h) = Ok sz
       /\ QFS_Eof (Some h) = Ok (sz =? 0).
Proof.
  intros Hopen.
  destruct (QFS_OpenFile_handle _ _ _ _ _ _ Hopen)
    as (ret & Hret & Hoffs & Hstart & Hend & Hfsz).
  unfold QFS_Tell, QFS_FileSize, QFS_Eof.
  rewrite Hoffs, Hstart, Hend, Hfsz. cbn.
  split; [reflexivity |]. split; [reflexivity |]. split; [reflexivity |].
  exists ret. split; [exact Hret |].
  rewrite !Z.sub_0_r. split; [reflexivity |]. do 2 f_equal.
  destruct (Z.geb_spec 0 ret), (Z.eqb_spec ret 0); try reflexivity; lia.
Qed.

End FreshHandles.

(** ** The .pak loader on a well-formed file *)

Lemma byte_at_drop (buf : list byte) (d i : nat) :
  byte_at (drop d buf) i = byte_at buf (d + i).
Proof. unfold byte_at. rewrite lookup_drop. reflexivity. Qed.

Lemma int_le_at_drop (buf : list byte) (d ofs : nat) :
  int_le_at (drop d buf) ofs = int_le_at buf (d + ofs).
Proof.
  unfold int_le_at. rewrite !byte_at_drop.
  rewrite !Nat.add_assoc. reflexivity.
Qed.

(** X8.  A pack file that begins with "PACK", whose header names a
    directory of 1 to 2048 whole or part records at a valid offset: when
    the file holds the whole directory, the loader registers a pack with
    [dirlen / 64] entries, its [FILE] left just behind the directory, and
    entry [i] has the position and the length stored, least significant
    byte first, at bytes 56 and 60 of record [i]; when the file ends
    before the directory does, the loader stops in [Sys_Error]. *)
Theorem QFS_LoadPAKFile_loads (disk : filesystem) (packfile : string)
    (st : qfs_state) (bytes : list byte) (dirofs dirlen : Z) :
  disk packfile = Some bytes ->
  (12 <= length bytes)%nat ->
  take 4 bytes = bytes_of_string "PACK" ->
  dirofs = int_le_at bytes 4 ->
  dirlen = int_le_at bytes 8 ->
  0 <= dirofs ->
  64 <= dirlen <= MAX_FILES_IN_PACK * sizeof_dpackfile_t ->
  let info := take (Z.to_nat dirlen) (drop (Z.to_nat dirofs) bytes) in
  let newfiles := map (parse_dpackfile info) (seq 0 (Z.to_nat (dirlen / 64))) in
  (dirofs + dirlen <= Z.of_nat (length bytes) ->
   QFS_LoadPAKFile disk packfile st =
     Ok (QFS_RegisterPack
           (mk_pack (mkFILE bytes (dirofs + dirlen)) (pack_filename packfile)
              (dirlen / 64) (Some newfiles) None 1 PAK_Open_fn)
           st)
   /\ Z.of_nat (length newfiles) = dirlen / 64
   /\ forall i e, newfiles !! i = Some e ->
        filepos e = int_le_at bytes (Z.to_nat dirofs + (i * 64 + 56))
        /\ filelen e = int_le_at bytes (Z.to_nat dirofs + (i * 64 + 60))
        /\ name e = q_strlcpy (drop (i * 64) info) MAX_QPATH)
  /\ (Z.of_nat (length bytes) < dirofs + dirlen ->
      is_fatal (QFS_LoadPAKFile disk packfile st)).
Proof.
  intros Hdisk Hlen Hmagic -> -> Hofs Hdirlen info newfiles.
  unfold MAX_FILES_IN_PACK, sizeof_dpackfile_t in Hdirlen.
  set (dirofs := int_le_at bytes 4) in *.
  set (dirlen := int_le_at bytes 8) in *.
  assert (Hn : 1 <= dirlen / 64 <= 2048).
  { split.
    - apply Z.div_le_lower_bound; lia.
    - apply Z.div_le_upper_bound; lia. }
  assert (Hload : QFS_LoadPAKFile disk packfile st =
            if Z.of_nat (length info) >? MAX_FILES_IN_PACK * sizeof_dpackfile_t
            then Undefined
            else if negb (to_int (Z.of_nat (length info)) =? dirlen)
            then Sys_Error ("Error reading " +:+ packfile)
            else
              Ok (QFS_RegisterPack
                    (mk_pack (mkFILE bytes (dirofs + Z.of_nat (length info)))
                       (pack_filename packfile) (dirlen / 64)
                       (Some newfiles) None 1 PAK_Open_fn)
                    st)).
  { rewrite (QFS_LoadPAKFile_after_magic disk packfile st bytes Hdisk Hlen)
      by (apply header_id_ok_spec; exact Hmagic).
    fold dirofs dirlen.
    destruct (Z.ltb_spec dirlen 0); [lia |].
    destruct (Z.ltb_spec dirofs 0); [lia |].
    rewrite numpackfiles_nonneg by lia. cbn [orb].
    destruct (Z.eqb_spec (dirlen / 64) 0); [lia |].
    destruct (Z.gtb_spec (dirlen / 64) MAX_FILES_IN_PACK);
      [unfold MAX_FILES_IN_PACK in *; lia |].
    reflexivity. }
  assert (Hinfo : Z.of_nat (length info)
                  = Z.min dirlen (Z.max 0 (Z.of_nat (length bytes) - dirofs))).
  { subst info. rewrite length_take, length_drop. lia. }
  assert (Hfits : (Z.of_nat (length info)
                   >? MAX_FILES_IN_PACK * sizeof_dpackfile_t) = false).
  { unfold MAX_FILES_IN_PACK, sizeof_dpackfile_t.
    destruct (Z.gtb_spec (Z.of_nat (length info)) (2048 * 64)); [lia | reflexivity]. }
  rewrite Hload, Hfits. split.
  - intros Hwhole.
    assert (Hlen_info : Z.of_nat (length info) = dirlen) by lia.
    rewrite Hlen_info, to_int_small, Z.eqb_refl by lia. cbn [negb].
    split; [reflexivity |]. split.
    { subst newfiles. rewrite length_map, length_seq. lia. }
    intros i e Hi. subst newfiles.
    rewrite list_lookup_fmap in Hi.
    destruct (seq 0 (Z.to_nat (dirlen / 64)) !! i) as [j |] eqn:Hj;
      [| discriminate].
    apply lookup_seq in Hj. destruct Hj as [-> Hlt].
    cbn in Hi. injection Hi as <-.
    unfold parse_dpackfile. cbn [filepos filelen name].
    change (Z.to_nat sizeof_dpackfile_t) with 64%nat.
    assert (Hrec : (i * 64 + 64 <= Z.to_nat dirlen)%nat).
    { assert (Z.of_nat i + 1 <= dirlen / 64) by lia.
      assert (64 * (Z.of_nat i + 1) <= dirlen); [| lia].
      etransitivity; [apply Z.mul_le_mono_nonneg_l; [lia | eassumption] |].
      apply Z.mul_div_le. lia. }
    subst info.
    rewrite !int_le_at_take by lia. rewrite !int_le_at_drop.
    auto.
  - intros Hshort.
    assert (Hlen_info : Z.of_nat (length info) < dirlen) by lia.
    rewrite to_int_small by lia.
    destruct (Z.eqb_spec (Z.of_nat (length info)) dirlen); [lia |].
    eexists. reflexivity.
Qed.

(** X9.  The same header with a directory length of 131073 to 131135
    passes the test on the number of entries, which is 2048; when the file
    holds more than 131072 bytes from [dirofs] on, the read of the
    directory writes past the end of the array [info] of 2048 records. *)
Theorem QFS_LoadPAKFile_overruns_info (disk : filesystem) (packfile : string)
    (st : qfs_state) (bytes : list byte) (dirofs dirlen : Z) :
  disk packfile = Some bytes ->
  (12 <= length bytes)%nat ->
  take 4 bytes = bytes_of_string "PACK" ->
  dirofs = int_le_at bytes 4 ->
  dirlen = int_le_at bytes 8 ->
  0 <= dirofs ->
  MAX_FILES_IN_PACK * sizeof_dpackfile_t < dirlen
    < (MAX_FILES_IN_PACK + 1) * sizeof_dpackfile_t ->
  dirofs + MAX_FILES_IN_PACK * sizeof_dpackfile_t < Z.of_nat (length bytes) ->
  QFS_LoadPAKFile disk packfile st = Undefined.
Proof.
  intros Hdisk Hlen Hmagic -> -> Hofs Hdirlen Hlong.
  unfold MAX_FILES_IN_PACK, sizeof_dpackfile_t in Hdirlen, Hlong.
  set (dirofs := int_le_at bytes 4) in *.
  set (dirlen := int_le_at bytes 8) in *.
  assert (Hn : dirlen / 64 = 2048).
  { symmetry. apply (Z.div_unique dirlen 64 2048 (dirlen - 2048 * 64)); lia. }
  rewrite (QFS_LoadPAKFile_after_magic disk packfile st bytes Hdisk Hlen)
    by (apply header_id_ok_spec; exact Hmagic).
  fold dirofs dirlen.
  destruct (Z.ltb_spec dirlen 0); [lia |].
  destruct (Z.ltb_spec dirofs 0); [lia |].
  rewrite numpackfiles_nonneg by lia. cbn [orb]. rewrite Hn.
  change (2048 =? 0) with false. change (2048 >? MAX_FILES_IN_PACK) with false.
  cbn iota. unfold fread. cbn [f_pos f_bytes].
  rewrite length_take, length_drop.
  unfold MAX_FILES_IN_PACK, sizeof_dpackfile_t.
  destruct (Z.gtb_spec
              (Z.of_nat (Nat.min (Z.to_nat dirlen)
                           (length bytes - Z.to_nat dirofs))) (2048 * 64));
    [reflexivity | lia].
Qed.

(** ** Looking a file up *)

Lemma QFS_FindFile_scan_total (pak : pack_t) (l : list packfile_t)
    (fname : list byte) (n : nat) (i0 : Z) :
  files pak = Some l -> 0 <= i0 -> (Z.to_nat i0 + n <= length l)%nat ->
  exists r, QFS_FindFile_scan pak fname n i0 = Ok r.
Proof.
  intros Hfiles. revert i0. induction n as [| n IH]; intros i0 Hi0 Hlen;
    cbn [QFS_FindFile_scan].
  { eexists. reflexivity. }
  unfold array_get. rewrite Hfiles.
  destruct (Z.ltb_spec i0 0); [lia |].
  destruct (l !! Z.to_nat i0) as [e0 |] eqn:He0.
  2: { apply lookup_ge_None in He0. lia. }
  cbn. destruct (strcmp_is_0 (name e0) fname).
  - eexists. reflexivity.
  - apply IH; lia.
Qed.

Section Lookup.
Context `{miniz : Miniz}.

(** X10.  [QFS_FileExists] over a search path whose packs are registered,
    hold as many entries as they count and have no entry of length -1: it
    answers, and the answer is true exactly when some element of the
    search path holds the file -- a pack with an entry of that name among
    those it counts, or a directory in which the file is on the disk;
    directories are passed over for a name with a path separator while
    the game is not registered. *)
Theorem QFS_FileExists_iff (disk : filesystem) (registered : bool)
    (st : qfs_state) (search : list searchpath_t) (fname : string) :
  (forall sp, In sp search -> pack sp <> 0 ->
     exists pak l,
       fst (QFS_GetPack (pack sp) false st) = Some pak
       /\ files pak = Some l
       /\ (Z.to_nat (numfiles pak) <= length l)%nat
       /\ Forall (fun e => filelen e <> -1) l) ->
  exists b,
    QFS_FileExists disk registered st search fname = Ok b
    /\ (b = true <->
        exists sp, In sp search
          /\ if pack sp =? 0
             then (registered = true \/ has_path_separator fname = false)
                  /\ disk (sp_filename sp +:+ "/" +:+ fname) <> None
             else exists pak i e,
                    fst (QFS_GetPack (pack sp) false st) = Some pak
                    /\ 0 <= i < numfiles pak
                    /\ array_get (files pak) i = Ok e
                    /\ strcmp_is_0 (name e) (list_byte_of_string fname) = true).
Proof.
  unfold QFS_FileExists.
  induction search as [| sp next IH]; intros Hwf.
  { cbn. exists false. split; [reflexivity |].
    split; [discriminate | intros (sp & [] & _)]. }
  destruct IH as (b & Hb & Hiff).
  { intros sp' Hin. apply Hwf. right. exact Hin. }
  cbn [QFS_FindFile].
  destruct (Z.eqb_spec (pack sp) 0) as [Hdir | Hpack]; cbn [negb].
  - (* a directory *)
    destruct (negb registered && has_path_separator fname) eqn:Hskip.
    + exists b. split; [exact Hb |]. rewrite Hiff. split.
      * intros (sp' & Hin & Hsp'). exists sp'. split; [right; exact Hin | exact Hsp'].
      * intros (sp' & [<- | Hin] & Hsp').
        -- rewrite Hdir in Hsp'. cbn in Hsp'. destruct Hsp' as [[-> | Hsep] _].
           ++ discriminate.
           ++ rewrite Hsep, andb_false_r in Hskip. discriminate.
        -- exists sp'. auto.
    + destruct (disk (sp_filename sp +:+ "/" +:+ fname)) as [bytes |] eqn:Hdisk.
      * cbn. exists true. split; [reflexivity |]. split; [| reflexivity].
        intros _. exists sp. split; [left; reflexivity |].
        rewrite Hdir. cbn. split; [| rewrite Hdisk; discriminate].
        destruct registered; [left; reflexivity | right].
        cbn in Hskip. exact Hskip.
      * exists b. split; [exact Hb |]. rewrite Hiff. split.
        -- intros (sp' & Hin & Hsp'). exists sp'. split; [right; exact Hin | exact Hsp'].
        -- intros (sp' & [<- | Hin] & Hsp').
           ++ rewrite Hdir in Hsp'. cbn in Hsp'. destruct Hsp' as [_ Hno].
              contradiction.
           ++ exists sp'. auto.
  - (* a pack *)
    destruct (Hwf sp (or_introl eq_refl) Hpack)
      as (pak & l & Hget & Hfiles & Hcount & Hlens).
    rewrite Hget.
    destruct (QFS_FindFile_scan_total pak l (list_byte_of_string fname)
                (Z.to_nat (numfiles pak)) 0 Hfiles ltac:(lia) ltac:(lia))
      as (r & Hscan).
    rewrite Hscan. cbn.
    destruct r as [[i e] |].
    + destruct (QFS_FindFile_scan_Some _ _ _ _ _ _ Hscan)
        as (Hi & He & Hname & _).
      cbn. exists true. split.
      * do 2 f_equal. apply negb_true_iff, Z.eqb_neq.
        unfold array_get in He. rewrite Hfiles in He.
        destruct (i <? 0); [discriminate |].
        destruct (l !! Z.to_nat i) as [e' |] eqn:Hl; [| discriminate].
        injection He as ->.
        rewrite Forall_forall in Hlens. apply Hlens.
        apply list_elem_of_lookup. eauto.
      * split; [| reflexivity]. intros _. exists sp.
        split; [left; reflexivity |].
        destruct (Z.eqb_spec (pack sp) 0); [contradiction |].
        exists pak, i, e. repeat split; try assumption; lia.
    + pose proof (QFS_FindFile_scan_None _ _ _ _ Hscan) as Hnone.
      exists b. split; [exact Hb |]. rewrite Hiff. split.
      * intros (sp' & Hin & Hsp'). exists sp'. split; [right; exact Hin | exact Hsp'].
      * intros (sp' & [<- | Hin] & Hsp').
        -- destruct (Z.eqb_spec (pack sp) 0); [contradiction |].
           destruct Hsp' as (pak' & i & e & Hget' & Hi & He & Hname).
           rewrite Hget in Hget'. injection Hget' as <-.
           destruct (Hnone i ltac:(lia)) as (e' & He' & Hname').
           rewrite He in He'. injection He' as <-.
           rewrite Hname in Hname'. discriminate.
        -- exists sp'. auto.
Qed.

End Lookup.

Lemma QFS_FileExists_iff_witness :
  QFS_FileExists (miniz := literal_inflater) demo_disk false state_empty
    [mk_searchpath 1 "id1" 0] "pak0.pak" = Ok true.
Proof.
  destruct (QFS_FileExists_iff (miniz := literal_inflater) demo_disk false
              state_empty
              [mk_searchpath 1 "id1" 0] "pak0.pak") as (b & Hb & Hiff).
  { intros sp [<- | []] Hne. exfalso. apply Hne. reflexivity. }
  rewrite Hb. f_equal. apply Hiff.
  exists (mk_searchpath 1 "id1" 0). split; [left; reflexivity |].
  cbn. split; [right; reflexivity | discriminate].
Defined.

(** ** Lines and whole files *)

Section TextAndLoadFacts.
Context `{miniz : Miniz}.

Lemma QFS_ReadFile_length (fuel : nat) (handle handle' : option qfshandle_t)
    (size n : Z) (got : list byte) :
  0 <= size < 2 ^ 64 ->
  QFS_ReadFile fuel handle size = Ok (n, got, handle') ->
  Z.of_nat (length got) <= n.
Proof.
  intros Hsize. unfold QFS_ReadFile. destruct handle as [h |].
  2: { intros [= <- <- _]. cbn. lia. }
  destruct (call_filesize h) as [fsz | | |]; try discriminate. cbn.
  set (size' := if _ >? _ then _ else size).
  assert (Hsize' : 0 <= size' < 2 ^ 64).
  { subst size'. destruct (_ >? _); [| exact Hsize].
    unfold to_size_t. apply Z.mod_pos_bound. lia. }
  destruct (call_read fuel h size') as [[[n0 got0] h0] | | |] eqn:Hread;
    try discriminate.
  cbn. intros [= <- <- _].
  exact (call_read_length _ _ _ _ _ _ Hsize' Hread).
Qed.

(** A character read through the handle to a loose file: the byte at
    the position, the handle moved past it; at the end of the file the
    flag, the handle where it was. *)
Lemma QFS_GetChar_loose (fuel : nat) (file : list byte) (p : Z) :
  0 <= p <= Z.of_nat (length file) -> Z.of_nat (length file) < 2 ^ 63 ->
  QFS_GetChar fuel (Some (loose_handle file p)) =
    match file !! Z.to_nat p with
    | Some c => Ok (c, false, Some (loose_handle file (p + 1)))
    | None => Ok (x00, true, Some (loose_handle file p))
    end.
Proof.
  intros Hp Hlen. unfold QFS_GetChar, QFS_ReadFile_into.
  rewrite (loose_handle_read_min fuel file p 1) by lia.
  cbn [mbind result_bind].
  destruct (file !! Z.to_nat p) as [c |] eqn:Hc.
  - apply lookup_lt_Some in Hc as Hlt.
    replace (Z.min 1 (Z.of_nat (length file) - p)) with 1 by lia.
    change (Z.to_nat 1) with 1%nat.
    rewrite (take_S_r _ 0 c) by (rewrite lookup_drop, Nat.add_0_r; exact Hc).
    reflexivity.
  - apply lookup_ge_None in Hc.
    replace (Z.min 1 (Z.of_nat (length file) - p)) with 0 by lia.
    rewrite Z.add_0_r. reflexivity.
Qed.

Lemma take_S_drop (file : list byte) (q k : nat) (c : byte) :
  file !! q = Some c ->
  take (S k) (drop q file) = c :: take k (drop (S q) file).
Proof.
  intros Hc. rewrite (drop_S _ _ _ Hc). reflexivity.
Qed.

(** The loop of [QFS_GetLine] on a loose file, from position [q] with
    [line] in the buffer: [k] bytes are taken from the file; [body] is
    what of them comes before the end of the line. *)
Lemma QFS_GetLine_loop_loose (fuel : nat) (file : list byte) (bufsz : Z) :
  Z.of_nat (length file) < 2 ^ 63 -> 1 <= bufsz < 2 ^ 64 ->
  forall (rounds : nat) (q : Z) (line : list byte),
    0 <= q <= Z.of_nat (length file) ->
    (length file - Z.to_nat q < rounds)%nat ->
    Z.of_nat (length line) <= bufsz - 1 ->
    exists (k : Z) (body : list byte),
      QFS_GetLine_loop rounds fuel (Some (loose_handle file q)) bufsz line
        = Ok (line ++ List.filter (fun c => negb (Byte.eqb c x0d)) body,
              Some (loose_handle file (q + k)))
      /\ 0 <= k /\ q + k <= Z.of_nat (length file)
      /\ Forall (fun c => c <> x0a /\ c <> x00) body
      /\ Z.of_nat
           (length (line ++ List.filter (fun c => negb (Byte.eqb c x0d)) body))
         <= bufsz - 1
      /\ ((take (Z.to_nat k) (drop (Z.to_nat q) file) = body
           /\ (Z.of_nat
                 (length
                    (line ++ List.filter (fun c => negb (Byte.eqb c x0d)) body))
               = bufsz - 1
               \/ q + k = Z.of_nat (length file)))
          \/ exists c, (c = x0a \/ c = x00)
                       /\ take (Z.to_nat k) (drop (Z.to_nat q) file)
                          = body ++ [c]).
Proof.
  intros Hlen Hbufsz.
  induction rounds as [| rounds IH]; intros q line Hq Hrounds Hline; [lia |].
  cbn [QFS_GetLine_loop].
  rewrite (to_size_t_small (bufsz - 1)) by lia.
  destruct (Z.ltb_spec (Z.of_nat (length line)) (bufsz - 1)) as [Hroom | Hfull].
  2: { exists 0, []. cbn [List.filter]. rewrite app_nil_r, Z.add_0_r.
       split; [reflexivity |]. split; [lia |]. split; [lia |].
       split; [constructor |]. split; [exact Hline |].
       left. split; [reflexivity | left; lia]. }
  rewrite QFS_GetChar_loose by lia.
  destruct (file !! Z.to_nat q) as [c |] eqn:Hc.
  2: { cbn [mbind result_bind]. rewrite !orb_true_r.
       apply lookup_ge_None in Hc.
       exists 0, []. cbn [List.filter]. rewrite app_nil_r, Z.add_0_r.
       split; [reflexivity |]. split; [lia |]. split; [lia |].
       split; [constructor |]. split; [exact Hline |].
       left. split; [reflexivity | right; lia]. }
  apply lookup_lt_Some in Hc as Hlt.
  cbn [mbind result_bind]. rewrite orb_false_r.
  destruct (Byte.eqb c x0a || Byte.eqb c x00) eqn:Hend.
  { exists 1, []. cbn [List.filter]. rewrite app_nil_r.
    split; [reflexivity |]. split; [lia |]. split; [lia |].
    split; [constructor |]. split; [exact Hline |].
    right. exists c. split.
    - apply orb_true_iff in Hend.
      destruct Hend as [H | H]; apply byte_dec_bl in H; auto.
    - change (Z.to_nat 1) with 1%nat.
      rewrite (take_S_drop _ _ _ _ Hc). reflexivity. }
  apply orb_false_iff in Hend. destruct Hend as [Hnl Hnul].
  assert (Hc_ok : c <> x0a /\ c <> x00).
  { split; intros ->; discriminate. }
  assert (Hstep : forall k, 0 <= k ->
            take (Z.to_nat (k + 1)) (drop (Z.to_nat q) file)
            = c :: take (Z.to_nat k) (drop (Z.to_nat (q + 1)) file)).
  { intros k Hk. replace (Z.to_nat (k + 1)) with (S (Z.to_nat k)) by lia.
    replace (Z.to_nat (q + 1)) with (S (Z.to_nat q)) by lia.
    apply take_S_drop, Hc. }
  destruct (Byte.eqb c x0d) eqn:Hcr; cbn [negb].
  - (* a carriage return is passed over *)
    destruct (IH (q + 1) line ltac:(lia) ltac:(lia) Hline)
      as (k & body & Hrun & Hk & Hkle & Hbody & Hfits & Hcases).
    exists (k + 1), (c :: body). cbn [List.filter]. rewrite Hcr. cbn [negb].
    replace (q + (k + 1)) with (q + 1 + k) by lia.
    split; [exact Hrun |]. split; [lia |]. split; [lia |].
    split; [constructor; assumption |]. split; [exact Hfits |].
    rewrite (Hstep k Hk).
    destruct Hcases as [[Htake Hstop] | (c' & Hc' & Htake)].
    + left. split; [rewrite Htake; reflexivity | exact Hstop].
    + right. exists c'. split; [exact Hc' |]. rewrite Htake. reflexivity.
  - (* any other character goes into the buffer *)
    destruct (IH (q + 1) (line ++ [c]) ltac:(lia) ltac:(lia))
      as (k & body & Hrun & Hk & Hkle & Hbody & Hfits & Hcases).
    { rewrite length_app. cbn [length]. lia. }
    exists (k + 1), (c :: body). cbn [List.filter]. rewrite Hcr. cbn [negb].
    replace (q + (k + 1)) with (q + 1 + k) by lia.
    rewrite <- app_assoc in Hrun, Hfits, Hcases. cbn [app] in Hrun, Hfits, Hcases.
    split; [exact Hrun |]. split; [lia |]. split; [lia |].
    split; [constructor; assumption |]. split; [exact Hfits |].
    rewrite (Hstep k Hk).
    destruct Hcases as [[Htake Hstop] | (c' & Hc' & Htake)].
    + left. split; [rewrite Htake; reflexivity | exact Hstop].
    + right. exists c'. split; [exact Hc' |]. rewrite Htake. reflexivity.
Qed.

(** X11.  [QFS_GetLine] on an untrimmed handle to a loose file at position
    [p], with rounds enough for what is left of the file.  For a buffer
    size of 0 it returns 0, writes nothing and leaves the handle alone.
    Otherwise it returns: it takes [k] bytes from the file; the line it
    writes, followed by a NUL, is [body] without its carriage returns,
    [body] being the bytes taken up to a line feed or a NUL byte, which
    is taken too and not written, or all the bytes taken when the buffer
    is full or the file at its end; the count returned is the length of
    the line, at most [bufsz - 1], so the buffer is not overrun; the
    line holds no line feed, carriage return or NUL; the handle is left
    [k] bytes further. *)
Theorem QFS_GetLine_loose_file (rounds fuel : nat) (file : list byte)
    (p bufsz : Z) :
  0 <= p <= Z.of_nat (length file) -> Z.of_nat (length file) < 2 ^ 63 ->
  0 <= bufsz < 2 ^ 64 ->
  (length file - Z.to_nat p < rounds)%nat ->
  if bufsz =? 0
  then QFS_GetLine rounds fuel (Some (loose_handle file p)) bufsz
       = Ok (0, None, Some (loose_handle file p))
  else
    exists (k : Z) (body line : list byte),
      line = List.filter (fun c => negb (Byte.eqb c x0d)) body
      /\ QFS_GetLine rounds fuel (Some (loose_handle file p)) bufsz
         = Ok (Z.of_nat (length line), Some (line ++ [x00]),
               Some (loose_handle file (p + k)))
      /\ 0 <= k /\ p + k <= Z.of_nat (length file)
      /\ Z.of_nat (length line) <= bufsz - 1
      /\ Forall (fun c => c <> x0a /\ c <> x0d /\ c <> x00) line
      /\ Forall (fun c => c <> x0a /\ c <> x00) body
      /\ ((take (Z.to_nat k) (drop (Z.to_nat p) file) = body
           /\ (Z.of_nat (length line) = bufsz - 1
               \/ p + k = Z.of_nat (length file)))
          \/ exists c, (c = x0a \/ c = x00)
                       /\ take (Z.to_nat k) (drop (Z.to_nat p) file)
                          = body ++ [c]).
Proof.
  intros Hp Hlen Hbufsz Hrounds. unfold QFS_GetLine.
  destruct (Z.eqb_spec bufsz 0) as [-> | Hnz]; [reflexivity |].
  destruct (Z.ltb_spec bufsz 1); [lia |].
  destruct (QFS_GetLine_loop_loose fuel file bufsz Hlen ltac:(lia) rounds p []
              Hp Hrounds ltac:(cbn; lia))
    as (k & body & Hrun & Hk & Hkle & Hbody & Hfits & Hcases).
  cbn [app] in Hrun, Hfits, Hcases.
  exists k, body, (List.filter (fun c => negb (Byte.eqb c x0d)) body).
  split; [reflexivity |]. rewrite Hrun. cbn [mbind result_bind].
  split; [reflexivity |]. split; [exact Hk |]. split; [exact Hkle |].
  split; [exact Hfits |]. split; [| split; [exact Hbody | exact Hcases]].
  clear - Hbody. induction Hbody as [| c body [Hnl Hnul] _ IH];
    [constructor |].
  cbn [List.filter]. destruct (Byte.eqb c x0d) eqn:Hcr; cbn [negb];
    [exact IH |].
  constructor; [| exact IH].
  split; [exact Hnl |]. split; [| exact Hnul]. intros ->. discriminate.
Qed.

(** X18.  [QFS_GetChar] on a handle to a loose file whose end is trimmed,
    at or past the visible end, when the visible size is two bytes or
    more and the file holds two bytes or more from the position on: the
    read of one byte is given the visible size for its count and writes
    more than one byte to the one [char] that is its buffer, so the call
    has no defined result, and nor has a [QFS_GetLine] that gets to read
    a character there. *)
Theorem QFS_GetChar_overruns_when_trimmed (fuel : nat) (h : qfshandle_t)
    (f : FILE) :
  data h = data_FILE f -> read h = FS_Read_fn ->
  filesize h = FS_FileSize_fn ->
  f_pos f = offs h -> 0 <= offs h ->
  Z.of_nat (length (f_bytes f)) < 2 ^ 63 ->
  Z.of_nat (length (f_bytes f)) - endtrim h < offs h + 1 ->
  2 <= Z.of_nat (length (f_bytes f)) - endtrim h ->
  offs h + 2 <= Z.of_nat (length (f_bytes f)) ->
  QFS_GetChar fuel (Some h) = Undefined
  /\ forall rounds bufsz, 2 <= bufsz < 2 ^ 64 ->
       QFS_GetLine (S rounds) fuel (Some h) bufsz = Undefined.
Proof.
  intros Hdata Hread Hfs Hpos Hoffs Hlen Hend Hvisible Hleft.
  assert (Hchar : QFS_GetChar fuel (Some h) = Undefined).
  { unfold QFS_GetChar, QFS_ReadFile_into, QFS_ReadFile.
    unfold call_filesize, FS_FileSize. rewrite Hfs, Hdata.
    cbn [mbind result_bind]. unfold Sys_filelength.
    rewrite (to_qfileofs_t_small 1) by lia.
    destruct (Z.gtb_spec (offs h + 1) (Z.of_nat (length (f_bytes f)) - endtrim h));
      [| lia].
    rewrite to_size_t_small by lia.
    unfold call_read. rewrite Hread.
    unfold FS_Read, QFS_CheckHandle. rewrite Hdata. cbn [mbind result_bind].
    unfold fread. rewrite Hpos. cbn [mbind result_bind].
    rewrite length_take, length_drop.
    destruct (Z.gtb_spec
                (Z.of_nat
                   (Nat.min (Z.to_nat (Z.of_nat (length (f_bytes f)) - endtrim h))
                      (length (f_bytes f) - Z.to_nat (offs h)))) 1);
      [reflexivity | lia]. }
  split; [exact Hchar |].
  intros rounds bufsz Hbufsz. unfold QFS_GetLine.
  destruct (Z.ltb_spec bufsz 1); [lia |].
  cbn [QFS_GetLine_loop length].
  rewrite (to_size_t_small (bufsz - 1)) by lia.
  change (Z.of_nat 0) with 0.
  destruct (Z.ltb_spec 0 (bufsz - 1)); [| lia].
  rewrite Hchar. reflexivity.
Qed.

Lemma call_close_releases_handle (h : qfshandle_t) :
  In res_handle (call_close h).
Proof.
  unfold call_close, FS_Close, ZIP_Close, PAK_Close.
  destruct (close h); cbn; rewrite ?in_app_iff; cbn; auto 6.
Qed.

(** X12.  When [QFS_LoadFile] returns a buffer, for any path, search
    path, table and back end: the file was opened, [*ldsize] is its size
    [len] (as a [size_t]), [QFS_ReadFile] was asked for [len] bytes on the handle just
    opened and returned [len], and the buffer is the bytes that read
    wrote, then the bytes it left unwritten, then the NUL put at index
    [len] before the read, [len + 1] bytes in all; what is released is
    what closing the handle after the read releases, the handle among it.
    It returns NULL exactly when the file cannot be opened. *)
Theorem QFS_LoadFile_terminated (fuel : nat) (disk : filesystem)
    (registered : bool) (st : qfs_state) (search : list searchpath_t)
    (path : string) (method : loadfile_alloc_t)
    (buf : option (list (option byte))) (ldsize : option Z)
    (closed : list resource) :
  QFS_LoadFile fuel disk registered st search path method
    = Ok (buf, ldsize, closed) ->
  match buf with
  | None =>
      QFS_OpenFile disk registered st search path = Ok None
      /\ ldsize = None /\ closed = []
  | Some b =>
      exists h fsz len got h',
        QFS_OpenFile disk registered st search path = Ok (Some h)
        /\ QFS_FileSize (Some h) = Ok fsz
        /\ 0 <= fsz
        /\ len = to_size_t fsz
        /\ ldsize = Some len
        /\ QFS_ReadFile fuel (Some h) len = Ok (len, got, h')
        /\ Z.of_nat (length got) <= len
        /\ b = (Some <$> got)
               ++ replicate (Z.to_nat len - length got) None ++ [Some x00]
        /\ Z.of_nat (length b) = len + 1
        /\ b !! Z.to_nat len = Some (Some x00)
        /\ closed = QFS_CloseFile h'
        /\ In res_handle closed
  end.
Proof.
  unfold QFS_LoadFile.
  destruct (QFS_OpenFile disk registered st search path) as [[h |] | | |] eqn:Hopen;
    try discriminate.
  2: { cbn. intros [= <- <- <-]. auto. }
  destruct (QFS_OpenFile_handle _ _ _ _ _ _ (or_introl Hopen))
    as (sz & Hsz & _ & Hstart & Hend & Hfsz).
  assert (Hsize : QFS_FileSize (Some h) = Ok sz).
  { unfold QFS_FileSize. rewrite Hfsz. cbn.
    rewrite Hstart, Hend, !Z.sub_0_r. reflexivity. }
  cbn [mbind result_bind]. rewrite Hsize. cbn [mbind result_bind].
  set (len := to_size_t sz).
  assert (Hlen : 0 <= len < 2 ^ 64)
    by (unfold len, to_size_t; apply Z.mod_pos_bound; lia).
  replace (match method with
           | LOADFILE_HUNK => to_size_t (len + 1)
           | LOADFILE_MALLOC => to_size_t (len + 1)
           end) with (to_size_t (len + 1)) by (destruct method; reflexivity).
  destruct (Z.leb_spec (to_size_t (len + 1)) len) as [| Hroom]; [discriminate |].
  unfold QFS_ReadFile_into.
  destruct (QFS_ReadFile fuel (Some h) len) as [[[n got] h'] | | |] eqn:Hread;
    try discriminate.
  cbn [mbind result_bind].
  destruct (Z.gtb_spec (Z.of_nat (length got)) (to_size_t (len + 1)));
    [discriminate |].
  cbn [mbind result_bind].
  destruct (Z.eqb_spec n len) as [-> | Hne]; [| discriminate].
  cbn [negb]. intros [= <- <- <-].
  pose proof (QFS_ReadFile_length _ _ _ _ _ _ Hlen Hread) as Hgot.
  assert (Hlen_got : (length got <= Z.to_nat len)%nat) by lia.
  assert (Hbuf : (Some <$> got)
                 ++ drop (length got) (replicate (Z.to_nat len) None ++ [Some x00])
                 = (Some <$> got)
                   ++ replicate (Z.to_nat len - length got) None ++ [Some x00]).
  { f_equal. rewrite drop_app_le by (rewrite length_replicate; exact Hlen_got).
    rewrite drop_replicate. reflexivity. }
  exists h, sz, len, got, h'.
  split; [reflexivity |]. split; [exact Hsize |].
  split; [exact Hsz |]. split; [reflexivity |]. split; [reflexivity |].
  split; [exact Hread |].
  split; [exact Hgot |]. split; [exact Hbuf |].
  split.
  { rewrite Hbuf, !length_app, length_fmap, length_replicate. cbn. lia. }
  split.
  { rewrite Hbuf, app_assoc.
    rewrite lookup_app_r
      by (rewrite length_app, length_fmap, length_replicate; lia).
    rewrite length_app, length_fmap, length_replicate.
    replace (Z.to_nat len - (length got + (Z.to_nat len - length got)))%nat
      with 0%nat by lia.
    reflexivity. }
  split; [reflexivity |].
  destruct h' as [h' |]; [apply call_close_releases_handle |].
  unfold QFS_ReadFile in Hread. rewrite Hfsz in Hread.
  cbn in Hread. destruct (call_read _ _ _) as [[[? ?] ?] | | |]; discriminate.
Qed.

End TextAndLoadFacts.

(** ** WAV streams *)

Section WaveFacts.
Context `{miniz : Miniz}.
Variable WAV_FORMAT_PCM : Z.

Lemma FGetLittleLong_range (fuel : nat) (f f' : option qfshandle_t)
    (ok ok' : bool) (v : Z) :
  FGetLittleLong fuel f ok = Ok (v, ok', f') -> - 2 ^ 31 <= v < 2 ^ 31.
Proof.
  unfold FGetLittleLong.
  destruct (QFS_ReadFile_into fuel f 4 4) as [[[n got] f1] | | |];
    try discriminate.
  cbn. intros [= <- _ _]. apply int_le_at_range.
Qed.

Lemma WAV_ReadChunkInfo_range (fuel : nat) (f f' : option qfshandle_t)
    (len : Z) (name : list byte) :
  WAV_ReadChunkInfo fuel f = Ok (len, name, f') ->
  -1 <= len < 2 ^ 31.
Proof.
  unfold WAV_ReadChunkInfo.
  destruct (QFS_ReadFile_into fuel f 5 4) as [[[n got] f1] | | |];
    try discriminate.
  cbn [mbind result_bind].
  destruct (negb (to_int n =? 4)).
  { intros [= <- _ _]. lia. }
  destruct (FGetLittleLong fuel f1 true) as [[[v ok] f2] | | |] eqn:Hv;
    try discriminate.
  pose proof (FGetLittleLong_range _ _ _ _ _ _ Hv) as Hr.
  cbn [mbind result_bind]. destruct (negb ok).
  { intros [= <- _ _]. lia. }
  destruct (Z.ltb_spec v 0).
  - intros [= <- _ _]. lia.
  - intros [= <- _ _]. lia.
Qed.

Lemma WAV_FindRIFFChunk_range (rounds fuel : nat) (f f' : option qfshandle_t)
    (chunk : list byte) (len : Z) :
  WAV_FindRIFFChunk rounds fuel f chunk = Ok (len, f') ->
  -1 <= len < 2 ^ 31.
Proof.
  revert f. induction rounds as [| rounds IH]; intros f; cbn [WAV_FindRIFFChunk];
    [discriminate |].
  destruct (WAV_ReadChunkInfo fuel f) as [[[len0 name] f1] | | |] eqn:Hinfo;
    try discriminate.
  pose proof (WAV_ReadChunkInfo_range _ _ _ _ _ Hinfo) as Hr.
  cbn [mbind result_bind]. destruct (len0 >=? 0).
  2: { intros [= <- _]. lia. }
  destruct (length name <? 4)%nat; [discriminate |].
  destruct (strncmp_is_0 name chunk 4).
  { intros [= <- _]. lia. }
  destruct (len0 =? INT_MAX); [discriminate |].
  destruct (QFS_Seek fuel f1 _ SEEK_CUR) as [[rc f2] | | |]; try discriminate.
  cbn [mbind result_bind]. apply IH.
Qed.

(** What a header that [WAV_ReadRIFFHeader] accepts says. *)
Lemma WAV_ReadRIFFHeader_accepts (rounds fuel : nat)
    (file file' : option qfshandle_t) (i : snd_info.snd_info_t) :
  WAV_ReadRIFFHeader WAV_FORMAT_PCM rounds fuel file = Ok (Some i, file') ->
  (snd_info.bits i = 8 \/ snd_info.bits i = 16)
  /\ snd_info.width i = snd_info.bits i / 8
  /\ (snd_info.channels i = 1 \/ snd_info.channels i = 2)
  /\ 0 < snd_info.samples i
  /\ snd_info.samples i
     = snd_info.size i / (snd_info.width i * snd_info.channels i)
  /\ snd_info.samples i * (snd_info.width i * snd_info.channels i)
     <= snd_info.size i < 2 ^ 31
  /\ snd_info.dataofs i = 0
  /\ - 2 ^ 31 <= snd_info.rate i < 2 ^ 31.
Proof.
  unfold WAV_ReadRIFFHeader.
  destruct (QFS_ReadFile_into fuel file 16 12) as [[[n dump] file1] | | |];
    try discriminate.
  cbn [mbind result_bind]. destruct (n <? 12); [discriminate |].
  destruct (length dump <? 12)%nat; [discriminate |].
  destruct (_ || _); [discriminate |].
  destruct (WAV_FindRIFFChunk rounds fuel file1 _) as [[fmtlen file2] | | |];
    try discriminate.
  cbn [mbind result_bind]. destruct (fmtlen <? 0); [discriminate |].
  destruct (FGetLittleShort fuel file2 true) as [[[wav_format ok3] file3] | | |];
    try discriminate.
  cbn [mbind result_bind]. destruct (_ || _); [discriminate |].
  destruct (FGetLittleShort fuel file3 ok3) as [[[channels ok4] file4] | | |];
    try discriminate.
  cbn [mbind result_bind].
  destruct (FGetLittleLong fuel file4 ok4) as [[[rate ok5] file5] | | |] eqn:Hrate;
    try discriminate.
  cbn [mbind result_bind].
  destruct (FGetLittleLong fuel file5 ok5) as [[[x6 ok6] file6] | | |];
    try discriminate.
  cbn [mbind result_bind].
  destruct (FGetLittleShort fuel file6 ok6) as [[[x7 ok7] file7] | | |];
    try discriminate.
  cbn [mbind result_bind].
  destruct (FGetLittleShort fuel file7 ok7) as [[[bits ok8] file8] | | |];
    try discriminate.
  cbn [mbind result_bind]. destruct (negb ok8); [discriminate |].
  destruct (negb (bits =? 8) && negb (bits =? 16)) eqn:Hbits; [discriminate |].
  destruct (if fmtlen >? 16 then _ else Ok file8) as [file9 | | |];
    try discriminate.
  cbn [mbind result_bind].
  destruct (WAV_FindRIFFChunk rounds fuel file9 _) as [[size file10] | | |] eqn:Hdata;
    try discriminate.
  cbn [mbind result_bind].
  destruct (Z.ltb_spec size 0) as [| Hsize]; [discriminate |].
  destruct (negb (channels =? 1) && negb (channels =? 2)) eqn:Hch;
    [discriminate |].
  destruct (Z.eqb_spec (size ÷ (bits ÷ 8) ÷ channels) 0) as [| Hsamples];
    [discriminate |].
  intros [= <- _]. cbn.
  assert (Hb : bits = 8 \/ bits = 16).
  { destruct (Z.eqb_spec bits 8); [auto |].
    destruct (Z.eqb_spec bits 16); [auto | discriminate]. }
  assert (Hc : channels = 1 \/ channels = 2).
  { destruct (Z.eqb_spec channels 1); [auto |].
    destruct (Z.eqb_spec channels 2); [auto | discriminate]. }
  pose proof (WAV_FindRIFFChunk_range _ _ _ _ _ _ Hdata) as Hrange.
  assert (Hw : bits ÷ 8 = bits / 8 /\ 1 <= bits / 8 <= 2).
  { destruct Hb as [-> | ->];
      (split; [reflexivity | vm_compute; split; discriminate]). }
  destruct Hw as [Hw Hw'].
  pose proof (FGetLittleLong_range _ _ _ _ _ _ Hrate) as Hrate'.
  rewrite Hw in *.
  assert (Hq : size ÷ (bits / 8) ÷ channels = size / (bits / 8 * channels)).
  { rewrite (Z.quot_div_nonneg size (bits / 8)) by lia.
    rewrite Z.quot_div_nonneg; [| apply Z.div_pos; lia | lia].
    rewrite Z.div_div; lia. }
  rewrite Hq in *.
  assert (Hpos : 0 <= size / (bits / 8 * channels)) by (apply Z.div_pos; lia).
  pose proof (Z.mul_div_le size (bits / 8 * channels) ltac:(lia)) as Hmul.
  repeat split; try assumption; try lia.
Qed.

(** X13.  A stream that [S_WAV_CodecOpenStream] accepts, from any handle
    and through any back end: the sample size is 8 or 16 bits and [width]
    is that in bytes, there are one or two channels, the data chunk holds
    at least one sample, [samples] is the number of whole sample frames in
    [size] bytes, and the chunk, which begins where the handle is left,
    ends inside the file. *)
Theorem S_WAV_CodecOpenStream_accepts (rounds fuel : nat)
    (file file' : option qfshandle_t) (stream : snd_stream_t) :
  S_WAV_CodecOpenStream WAV_FORMAT_PCM rounds fuel file
    = Ok (Some stream, file') ->
  fh stream = file'
  /\ (snd_info.bits (info stream) = 8 \/ snd_info.bits (info stream) = 16)
  /\ snd_info.width (info stream) = snd_info.bits (info stream) / 8
  /\ (snd_info.channels (info stream) = 1
      \/ snd_info.channels (info stream) = 2)
  /\ 0 < snd_info.samples (info stream)
  /\ snd_info.samples (info stream)
     = snd_info.size (info stream)
       / (snd_info.width (info stream) * snd_info.channels (info stream))
  /\ snd_info.samples (info stream)
     * (snd_info.width (info stream) * snd_info.channels (info stream))
     <= snd_info.size (info stream) < 2 ^ 31
  /\ snd_info.dataofs (info stream) = 0
  /\ exists fsz,
       QFS_FileSize file' = Ok fsz
       /\ QFS_Tell file' + snd_info.size (info stream) <= fsz.
Proof.
  unfold S_WAV_CodecOpenStream.
  destruct (WAV_ReadRIFFHeader WAV_FORMAT_PCM rounds fuel file)
    as [[[i |] file1] | | |] eqn:Hhdr; try discriminate.
  cbn [mbind result_bind].
  destruct (QFS_FileSize file1) as [fsz | | |] eqn:Hfsz; try discriminate.
  cbn [mbind result_bind].
  destruct (Z.gtb_spec (QFS_Tell file1 + snd_info.size i) fsz) as [| Hfits];
    [discriminate |].
  intros [= <- <-]. cbn [fh info].
  destruct (WAV_ReadRIFFHeader_accepts _ _ _ _ _ Hhdr)
    as (Hb & Hw & Hc & Hs & Hn & Hsz & Hd & _).
  repeat split; try assumption; try apply Hsz.
  exists fsz. split; [exact Hfsz | exact Hfits].
Qed.

End WaveFacts.

(** ** A WAV file in its plainest layout, read back *)

Lemma byte_of_Z_value (v : Z) : Z.of_N (Byte.to_N (byte_of_Z v)) = v mod 256.
Proof.
  unfold byte_of_Z.
  pose proof (Z.mod_pos_bound v 256 ltac:(lia)) as Hb.
  destruct (Byte.of_N (Z.to_N (v mod 256))) as [b |] eqn:Hof.
  - apply Byte.to_of_N in Hof. cbn. rewrite Hof. lia.
  - apply Byte.of_N_None_iff in Hof. lia.
Qed.

Lemma le32_value (w : Z) :
  0 <= w < 2 ^ 32 ->
  (Z.shiftr w (8 * 0)) mod 256 + (Z.shiftr w (8 * 1)) mod 256 * 2 ^ 8
  + (Z.shiftr w (8 * 2)) mod 256 * 2 ^ 16 + (Z.shiftr w (8 * 3)) mod 256 * 2 ^ 24
  = w.
Proof.
  intros Hw.
  rewrite !Z.shiftr_div_pow2 by lia.
  change (2 ^ (8 * 0)) with 1. change (2 ^ (8 * 1)) with 256.
  change (2 ^ (8 * 2)) with 65536. change (2 ^ (8 * 3)) with 16777216.
  change (2 ^ 8) with 256. change (2 ^ 16) with 65536.
  change (2 ^ 24) with 16777216.
  change (2 ^ 32) with 4294967296 in Hw.
  rewrite Z.div_1_r.
  replace (w / 65536) with (w / 256 / 256)
    by (rewrite Z.div_div by lia; reflexivity).
  replace (w / 16777216) with (w / 256 / 256 / 256)
    by (rewrite !Z.div_div by lia; reflexivity).
  pose proof (Z.div_mod w 256 ltac:(lia)).
  pose proof (Z.div_mod (w / 256) 256 ltac:(lia)).
  pose proof (Z.div_mod (w / 256 / 256) 256 ltac:(lia)).
  pose proof (Z.div_mod (w / 256 / 256 / 256) 256 ltac:(lia)).
  pose proof (Z.mod_pos_bound w 256 ltac:(lia)).
  pose proof (Z.mod_pos_bound (w / 256) 256 ltac:(lia)).
  pose proof (Z.mod_pos_bound (w / 256 / 256) 256 ltac:(lia)).
  pose proof (Z.mod_pos_bound (w / 256 / 256 / 256) 256 ltac:(lia)).
  assert (w / 256 / 256 / 256 / 256 = 0).
  { rewrite !Z.div_div by lia. apply Z.div_small. lia. }
  lia.
Qed.

Lemma le16_value (w : Z) :
  0 <= w < 2 ^ 16 ->
  (Z.shiftr w (8 * 0)) mod 256 + (Z.shiftr w (8 * 1)) mod 256 * 2 ^ 8 = w.
Proof.
  intros Hw.
  rewrite !Z.shiftr_div_pow2 by lia.
  change (2 ^ (8 * 0)) with 1. change (2 ^ (8 * 1)) with 256.
  change (2 ^ 8) with 256. change (2 ^ 16) with 65536 in Hw.
  rewrite Z.div_1_r.
  pose proof (Z.div_mod w 256 ltac:(lia)).
  pose proof (Z.mod_pos_bound w 256 ltac:(lia)).
  assert (w / 256 / 256 = 0).
  { rewrite Z.div_div by lia. apply Z.div_small. lia. }
  pose proof (Z.div_mod (w / 256) 256 ltac:(lia)).
  lia.
Qed.

Lemma to_short_small (z : Z) : - 2 ^ 15 <= z < 2 ^ 15 -> to_short z = z.
Proof. intros Hz. unfold to_short. rewrite Z.mod_small by lia. lia. Qed.

Lemma byte_at_app_r (pre post : list byte) (p k : nat) :
  length pre = p -> byte_at (pre ++ post) (p + k) = byte_at post k.
Proof.
  intros <-. unfold byte_at. rewrite lookup_app_r by lia.
  replace (length pre + k - length pre)%nat with k by lia. reflexivity.
Qed.

(** The integer that [le32] stores is the one [int_le_at] reads. *)
Lemma int_le_at_le32 (pre post : list byte) (z : Z) (p : nat) :
  length pre = p -> int_le_at (pre ++ le32 z ++ post) p = to_int z.
Proof.
  intros Hp. unfold int_le_at.
  rewrite <- (Nat.add_0_r p) at 1.
  rewrite !(byte_at_app_r pre _ p) by exact Hp.
  unfold le32, byte_at. cbn [map app lookup list_lookup].
  rewrite !byte_of_Z_value.
  rewrite le32_value by (apply Z.mod_pos_bound; lia).
  unfold to_int.
  rewrite <- (Z.add_mod_idemp_l z) by lia.
  change (2 ^ 32) with 4294967296.
  reflexivity.
Qed.

Lemma short_le_at_le16 (pre post : list byte) (z : Z) (p : nat) :
  length pre = p -> short_le_at (pre ++ le16 z ++ post) p = to_short z.
Proof.
  intros Hp. unfold short_le_at.
  rewrite <- (Nat.add_0_r p) at 1.
  rewrite !(byte_at_app_r pre _ p) by exact Hp.
  unfold le16, byte_at. cbn [map app lookup list_lookup].
  rewrite !byte_of_Z_value.
  rewrite le16_value by (apply Z.mod_pos_bound; lia).
  unfold to_short.
  rewrite <- (Z.add_mod_idemp_l z) by lia.
  reflexivity.
Qed.


Section WaveRoundTrip.
Context `{miniz : Miniz}.
Variable WAV_FORMAT_PCM : Z.

Lemma FGetLittleLong_loose (fuel : nat) (bytes : list byte) (p : Z) (ok : bool) :
  0 <= p -> p + 4 <= Z.of_nat (length bytes) ->
  Z.of_nat (length bytes) < 2 ^ 63 ->
  FGetLittleLong fuel (Some (loose_handle bytes p)) ok =
    Ok (int_le_at bytes (Z.to_nat p), ok, Some (loose_handle bytes (p + 4))).
Proof.
  intros Hp Hfits Hlen. unfold FGetLittleLong.
  rewrite loose_handle_read_into by lia. cbn [mbind result_bind].
  change (Z.to_nat 4) with 4%nat.
  rewrite int_le_at_take by lia. rewrite int_le_at_drop, Nat.add_0_r.
  rewrite andb_true_r. reflexivity.
Qed.

Lemma FGetLittleShort_loose (fuel : nat) (bytes : list byte) (p : Z) (ok : bool) :
  0 <= p -> p + 2 <= Z.of_nat (length bytes) ->
  Z.of_nat (length bytes) < 2 ^ 63 ->
  FGetLittleShort fuel (Some (loose_handle bytes p)) ok =
    Ok (short_le_at bytes (Z.to_nat p), ok, Some (loose_handle bytes (p + 2))).
Proof.
  intros Hp Hfits Hlen. unfold FGetLittleShort.
  rewrite loose_handle_read_into by lia. cbn [mbind result_bind].
  change (Z.to_nat 2) with 2%nat.
  unfold short_le_at. rewrite !byte_at_take by lia.
  rewrite !byte_at_drop, Nat.add_0_r.
  rewrite andb_true_r. reflexivity.
Qed.

(** The chunk that begins at [p] is the one looked for. *)
Lemma WAV_FindRIFFChunk_loose (rounds fuel : nat) (bytes chunk : list byte)
    (p : Z) :
  0 <= p -> p + 8 <= Z.of_nat (length bytes) ->
  Z.of_nat (length bytes) < 2 ^ 63 ->
  0 <= int_le_at bytes (Z.to_nat (p + 4)) ->
  strncmp_is_0 (take 4 (drop (Z.to_nat p) bytes)) chunk 4 = true ->
  WAV_FindRIFFChunk (S rounds) fuel (Some (loose_handle bytes p)) chunk =
    Ok (int_le_at bytes (Z.to_nat (p + 4)), Some (loose_handle bytes (p + 8))).
Proof.
  intros Hp Hfits Hlen Hnonneg Hname.
  cbn [WAV_FindRIFFChunk]. unfold WAV_ReadChunkInfo.
  rewrite loose_handle_read_into by lia. cbn [mbind result_bind].
  change (to_int 4 =? 4) with true. cbn [negb].
  rewrite FGetLittleLong_loose by lia. cbn [mbind result_bind negb].
  destruct (Z.ltb_spec (int_le_at bytes (Z.to_nat (p + 4))) 0); [lia |].
  cbn [mbind result_bind].
  destruct (Z.geb_spec (int_le_at bytes (Z.to_nat (p + 4))) 0); [| lia].
  change (Z.to_nat 4) with 4%nat.
  rewrite length_take, length_drop.
  destruct (Nat.ltb_spec (Nat.min 4 (length bytes - Z.to_nat p)) 4); [lia |].
  rewrite Hname. replace (p + 4 + 4) with (p + 8) by lia. reflexivity.
Qed.

End WaveRoundTrip.


(** Where the fields of the plain layout lie. *)
Lemma wav_file_layout (format channels rate bits : Z) (data : list byte) :
  let file := wav_file format channels rate bits data in
  Z.of_nat (length file) = 44 + Z.of_nat (length data)
  /\ strncmp_is_0 (take 12 file) (bytes_of_string "RIFF") 4 = true
  /\ strncmp_is_0 (drop 8 (take 12 file)) (bytes_of_string "WAVE") 4 = true
  /\ strncmp_is_0 (take 4 (drop 12 file)) (bytes_of_string "fmt ") 4 = true
  /\ int_le_at file 16 = 16
  /\ short_le_at file 20 = to_short format
  /\ short_le_at file 22 = to_short channels
  /\ int_le_at file 24 = to_int rate
  /\ short_le_at file 34 = to_short bits
  /\ strncmp_is_0 (take 4 (drop 36 file)) (bytes_of_string "data") 4 = true
  /\ int_le_at file 40 = to_int (Z.of_nat (length data))
  /\ drop 44 file = data.
Proof.
  intros file. subst file. unfold wav_file.
  set (riff := le32 (36 + Z.of_nat (length data))).
  set (byterate := le32 (rate * channels * (bits / 8))).
  set (align := le16 (channels * (bits / 8))).
  assert (Hriff : length riff = 4%nat) by reflexivity.
  assert (Hbyterate : length byterate = 4%nat) by reflexivity.
  assert (Halign : length align = 2%nat) by reflexivity.
  destruct riff as [| r0 [| r1 [| r2 [| r3 [| ? ?]]]]]; try discriminate.
  destruct byterate as [| b0 [| b1 [| b2 [| b3 [| ? ?]]]]]; try discriminate.
  destruct align as [| a0 [| a1 [| ? ?]]]; try discriminate.
  split.
  { rewrite !length_app. cbn. lia. }
  split; [reflexivity |]. split; [reflexivity |]. split; [reflexivity |].
  split.
  { apply (int_le_at_le32
             (bytes_of_string "RIFF" ++ [r0; r1; r2; r3]
              ++ bytes_of_string "WAVE" ++ bytes_of_string "fmt ") _ 16 16).
    reflexivity. }
  split.
  { apply (short_le_at_le16
             (bytes_of_string "RIFF" ++ [r0; r1; r2; r3]
              ++ bytes_of_string "WAVE" ++ bytes_of_string "fmt "
              ++ le32 16) _ format 20).
    reflexivity. }
  split.
  { apply (short_le_at_le16
             (bytes_of_string "RIFF" ++ [r0; r1; r2; r3]
              ++ bytes_of_string "WAVE" ++ bytes_of_string "fmt "
              ++ le32 16 ++ le16 format) _ channels 22).
    reflexivity. }
  split.
  { apply (int_le_at_le32
             (bytes_of_string "RIFF" ++ [r0; r1; r2; r3]
              ++ bytes_of_string "WAVE" ++ bytes_of_string "fmt "
              ++ le32 16 ++ le16 format ++ le16 channels) _ rate 24).
    reflexivity. }
  split.
  { apply (short_le_at_le16
             (bytes_of_string "RIFF" ++ [r0; r1; r2; r3]
              ++ bytes_of_string "WAVE" ++ bytes_of_string "fmt "
              ++ le32 16 ++ le16 format ++ le16 channels ++ le32 rate
              ++ [b0; b1; b2; b3] ++ [a0; a1]) _ bits 34).
    reflexivity. }
  split; [reflexivity |].
  split.
  { apply (int_le_at_le32
             (bytes_of_string "RIFF" ++ [r0; r1; r2; r3]
              ++ bytes_of_string "WAVE" ++ bytes_of_string "fmt "
              ++ le32 16 ++ le16 format ++ le16 channels ++ le32 rate
              ++ [b0; b1; b2; b3] ++ [a0; a1] ++ le16 bits
              ++ bytes_of_string "data") data (Z.of_nat (length data)) 40).
    reflexivity. }
  reflexivity.
Qed.


Section WavePlainFile.
Context `{miniz : Miniz}.
Variable WAV_FORMAT_PCM : Z.

(** X14.  A WAV file in the plain layout -- "RIFF", the length, "WAVE", a
    format chunk of 16 bytes naming PCM, one or two channels, a rate and 8
    or 16 bits, then the data chunk with at least one sample frame --
    opened as a loose file: [S_WAV_CodecOpenStream] accepts it, [info]
    holds the channels, the rate and the bits the file was written with,
    the width in bytes, the length of the data and the number of sample
    frames, and the handle is left at byte 44, where the data begins. *)
Theorem S_WAV_CodecOpenStream_plain_file (rounds fuel : nat)
    (channels rate bits : Z) (data : list byte) :
  - 2 ^ 15 <= WAV_FORMAT_PCM < 2 ^ 15 ->
  channels = 1 \/ channels = 2 ->
  bits = 8 \/ bits = 16 ->
  - 2 ^ 31 <= rate < 2 ^ 31 ->
  bits / 8 * channels <= Z.of_nat (length data) < 2 ^ 31 - 44 ->
  let file := wav_file WAV_FORMAT_PCM channels rate bits data in
  S_WAV_CodecOpenStream WAV_FORMAT_PCM (S rounds) fuel
    (Some (loose_handle file 0))
  = Ok (Some (mk_stream (Some (loose_handle file 44))
                (snd_info.mk rate bits (bits / 8) channels
                   (Z.of_nat (length data) / (bits / 8 * channels))
                   (Z.of_nat (length data)) 0)),
        Some (loose_handle file 44)).
Proof.
  intros Hformat Hchannels Hbits Hrate Hdata file.
  destruct (wav_file_layout WAV_FORMAT_PCM channels rate bits data)
    as (Hlen & Hriff & Hwave & Hfmt & Hfmtlen & Hfmt_tag & Hch & Hrt & Hbt
        & Hdat & Hsize & _).
  fold file in Hlen, Hriff, Hwave, Hfmt, Hfmtlen, Hfmt_tag, Hch, Hrt, Hbt,
    Hdat, Hsize.
  clearbody file.
  assert (Hw : 1 <= bits / 8 <= 2 /\ bits ÷ 8 = bits / 8).
  { destruct Hbits as [-> | ->];
      (split; [vm_compute; split; discriminate | reflexivity]). }
  destruct Hw as [Hw Hquot].
  rewrite (to_short_small WAV_FORMAT_PCM) in Hfmt_tag by lia.
  rewrite (to_short_small channels) in Hch by lia.
  rewrite (to_short_small bits) in Hbt by lia.
  rewrite (to_int_small rate) in Hrt by lia.
  rewrite (to_int_small (Z.of_nat (length data))) in Hsize by lia.
  unfold S_WAV_CodecOpenStream, WAV_ReadRIFFHeader.
  rewrite loose_handle_read_into by lia. cbn [mbind result_bind].
  change (12 <? 12) with false. cbn iota.
  change (Z.to_nat 0) with 0%nat. change (Z.to_nat 12) with 12%nat.
  rewrite drop_0, length_take.
  destruct (Nat.ltb_spec (Nat.min 12 (length file)) 12); [lia |].
  rewrite Hriff, Hwave. cbn [negb orb].
  rewrite WAV_FindRIFFChunk_loose; try lia.
  2: { change (Z.to_nat (0 + 12 + 4)) with 16%nat. lia. }
  2: { exact Hfmt. }
  cbn [mbind result_bind].
  change (Z.to_nat (0 + 12 + 4)) with 16%nat. rewrite Hfmtlen.
  change (16 <? 0) with false. cbn iota.
  rewrite FGetLittleShort_loose by lia. cbn [mbind result_bind].
  change (Z.to_nat (0 + 12 + 8)) with 20%nat. rewrite Hfmt_tag.
  rewrite Z.eqb_refl. cbn [negb orb].
  rewrite FGetLittleShort_loose by lia. cbn [mbind result_bind].
  rewrite FGetLittleLong_loose by lia. cbn [mbind result_bind].
  rewrite FGetLittleLong_loose by lia. cbn [mbind result_bind].
  rewrite FGetLittleShort_loose by lia. cbn [mbind result_bind].
  rewrite FGetLittleShort_loose by lia. cbn [mbind result_bind negb].
  change (Z.to_nat (0 + 12 + 8 + 2)) with 22%nat.
  change (Z.to_nat (0 + 12 + 8 + 2 + 2)) with 24%nat.
  change (Z.to_nat (0 + 12 + 8 + 2 + 2 + 4 + 4 + 2)) with 34%nat.
  rewrite Hch, Hrt, Hbt.
  assert (Hbits' : negb (bits =? 8) && negb (bits =? 16) = false)
    by (destruct Hbits as [-> | ->]; reflexivity).
  rewrite Hbits'. change (16 >? 16) with false. cbn [mbind result_bind].
  rewrite WAV_FindRIFFChunk_loose; try lia.
  2: { change (Z.to_nat (0 + 12 + 8 + 2 + 2 + 4 + 4 + 2 + 2 + 4)) with 40%nat.
       lia. }
  2: { exact Hdat. }
  cbn [mbind result_bind].
  change (Z.to_nat (0 + 12 + 8 + 2 + 2 + 4 + 4 + 2 + 2 + 4)) with 40%nat.
  rewrite Hsize.
  destruct (Z.ltb_spec (Z.of_nat (length data)) 0); [lia |].
  assert (Hch' : negb (channels =? 1) && negb (channels =? 2) = false)
    by (destruct Hchannels as [-> | ->]; reflexivity).
  rewrite Hch', Hquot.
  assert (Hsamples : Z.of_nat (length data) ÷ (bits / 8) ÷ channels
                     = Z.of_nat (length data) / (bits / 8 * channels)).
  { rewrite (Z.quot_div_nonneg (Z.of_nat (length data)) (bits / 8)) by lia.
    rewrite Z.quot_div_nonneg; [| apply Z.div_pos; lia | lia].
    rewrite Z.div_div; lia. }
  rewrite Hsamples.
  assert (Hpos : 1 <= Z.of_nat (length data) / (bits / 8 * channels)).
  { apply Z.div_le_lower_bound; lia. }
  destruct (Z.eqb_spec (Z.of_nat (length data) / (bits / 8 * channels)) 0);
    [lia |].
  cbn [mbind result_bind].
  change (0 + 12 + 8 + 2 + 2 + 4 + 4 + 2 + 2 + 8) with 44.
  unfold QFS_FileSize, QFS_Tell, call_filesize.
  cbn -[Z.add Z.gtb Z.of_nat Z.div].
  unfold Sys_filelength. cbn [f_bytes]. rewrite Hlen.
  destruct (Z.gtb_spec (44 - 0 + Z.of_nat (length data))
              (44 + Z.of_nat (length data) - 0 - 0)); [lia |].
  reflexivity.
Qed.

End WavePlainFile.


Section WaveReads.
Context `{miniz : Miniz}.

(** X15.  On a stream over a loose file that holds at least [info.size]
    bytes, with the handle at file offset [p]: [S_WAV_CodecReadStream]
    takes what is left to be [info.size - p], counted from the start of
    the file; when that is not positive it returns 0 and reads nothing,
    otherwise it returns the smaller of the bytes asked for and what is
    left, hands out the bytes of the file from [p] on and moves the handle
    past them.  [S_WAV_CodecRewindStream] returns 0 and puts the handle at
    offset 0 of the file. *)
Theorem S_WAV_CodecReadStream_loose_file (fuel : nat) (file : list byte)
    (p bytes : Z) (i : snd_info.snd_info_t) :
  0 <= p <= Z.of_nat (length file) ->
  snd_info.size i <= Z.of_nat (length file) < 2 ^ 31 ->
  0 < bytes < 2 ^ 31 ->
  let stream := mk_stream (Some (loose_handle file p)) i in
  let remaining := snd_info.size i - p in
  let b := Z.min bytes remaining in
  S_WAV_CodecReadStream fuel stream bytes =
    (if remaining <=? 0 then Ok (0, [], stream)
     else Ok (b, take (Z.to_nat b) (drop (Z.to_nat p) file),
              mk_stream (Some (loose_handle file (p + b))) i))
  /\ S_WAV_CodecRewindStream fuel stream
     = Ok (0, mk_stream (Some (loose_handle file 0)) i).
Proof.
  intros Hp Hsize Hbytes stream remaining b. split.
  - unfold S_WAV_CodecReadStream. cbn [fh info stream QFS_Tell].
    change (offs (loose_handle file p) - start (loose_handle file p))
      with (p - 0).
    rewrite Z.sub_0_r, (to_int_small p) by lia. fold remaining.
    destruct (Z.leb_spec remaining 0) as [| Hleft]; [reflexivity |].
    replace (if bytes >? remaining then remaining else bytes) with b
      by (subst b; destruct (Z.gtb_spec bytes remaining); lia).
    assert (Hb : 0 < b <= remaining) by (subst b; lia).
    rewrite (to_size_t_small b) by lia.
    rewrite loose_handle_read by (subst remaining; lia).
    cbn [mbind result_bind]. rewrite Z.eqb_refl. reflexivity.
  - unfold S_WAV_CodecRewindStream, QFS_Seek, QFS_Seek_target.
    cbn [fh info stream].
    change (SEEK_SET =? SEEK_SET) with true. cbn [mbind result_bind].
    unfold call_filesize, call_seek, FS_Seek, FS_FileSize, Sys_filelength,
      Sys_fseek.
    cbn -[Z.add Z.gtb Z.ltb Z.of_nat Z.sub].
    destruct (Z.gtb_spec (0 + 0) (Z.of_nat (length file) - (0 + 0))); [lia |].
    reflexivity.
Qed.

End WaveReads.

(** ** Alias model meshes *)

Lemma array_get_Some {A : Type} (l : list A) (i : Z) (x : A) :
  0 <= i -> l !! Z.to_nat i = Some x -> array_get (Some l) i = Ok x.
Proof.
  intros Hi Hx. unfold array_get.
  destruct (Z.ltb_spec i 0); [lia |]. rewrite Hx. reflexivity.
Qed.

Lemma array_get_inv {A : Type} (l : list A) (i : Z) (x : A) :
  array_get (Some l) i = Ok x -> 0 <= i /\ l !! Z.to_nat i = Some x.
Proof.
  unfold array_get. destruct (Z.ltb_spec i 0); [discriminate |].
  destruct (l !! Z.to_nat i); [| discriminate].
  intros [= ->]. auto.
Qed.

Lemma array_set_Some {A : Type} (l : list A) (i : Z) (x : A) :
  0 <= i < Z.of_nat (length l) ->
  array_set l i x = Ok (<[Z.to_nat i := x]> l).
Proof.
  intros Hi. unfold array_set.
  destruct (Z.ltb_spec i 0); [lia |].
  destruct (Z.leb_spec (Z.of_nat (length l)) i); [lia |]. reflexivity.
Qed.

(** Slots of the remap table that hold a vertex. *)
Lemma filter_nonzero_insert (l : list Z) (v : nat) (x : Z) :
  l !! v = Some 0 -> x <> 0 ->
  length (filter (fun r => r <> 0) (<[v := x]> l))
  = S (length (filter (fun r => r <> 0) l)).
Proof.
  revert v. induction l as [| a l IH]; intros v Hv Hx; [discriminate |].
  destruct v as [| v]; cbn in Hv.
  - injection Hv as ->.
    change (<[0%nat := x]> (0 :: l)) with (x :: l).
    rewrite filter_cons_True by exact Hx.
    rewrite filter_cons_False by (intros H; apply H; reflexivity).
    reflexivity.
  - change (<[S v := x]> (a :: l)) with (a :: <[v := x]> l).
    rewrite !filter_cons. destruct (decide (a <> 0)); cbn [length];
      rewrite (IH v Hv Hx); reflexivity.
Qed.

Lemma filter_nonzero_room (l : list Z) (v : nat) :
  l !! v = Some 0 ->
  (length (filter (fun r : Z => r <> 0%Z) l) < length l)%nat.
Proof.
  revert v. induction l as [| a l IH]; intros v Hv; [discriminate |].
  destruct v as [| v]; cbn in Hv.
  - injection Hv as ->.
    rewrite filter_cons_False by (intros H; apply H; reflexivity).
    pose proof (length_filter (fun r => r <> 0) l). cbn. lia.
  - specialize (IH v Hv). rewrite filter_cons.
    destruct (decide (a <> 0)); cbn; lia.
Qed.

Lemma corners_S (n : nat) :
  corners (Z.of_nat (S n))
  = corners (Z.of_nat n)
    ++ [(Z.of_nat n, 0); (Z.of_nat n, 1); (Z.of_nat n, 2)].
Proof.
  unfold corners. rewrite !Nat2Z.id, seq_S, map_app, flat_map_app.
  cbn. reflexivity.
Qed.

Lemma corners_length (n : nat) : length (corners (Z.of_nat n)) = (3 * n)%nat.
Proof.
  induction n as [| n IH]; [reflexivity |].
  rewrite corners_S, length_app, IH. cbn. lia.
Qed.

Lemma corners_lookup (n : nat) (k : nat) (i j : Z) :
  corners (Z.of_nat n) !! k = Some (i, j) ->
  0 <= i < Z.of_nat n /\ 0 <= j < 3 /\ Z.of_nat k = 3 * i + j.
Proof.
  induction n as [| n IH]; [discriminate |].
  rewrite corners_S. intros Hk.
  apply lookup_app_Some in Hk. destruct Hk as [Hk | [Hge Hk]].
  - destruct (IH Hk) as (Hi & Hj & Heq). lia.
  - rewrite corners_length in Hge, Hk.
    destruct (k - 3 * n)%nat as [| [| [| ?]]] eqn:Hd; cbn in Hk;
      try discriminate; injection Hk as <- <-; lia.
Qed.

Lemma corners_at (n : nat) (i j : Z) :
  0 <= i < Z.of_nat n -> 0 <= j < 3 ->
  corners (Z.of_nat n) !! Z.to_nat (3 * i + j) = Some (i, j).
Proof.
  intros Hi Hj.
  destruct (corners (Z.of_nat n) !! Z.to_nat (3 * i + j)) as [[i' j'] |] eqn:Hk.
  - destruct (corners_lookup _ _ _ _ Hk) as (Hi' & Hj' & Heq).
    assert (i' = i /\ j' = j) as [-> ->] by lia. reflexivity.
  - apply lookup_ge_None in Hk. rewrite corners_length in Hk. lia.
Qed.

Lemma filter_nonzero_replicate (n : nat) :
  filter (fun r : Z => r <> 0) (replicate n 0) = [].
Proof.
  induction n as [| n IH]; [reflexivity |].
  cbn [replicate]. rewrite filter_cons_False by (intros H; apply H; reflexivity).
  exact IH.
Qed.

Lemma land_1_even (a : Z) : Z.land (a * 2) 1 = 0.
Proof.
  change 1 with (Z.ones 1). rewrite Z.land_ones by lia.
  change (2 ^ 1) with 2. apply Z.mod_mul. lia.
Qed.

Lemma land_1_odd (a : Z) : Z.land (a * 2 + 1) 1 = 1.
Proof.
  change 1 with (Z.ones 1) at 2. rewrite Z.land_ones by lia.
  change (2 ^ 1) with 2.
  rewrite Z.add_comm, Z.mod_add by lia. reflexivity.
Qed.

Section MeshFacts.
Variables (skinwidth numverts : Z).
Variables (triangles : list mtriangle.mtriangle_t).
Variables (stverts : list stvert.stvert_t).
Hypothesis Hnumverts : 0 <= numverts /\ numverts * 2 <= 65535.
Hypothesis Hstverts : numverts <= Z.of_nat (length stverts).

Lemma remap_slot_inv (i j vi v : Z) :
  remap_slot triangles stverts i j = Ok (vi, v) ->
  exists tri,
    0 <= i /\ triangles !! Z.to_nat i = Some tri
    /\ vi = to_ushort (corner (mtriangle.vertindex tri) j)
    /\ ((v = vi * 2
         /\ (mtriangle.facesfront tri <> 0
             \/ exists st, stverts !! Z.to_nat vi = Some st
                           /\ stvert.onseam st = 0))
        \/ (v = vi * 2 + 1
            /\ mtriangle.facesfront tri = 0
            /\ exists st, stverts !! Z.to_nat vi = Some st
                          /\ stvert.onseam st <> 0)).
Proof.
  unfold remap_slot.
  destruct (array_get (Some triangles) i) as [tri | | |] eqn:Htri;
    try discriminate.
  apply array_get_inv in Htri. destruct Htri as [Hi Htri].
  cbn [mbind result_bind].
  destruct (Z.eqb_spec (mtriangle.facesfront tri) 0) as [Hff | Hff].
  - destruct (array_get (Some stverts) _) as [st | | |] eqn:Hst;
      try discriminate.
    apply array_get_inv in Hst. destruct Hst as [_ Hst].
    cbn [mbind result_bind].
    destruct (Z.eqb_spec (stvert.onseam st) 0) as [Hos | Hos]; cbn [negb];
      intros [= <- <-]; exists tri; repeat split; try assumption.
    + left. split; [reflexivity |]. right. eauto.
    + right. split; [reflexivity |]. split; [exact Hff |]. eauto.
  - cbn [mbind result_bind]. intros [= <- <-].
    exists tri. repeat split; try assumption.
    left. split; [reflexivity |]. left. exact Hff.
Qed.

Lemma remap_slot_total (i j : Z) (tri : mtriangle.mtriangle_t) :
  0 <= i -> triangles !! Z.to_nat i = Some tri ->
  0 <= corner (mtriangle.vertindex tri) j < numverts ->
  exists v,
    remap_slot triangles stverts i j
      = Ok (corner (mtriangle.vertindex tri) j, v)
    /\ (v = corner (mtriangle.vertindex tri) j * 2
        \/ v = corner (mtriangle.vertindex tri) j * 2 + 1).
Proof.
  intros Hi Htri Hc. unfold remap_slot.
  rewrite (array_get_Some _ _ _ Hi Htri). cbn [mbind result_bind].
  assert (Hus : to_ushort (corner (mtriangle.vertindex tri) j)
                = corner (mtriangle.vertindex tri) j).
  { unfold to_ushort. apply Z.mod_small. lia. }
  rewrite Hus.
  destruct (mtriangle.facesfront tri =? 0).
  - destruct (stverts !! Z.to_nat (corner (mtriangle.vertindex tri) j))
      as [st |] eqn:Hst.
    2: { apply lookup_ge_None in Hst. lia. }
    rewrite (array_get_Some _ _ _ (proj1 Hc) Hst). cbn [mbind result_bind].
    destruct (negb (stvert.onseam st =? 0)); eexists; split; eauto.
  - cbn [mbind result_bind]. eexists; split; eauto.
Qed.

(** The vertex of a slot is emitted when the sum for the back side of
    the seam is an [int]. *)
Lemma emitted_vertex_defined (i j vi v : Z) :
  (forall k st, stverts !! k = Some st -> stvert.onseam st <> 0 ->
     - 2 ^ 31 <= stvert.s st + skinwidth ÷ 2 < 2 ^ 31) ->
  remap_slot triangles stverts i j = Ok (vi, v) ->
  0 <= vi < numverts ->
  exists d, emitted_vertex skinwidth stverts vi v = Ok d.
Proof.
  intros Hsum Hslot Hvi. unfold emitted_vertex.
  destruct (stverts !! Z.to_nat vi) as [st |] eqn:Hst.
  2: { apply lookup_ge_None in Hst. lia. }
  rewrite (array_get_Some _ _ _ (proj1 Hvi) Hst). cbn [mbind result_bind].
  destruct (remap_slot_inv _ _ _ _ Hslot)
    as (tri & _ & _ & _ & [[-> _] | (-> & _ & st' & Hst' & Hseam)]).
  - rewrite land_1_even. cbn [Z.eqb negb mbind result_bind].
    eexists. reflexivity.
  - rewrite land_1_odd. cbn [Z.eqb negb Pos.eqb].
    rewrite Hst in Hst'. injection Hst' as <-.
    unfold int_add. specialize (Hsum _ _ Hst Hseam).
    destruct (Z.ltb_spec (stvert.s st + skinwidth ÷ 2) (- 2 ^ 31)); [lia |].
    destruct (Z.leb_spec (2 ^ 31) (stvert.s st + skinwidth ÷ 2)); [lia |].
    cbn [orb mbind result_bind]. eexists. reflexivity.
Qed.

(** The invariant of the loop, [done] being the corners visited: the
    table and the vertex list keep their sizes; [numverts_vbo] counts
    the slots taken; a slot that is taken holds the index, plus one, of
    the vertex emitted for it, and no two slots hold the same; and the
    index written for a corner visited is the one its slot holds. *)
Local Abbreviation mesh_invariant done m :=
  (length (remap m) = Z.to_nat (numverts * 2)
   /\ length (desc m) = Z.to_nat (numverts * 2)
   /\ numverts_vbo m
      = Z.of_nat (length (filter (fun r => r <> 0) (remap m)))
   /\ (forall v r, 0 <= v -> remap m !! Z.to_nat v = Some r -> r <> 0 ->
         1 <= r <= numverts_vbo m
         /\ exists d,
              emitted_vertex skinwidth stverts (v / 2) v = Ok d
              /\ desc m !! Z.to_nat (r - 1) = Some d)
   /\ (forall v v' r, 0 <= v -> 0 <= v' -> r <> 0 ->
         remap m !! Z.to_nat v = Some r -> remap m !! Z.to_nat v' = Some r ->
         v = v')
   /\ numindexes m = Z.of_nat (length done%list)
   /\ (forall k i j, done%list !! k = Some (i, j) ->
         exists vi v idx d,
           remap_slot triangles stverts i j = Ok (vi, v)
           /\ 0 <= v /\ remap m !! Z.to_nat v = Some (idx + 1)
           /\ indexes m !! k = Some idx
           /\ 0 <= idx < numverts_vbo m
           /\ emitted_vertex skinwidth stverts vi v = Ok d
           /\ desc m !! Z.to_nat idx = Some d)).

Lemma GL_MakeAliasModelDisplayLists_corner_invariant
    (done : list (Z * Z)) (i j : Z) (tri : mtriangle.mtriangle_t)
    (m : mesh_build) :
  mesh_invariant done m ->
  0 <= i -> triangles !! Z.to_nat i = Some tri ->
  0 <= corner (mtriangle.vertindex tri) j < numverts ->
  (length done < length (indexes m))%nat ->
  forall m',
    GL_MakeAliasModelDisplayLists_corner skinwidth triangles stverts i j m
      = Ok m' ->
    length (indexes m') = length (indexes m)
    /\ mesh_invariant (done ++ [(i, j)]) m'.
Proof.
  intros (Hremap & Hdesc & Hcount & Hslots & Hinj & Hnum & Hdone) Hi Htri Hc
    Hroom m'.
  destruct Hnumverts as [Hn0 Hn1].
  destruct (remap_slot_total i j tri Hi Htri Hc) as (v & Hslot & Hv).
  set (vi := corner (mtriangle.vertindex tri) j) in *.
  assert (Hvrange : 0 <= v < numverts * 2) by lia.
  assert (Hhalf : v / 2 = vi).
  { destruct Hv as [-> | ->]; symmetry.
    - apply (Z.div_unique (vi * 2) 2 vi 0); lia.
    - apply (Z.div_unique (vi * 2 + 1) 2 vi 1); lia. }
  unfold GL_MakeAliasModelDisplayLists_corner.
  rewrite Hslot. cbn [mbind result_bind].
  destruct (remap m !! Z.to_nat v) as [r |] eqn:Hr.
  2: { apply lookup_ge_None in Hr. lia. }
  rewrite (array_get_Some _ _ _ (proj1 Hvrange) Hr). cbn [mbind result_bind].
  pose proof (length_filter (fun r => r <> 0) (remap m)) as Hfilter.
  destruct (Z.eqb_spec r 0) as [-> | Hrnz].
  - (* a new vertex *)
    pose proof (filter_nonzero_room _ _ Hr) as Hfree.
    destruct (emitted_vertex skinwidth stverts vi v) as [d | | |] eqn:Hd;
      try discriminate.
    cbn [mbind result_bind].
    rewrite array_set_Some by lia. cbn [mbind result_bind].
    assert (Hus : to_ushort (numverts_vbo m + 1) = numverts_vbo m + 1).
    { unfold to_ushort. apply Z.mod_small. lia. }
    rewrite Hus.
    rewrite array_set_Some by lia. cbn [mbind result_bind remap].
    rewrite (array_get_Some _ _ (numverts_vbo m + 1)) by
      (try lia; apply list_lookup_insert_eq; lia).
    cbn [mbind result_bind indexes numindexes desc numverts_vbo].
    rewrite array_set_Some by lia. cbn [mbind result_bind].
    replace (numverts_vbo m + 1 - 1) with (numverts_vbo m) by lia.
    assert (Hus' : to_ushort (numverts_vbo m) = numverts_vbo m).
    { unfold to_ushort. apply Z.mod_small. lia. }
    rewrite Hus'.
    intros [= <-].
    cbn [remap desc indexes numverts_vbo numindexes].
    split; [apply length_insert |].
    split; [rewrite length_insert; exact Hremap |].
    split; [rewrite length_insert; exact Hdesc |].
    split.
    { rewrite filter_nonzero_insert by (try exact Hr; lia). lia. }
    split.
    { intros v' r' Hv' Hr' Hnz.
      destruct (Z.eq_dec v' v) as [-> | Hne].
      - rewrite list_lookup_insert_eq in Hr' by lia. injection Hr' as <-.
        split; [lia |]. exists d. rewrite Hhalf. split; [exact Hd |].
        replace (numverts_vbo m + 1 - 1) with (numverts_vbo m) by lia.
        apply list_lookup_insert_eq. lia.
      - rewrite list_lookup_insert_ne in Hr' by lia.
        destruct (Hslots v' r' Hv' Hr' Hnz) as (Hr'range & d' & Hd' & Hdesc').
        split; [lia |]. exists d'. split; [exact Hd' |].
        rewrite list_lookup_insert_ne by lia. exact Hdesc'. }
    split.
    { intros v1 v2 r' Hv1 Hv2 Hnz Hr1 Hr2.
      destruct (Z.eq_dec v1 v) as [-> | Hne1];
        destruct (Z.eq_dec v2 v) as [-> | Hne2]; [reflexivity | | |].
      - rewrite list_lookup_insert_eq in Hr1 by lia. injection Hr1 as <-.
        rewrite list_lookup_insert_ne in Hr2 by lia.
        destruct (Hslots v2 _ Hv2 Hr2 Hnz) as (Hle & _). lia.
      - rewrite list_lookup_insert_eq in Hr2 by lia. injection Hr2 as <-.
        rewrite list_lookup_insert_ne in Hr1 by lia.
        destruct (Hslots v1 _ Hv1 Hr1 Hnz) as (Hle & _). lia.
      - rewrite list_lookup_insert_ne in Hr1, Hr2 by lia.
        exact (Hinj v1 v2 r' Hv1 Hv2 Hnz Hr1 Hr2). }
    split; [rewrite length_app; cbn; lia |].
    intros k i' j' Hk.
    apply lookup_app_Some in Hk. destruct Hk as [Hk | [Hge Hk]].
    + destruct (Hdone k i' j' Hk)
        as (vi' & v' & idx & d' & H1 & Hv' & Hr' & H2 & H3 & H4 & H5).
      apply lookup_lt_Some in Hk as Hklt.
      exists vi', v', idx, d'. split; [exact H1 |]. split; [exact Hv' |].
      split.
      { destruct (Z.eq_dec v' v) as [-> | Hne].
        - rewrite Hr in Hr'. injection Hr' as Hr'. lia.
        - rewrite list_lookup_insert_ne by lia. exact Hr'. }
      split; [rewrite list_lookup_insert_ne by lia; exact H2 |].
      split; [lia |]. split; [exact H4 |].
      rewrite list_lookup_insert_ne by lia. exact H5.
    + destruct (k - length done)%nat as [| ?] eqn:Hkd; [| discriminate].
      cbn in Hk. injection Hk as <- <-.
      assert (k = length done) as -> by lia.
      exists vi, v, (numverts_vbo m), d. split; [exact Hslot |].
      split; [lia |].
      split; [apply list_lookup_insert_eq; lia |].
      split; [rewrite Hnum, Nat2Z.id; apply list_lookup_insert_eq; lia |].
      split; [lia |]. split; [exact Hd |].
      apply list_lookup_insert_eq. lia.
  - (* a vertex emitted before *)
    cbn [mbind result_bind].
    rewrite (array_get_Some _ _ _ (proj1 Hvrange) Hr). cbn [mbind result_bind].
    destruct (Hslots v r (proj1 Hvrange) Hr Hrnz) as (Hrrange & d & Hd & Hdesc').
    rewrite Hhalf in Hd.
    rewrite array_set_Some by lia. cbn [mbind result_bind].
    assert (Hus : to_ushort (r - 1) = r - 1).
    { unfold to_ushort. apply Z.mod_small. lia. }
    rewrite Hus.
    intros [= <-].
    cbn [remap desc indexes numverts_vbo numindexes].
    split; [apply length_insert |].
    split; [exact Hremap |]. split; [exact Hdesc |]. split; [exact Hcount |].
    split; [exact Hslots |]. split; [exact Hinj |].
    split; [rewrite length_app; cbn; lia |].
    intros k i' j' Hk.
    apply lookup_app_Some in Hk. destruct Hk as [Hk | [Hge Hk]].
    + destruct (Hdone k i' j' Hk)
        as (vi' & v' & idx & d' & H1 & Hv' & Hr' & H2 & H3 & H4 & H5).
      apply lookup_lt_Some in Hk as Hklt.
      exists vi', v', idx, d'. split; [exact H1 |]. split; [exact Hv' |].
      split; [exact Hr' |].
      split; [rewrite list_lookup_insert_ne by lia; exact H2 |]. auto.
    + destruct (k - length done)%nat as [| ?] eqn:Hkd; [| discriminate].
      cbn in Hk. injection Hk as <- <-.
      assert (k = length done) as -> by lia.
      exists vi, v, (r - 1), d. split; [exact Hslot |].
      split; [lia |].
      split; [rewrite Hr; f_equal; lia |].
      split; [rewrite Hnum, Nat2Z.id; apply list_lookup_insert_eq; lia |].
      split; [lia |]. split; [exact Hd |]. exact Hdesc'.
Qed.

Lemma GL_MakeAliasModelDisplayLists_corner_total
    (done : list (Z * Z)) (i j : Z) (tri : mtriangle.mtriangle_t)
    (m : mesh_build) :
  mesh_invariant done m ->
  0 <= i -> triangles !! Z.to_nat i = Some tri ->
  0 <= corner (mtriangle.vertindex tri) j < numverts ->
  (length done < length (indexes m))%nat ->
  (forall vi v, remap_slot triangles stverts i j = Ok (vi, v) ->
     exists d, emitted_vertex skinwidth stverts vi v = Ok d) ->
  exists m',
    GL_MakeAliasModelDisplayLists_corner skinwidth triangles stverts i j m
      = Ok m'.
Proof.
  intros (Hremap & Hdesc & Hcount & Hslots & Hinj & Hnum & Hdone) Hi Htri Hc
    Hroom Hemit.
  destruct Hnumverts as [Hn0 Hn1].
  destruct (remap_slot_total i j tri Hi Htri Hc) as (v & Hslot & Hv).
  destruct (Hemit _ _ Hslot) as (d & Hd).
  set (vi := corner (mtriangle.vertindex tri) j) in *.
  assert (Hvrange : 0 <= v < numverts * 2) by lia.
  unfold GL_MakeAliasModelDisplayLists_corner.
  rewrite Hslot. cbn [mbind result_bind].
  destruct (remap m !! Z.to_nat v) as [r |] eqn:Hr.
  2: { apply lookup_ge_None in Hr. lia. }
  rewrite (array_get_Some _ _ _ (proj1 Hvrange) Hr). cbn [mbind result_bind].
  pose proof (length_filter (fun r => r <> 0) (remap m)) as Hfilter.
  destruct (Z.eqb_spec r 0) as [-> | Hrnz].
  - pose proof (filter_nonzero_room _ _ Hr) as Hfree.
    rewrite Hd. cbn [mbind result_bind].
    rewrite array_set_Some by lia. cbn [mbind result_bind].
    rewrite array_set_Some by lia. cbn [mbind result_bind remap].
    rewrite (array_get_Some _ _ (to_ushort (numverts_vbo m + 1))) by
      (try lia; apply list_lookup_insert_eq; lia).
    cbn [mbind result_bind indexes numindexes desc numverts_vbo].
    rewrite array_set_Some by lia. cbn [mbind result_bind].
    eexists. reflexivity.
  - cbn [mbind result_bind].
    rewrite (array_get_Some _ _ _ (proj1 Hvrange) Hr). cbn [mbind result_bind].
    rewrite array_set_Some by lia. cbn [mbind result_bind].
    eexists. reflexivity.
Qed.

Lemma GL_MakeAliasModelDisplayLists_loop_invariant
    (todo done : list (Z * Z)) (m m' : mesh_build) :
  mesh_invariant done m ->
  (forall i j, In (i, j) todo ->
     exists tri,
       0 <= i /\ triangles !! Z.to_nat i = Some tri
       /\ 0 <= corner (mtriangle.vertindex tri) j < numverts) ->
  (length done + length todo <= length (indexes m))%nat ->
  GL_MakeAliasModelDisplayLists_loop skinwidth triangles stverts todo m
    = Ok m' ->
  mesh_invariant (done ++ todo) m'.
Proof.
  revert done m. induction todo as [| [i j] todo IH]; intros done m Hinv Hwf Hroom.
  { intros [= <-]. rewrite app_nil_r. exact Hinv. }
  cbn [GL_MakeAliasModelDisplayLists_loop].
  destruct (Hwf i j (or_introl eq_refl)) as (tri & Hi & Htri & Hc).
  cbn [length] in Hroom.
  destruct (GL_MakeAliasModelDisplayLists_corner skinwidth triangles stverts
              i j m) as [m1 | | |] eqn:Hstep; try discriminate.
  cbn [mbind result_bind]. intros Hloop.
  destruct (GL_MakeAliasModelDisplayLists_corner_invariant done i j tri m
              Hinv Hi Htri Hc ltac:(lia) m1 Hstep) as (Hlen & Hinv1).
  rewrite (app_assoc done [(i, j)] todo : done ++ (i, j) :: todo = _).
  apply (IH (done ++ [(i, j)]) m1 Hinv1); [| | exact Hloop].
  - intros i' j' Hin. apply Hwf. right. exact Hin.
  - rewrite length_app, Hlen. cbn. lia.
Qed.

Lemma GL_MakeAliasModelDisplayLists_loop_total
    (todo done : list (Z * Z)) (m : mesh_build) :
  mesh_invariant done m ->
  (forall i j, In (i, j) todo ->
     exists tri,
       0 <= i /\ triangles !! Z.to_nat i = Some tri
       /\ 0 <= corner (mtriangle.vertindex tri) j < numverts) ->
  (forall i j vi v, In (i, j) todo ->
     remap_slot triangles stverts i j = Ok (vi, v) ->
     exists d, emitted_vertex skinwidth stverts vi v = Ok d) ->
  (length done + length todo <= length (indexes m))%nat ->
  exists m',
    GL_MakeAliasModelDisplayLists_loop skinwidth triangles stverts todo m
      = Ok m'.
Proof.
  revert done m. induction todo as [| [i j] todo IH];
    intros done m Hinv Hwf Hemit Hroom.
  { exists m. reflexivity. }
  cbn [GL_MakeAliasModelDisplayLists_loop].
  destruct (Hwf i j (or_introl eq_refl)) as (tri & Hi & Htri & Hc).
  cbn [length] in Hroom.
  destruct (GL_MakeAliasModelDisplayLists_corner_total done i j tri m
              Hinv Hi Htri Hc ltac:(lia)) as (m1 & Hstep).
  { intros vi v. apply Hemit. left. reflexivity. }
  rewrite Hstep. cbn [mbind result_bind].
  destruct (GL_MakeAliasModelDisplayLists_corner_invariant done i j tri m
              Hinv Hi Htri Hc ltac:(lia) m1 Hstep) as (Hlen & Hinv1).
  apply (IH (done ++ [(i, j)]) m1 Hinv1).
  - intros i' j' Hin. apply Hwf. right. exact Hin.
  - intros i' j' vi v Hin. apply Hemit. right. exact Hin.
  - rewrite length_app, Hlen. cbn. lia.
Qed.

Lemma GL_MakeAliasModelDisplayLists_start (numtris : Z) :
  0 <= numtris <= Z.of_nat (length triangles) ->
  (forall i tri j,
     0 <= i < numtris -> triangles !! Z.to_nat i = Some tri -> 0 <= j < 3 ->
     0 <= corner (mtriangle.vertindex tri) j < numverts) ->
  let m0 :=
    mk_mesh_build (replicate (Z.to_nat (numverts * 2)) 0)
      (replicate (Z.to_nat (numverts * 2))
         (aliasmesh.mk (float_of_int 0, float_of_int 0) 0))
      (replicate (Z.to_nat (numtris * 3)) 0) 0 0 in
  mesh_invariant (@nil (Z * Z)) m0
  /\ (forall i j, In (i, j) (corners numtris) ->
       exists tri,
         0 <= i /\ triangles !! Z.to_nat i = Some tri
         /\ 0 <= corner (mtriangle.vertindex tri) j < numverts)
  /\ (length (@nil (Z * Z)) + length (corners numtris)
      <= length (indexes m0))%nat.
Proof.
  intros Htris Hwf m0.
  assert (Hcorners : corners numtris = corners (Z.of_nat (Z.to_nat numtris)))
    by (rewrite Z2Nat.id by lia; reflexivity).
  split; [| split].
  - subst m0. cbn [remap desc indexes numverts_vbo numindexes].
    rewrite !length_replicate, filter_nonzero_replicate.
    split; [reflexivity |]. split; [reflexivity |]. split; [reflexivity |].
    split.
    { intros v r Hv Hr Hnz.
      apply lookup_replicate in Hr. destruct Hr as [-> _]. contradiction. }
    split.
    { intros v v' r Hv Hv' Hnz Hr _.
      apply lookup_replicate in Hr. destruct Hr as [-> _]. contradiction. }
    split; [reflexivity |]. intros k i j Hk. discriminate.
  - rewrite Hcorners.
    intros i j Hin. apply list_elem_of_In, list_elem_of_lookup in Hin.
    destruct Hin as (k & Hk).
    destruct (corners_lookup _ _ _ _ Hk) as (Hi & Hj & _).
    destruct (triangles !! Z.to_nat i) as [tri |] eqn:Htri.
    2: { apply lookup_ge_None in Htri. lia. }
    exists tri. split; [lia |]. split; [reflexivity |].
    apply (Hwf i tri j); [lia | exact Htri | exact Hj].
  - subst m0. cbn [indexes length]. rewrite Hcorners.
    rewrite length_replicate, corners_length. lia.
Qed.

(** The invariant holds of the mesh the function returns. *)
Lemma GL_MakeAliasModelDisplayLists_invariant (numtris : Z) (m : mesh_build) :
  0 <= numtris <= Z.of_nat (length triangles) ->
  (forall i tri j,
     0 <= i < numtris -> triangles !! Z.to_nat i = Some tri -> 0 <= j < 3 ->
     0 <= corner (mtriangle.vertindex tri) j < numverts) ->
  GL_MakeAliasModelDisplayLists triangles stverts numverts skinwidth
    numverts numtris = Ok m ->
  mesh_invariant (corners numtris) m.
Proof.
  intros Htris Hwf Hrun.
  destruct (GL_MakeAliasModelDisplayLists_start numtris Htris Hwf)
    as (Hinv & Hwf' & Hroom).
  exact (GL_MakeAliasModelDisplayLists_loop_invariant (corners numtris) [] _ m
           Hinv Hwf' Hroom Hrun).
Qed.

(** The function returns a mesh when no sum for the back side of the
    seam leaves [int]. *)
Lemma GL_MakeAliasModelDisplayLists_total (numtris : Z) :
  0 <= numtris <= Z.of_nat (length triangles) ->
  (forall i tri j,
     0 <= i < numtris -> triangles !! Z.to_nat i = Some tri -> 0 <= j < 3 ->
     0 <= corner (mtriangle.vertindex tri) j < numverts) ->
  (forall k st, stverts !! k = Some st -> stvert.onseam st <> 0 ->
     - 2 ^ 31 <= stvert.s st + skinwidth ÷ 2 < 2 ^ 31) ->
  exists m,
    GL_MakeAliasModelDisplayLists triangles stverts numverts skinwidth
      numverts numtris = Ok m.
Proof.
  intros Htris Hwf Hsum.
  destruct (GL_MakeAliasModelDisplayLists_start numtris Htris Hwf)
    as (Hinv & Hwf' & Hroom).
  apply (GL_MakeAliasModelDisplayLists_loop_total (corners numtris) [] _
           Hinv Hwf'); [| exact Hroom].
  intros i j vi v Hin Hslot.
  destruct (Hwf' i j Hin) as (tri & Hi & Htri & Hc).
  destruct (remap_slot_total i j tri Hi Htri Hc) as (v' & Hslot' & _).
  rewrite Hslot in Hslot'. injection Hslot' as -> _.
  exact (emitted_vertex_defined i j _ v Hsum Hslot Hc).
Qed.

End MeshFacts.


(** X16.  The mesh [GL_MakeAliasModelDisplayLists] builds for a model of
    at most 32767 vertices whose triangles name vertices of the model,
    the texture coordinates and the skin width being [int]s and no sum
    [s + skinwidth / 2] for a vertex on the seam leaving [int]: the
    function returns, no access leaves an array; there are three indexes
    for each triangle and at most two vertices for each vertex of the
    model; and the index written for corner [j] of triangle [i] names a
    vertex of the list that carries the vertex number of that corner and
    its texture coordinates as [float]s, [s] moved by half the skin width
    before the conversion when the triangle faces back and the vertex
    lies on the seam. *)
Theorem GL_MakeAliasModelDisplayLists_mesh
    (triangles : list mtriangle.mtriangle_t) (stverts : list stvert.stvert_t)
    (numverts skinwidth numtris : Z) :
  0 <= numverts -> numverts * 2 <= 65535 ->
  numverts <= Z.of_nat (length stverts) ->
  0 <= numtris <= Z.of_nat (length triangles) ->
  (forall i tri j,
     0 <= i < numtris -> triangles !! Z.to_nat i = Some tri -> 0 <= j < 3 ->
     0 <= corner (mtriangle.vertindex tri) j < numverts) ->
  - 2 ^ 31 <= skinwidth < 2 ^ 31 ->
  (forall k st, stverts !! k = Some st ->
     - 2 ^ 31 <= stvert.s st < 2 ^ 31
     /\ - 2 ^ 31 <= stvert.t st < 2 ^ 31
     /\ (stvert.onseam st <> 0 ->
         - 2 ^ 31 <= stvert.s st + skinwidth ÷ 2 < 2 ^ 31)) ->
  exists m,
    GL_MakeAliasModelDisplayLists triangles stverts numverts skinwidth
      numverts numtris = Ok m
    /\ numindexes m = numtris * 3
    /\ 0 <= numverts_vbo m <= numverts * 2
    /\ forall i j, 0 <= i < numtris -> 0 <= j < 3 ->
         exists tri st idx d,
           triangles !! Z.to_nat i = Some tri
           /\ stverts !! Z.to_nat (corner (mtriangle.vertindex tri) j) = Some st
           /\ indexes m !! Z.to_nat (3 * i + j) = Some idx
           /\ 0 <= idx < numverts_vbo m
           /\ desc m !! Z.to_nat idx = Some d
           /\ aliasmesh.vertindex d = corner (mtriangle.vertindex tri) j
           /\ aliasmesh.st d =
                (float_of_int
                   (stvert.s st
                    + (if (mtriangle.facesfront tri =? 0)
                          && negb (stvert.onseam st =? 0)
                       then skinwidth ÷ 2 else 0)),
                 float_of_int (stvert.t st)).
Proof.
  intros Hn0 Hn1 Hst Htris Hwf Hskin Hints.
  destruct (GL_MakeAliasModelDisplayLists_total skinwidth numverts
              triangles stverts (conj Hn0 Hn1) Hst numtris Htris Hwf)
    as (m & Hloop).
  { intros k st Hk. apply (Hints k st Hk). }
  pose proof (GL_MakeAliasModelDisplayLists_invariant skinwidth numverts
                triangles stverts (conj Hn0 Hn1) Hst numtris m Htris Hwf Hloop)
    as Hinv.
  rewrite <- (Z2Nat.id numtris) in Hinv by lia.
  exists m. split; [exact Hloop |].
  destruct Hinv as (Hremap & Hdesc & Hcount & Hslots & _ & Hnum & Hdone).
  split; [rewrite Hnum, corners_length; lia |].
  split.
  { pose proof (length_filter (fun r : Z => r <> 0) (remap m)). lia. }
  intros i j Hi Hj.
  pose proof (corners_at (Z.to_nat numtris) i j ltac:(lia) Hj) as Hk.
  destruct (Hdone _ _ _ Hk)
    as (vi & v & idx & d & Hslot & _ & _ & Hidx & Hrange & Hd & Hdesc').
  destruct (remap_slot_inv _ _ _ _ _ _ Hslot)
    as (tri & _ & Htri & Hvi & Hv).
  pose proof (Hwf i tri j Hi Htri Hj) as Hc.
  assert (Hus : vi = corner (mtriangle.vertindex tri) j).
  { rewrite Hvi. unfold to_ushort. apply Z.mod_small. lia. }
  unfold emitted_vertex in Hd.
  destruct (array_get (Some stverts) vi) as [st | | |] eqn:Hstv;
    try discriminate.
  apply array_get_inv in Hstv. destruct Hstv as [_ Hstv].
  cbn [mbind result_bind] in Hd.
  exists tri, st, idx, d.
  split; [exact Htri |]. split; [rewrite <- Hus; exact Hstv |].
  split; [exact Hidx |]. split; [exact Hrange |]. split; [exact Hdesc' |].
  destruct Hv as [(-> & Hfront) | (-> & Hff & st' & Hst' & Hseam)].
  + rewrite land_1_even in Hd. cbn [Z.eqb negb mbind result_bind] in Hd.
    injection Hd as <-. cbn [aliasmesh.st aliasmesh.vertindex].
    split; [exact Hus |]. do 2 f_equal.
    destruct Hfront as [Hff | (st' & Hst' & Hseam)].
    * destruct (Z.eqb_spec (mtriangle.facesfront tri) 0); [contradiction |].
      cbn [andb]. lia.
    * rewrite Hstv in Hst'. injection Hst' as <-.
      rewrite Hseam, Z.eqb_refl, andb_false_r. lia.
  + rewrite land_1_odd in Hd. cbn [Z.eqb Pos.eqb negb] in Hd.
    rewrite Hstv in Hst'. injection Hst' as <-.
    unfold int_add in Hd.
    destruct ((stvert.s st + skinwidth ÷ 2 <? - 2 ^ 31)
              || (2 ^ 31 <=? stvert.s st + skinwidth ÷ 2)); [discriminate |].
    cbn [mbind result_bind] in Hd.
    injection Hd as <-. cbn [aliasmesh.st aliasmesh.vertindex].
    split; [exact Hus |]. do 2 f_equal.
    rewrite Hff, Z.eqb_refl.
    destruct (Z.eqb_spec (stvert.onseam st) 0); [contradiction |].
    reflexivity.
Qed.

(** X17.  In that mesh two corners are given the same index exactly when
    they have the same slot of the remap table, that is the same vertex
    of the model on the same side of the seam: a vertex is emitted once
    for each side it is used on, and the corners that use it share it. *)
Theorem GL_MakeAliasModelDisplayLists_shares_vertices
    (triangles : list mtriangle.mtriangle_t) (stverts : list stvert.stvert_t)
    (numverts skinwidth numtris : Z) (m : mesh_build) :
  0 <= numverts -> numverts * 2 <= 65535 ->
  numverts <= Z.of_nat (length stverts) ->
  0 <= numtris <= Z.of_nat (length triangles) ->
  (forall i tri j,
     0 <= i < numtris -> triangles !! Z.to_nat i = Some tri -> 0 <= j < 3 ->
     0 <= corner (mtriangle.vertindex tri) j < numverts) ->
  GL_MakeAliasModelDisplayLists triangles stverts numverts skinwidth
    numverts numtris = Ok m ->
  forall i j i' j' idx idx',
    0 <= i < numtris -> 0 <= j < 3 -> 0 <= i' < numtris -> 0 <= j' < 3 ->
    indexes m !! Z.to_nat (3 * i + j) = Some idx ->
    indexes m !! Z.to_nat (3 * i' + j') = Some idx' ->
    idx = idx'
    <-> remap_slot triangles stverts i j = remap_slot triangles stverts i' j'.
Proof.
  intros Hn0 Hn1 Hst Htris Hwf Hrun i j i' j' idx idx' Hi Hj Hi' Hj' Hidx Hidx'.
  pose proof (GL_MakeAliasModelDisplayLists_invariant skinwidth numverts
                triangles stverts (conj Hn0 Hn1) Hst numtris m Htris Hwf Hrun)
    as Hinv.
  rewrite <- (Z2Nat.id numtris) in Hinv by lia.
  destruct Hinv as (_ & _ & _ & _ & Hinj & _ & Hdone).
  pose proof (corners_at (Z.to_nat numtris) i j ltac:(lia) Hj) as Hk.
  pose proof (corners_at (Z.to_nat numtris) i' j' ltac:(lia) Hj') as Hk'.
  destruct (Hdone _ _ _ Hk)
    as (vi & v & x & d & Hslot & Hv & Hr & Hx & Hxrange & _).
  destruct (Hdone _ _ _ Hk')
    as (vi' & v' & x' & d' & Hslot' & Hv' & Hr' & Hx' & Hxrange' & _).
  rewrite Hidx in Hx. injection Hx as <-.
  rewrite Hidx' in Hx'. injection Hx' as <-.
  rewrite Hslot, Hslot'. split.
  - intros <-.
    assert (v = v') as <- by (apply (Hinj v v' (idx + 1)); auto; lia).
    destruct (remap_slot_inv _ _ _ _ _ _ Hslot) as (tri & _ & _ & Hvi & Hside).
    destruct (remap_slot_inv _ _ _ _ _ _ Hslot')
      as (tri' & _ & _ & Hvi' & Hside').
    assert (vi = vi'); [| congruence].
    destruct Hside as [[Hs _] | [Hs _]], Hside' as [[Hs' _] | [Hs' _]]; lia.
  - intros [= <- <-]. rewrite Hr in Hr'. injection Hr' as Hr'. lia.
Qed.

(** ** The theorems at concrete inputs *)

Lemma call_read_count_witness :
  0 <= 5 <= 5
  /\ Z.of_nat (length (bytes_of_string "hello")) <= 5
  /\ offs (a_txt_handle 17 5) = offs (a_txt_handle 88 0) + 5
  /\ start (a_txt_handle 17 5) = start (a_txt_handle 88 0)
  /\ endtrim (a_txt_handle 17 5) = endtrim (a_txt_handle 88 0).
Proof.
  apply (call_read_count 0 (a_txt_handle 88 0) (a_txt_handle 17 5) 5 5
           (bytes_of_string "hello")).
  - lia.
  - cbn. lia.
  - cbn. lia.
  - intros _. exists 12. cbn. repeat split; lia.
  - reflexivity.
Defined.

Lemma QFS_ReadFile_pak_entry_witness :
  exists f',
    f_bytes f' = pak_with 24 64
    /\ QFS_ReadFile 0 (Some (a_txt_handle 88 7)) 100 =
         Ok (5, bytes_of_string "world",
             Some (set_offs
                     (set_data (a_txt_handle 88 7)
                        (data_pack (set_pack_handle (a_txt_pack 88) f')))
                     12)).
Proof.
  exact (QFS_ReadFile_pak_entry 0 (a_txt_handle 88 7) (a_txt_pack 88)
           (mk_packfile (bytes_of_string "a.txt") 12 12) 100
           eq_refl eq_refl eq_refl eq_refl eq_refl eq_refl
           ltac:(cbn; lia) ltac:(cbn; lia) ltac:(lia) ltac:(cbn; lia)
           ltac:(vm_compute; discriminate)).
Defined.

Lemma QFS_ReadFile_loose_file_witness :
  QFS_ReadFile (miniz := literal_inflater) 0
    (Some (loose_handle (bytes_of_string "hello, world") 7)) 100
  = Ok (5, bytes_of_string "world",
        Some (loose_handle (bytes_of_string "hello, world") 12)).
Proof.
  exact (QFS_ReadFile_loose_file (miniz := literal_inflater) 0
           (loose_handle (bytes_of_string "hello, world") 7)
           (mkFILE (bytes_of_string "hello, world") 7) 100
           eq_refl eq_refl eq_refl eq_refl eq_refl eq_refl
           ltac:(cbn; lia) ltac:(cbn; lia) ltac:(lia)).
Defined.

Lemma QFS_OpenFile_fresh_witness :
  QFS_Tell (Some (a_txt_handle 88 0)) = 0
  /\ start (a_txt_handle 88 0) = 0 /\ endtrim (a_txt_handle 88 0) = 0
  /\ exists sz,
       0 <= sz
       /\ QFS_FileSize (Some (a_txt_handle 88 0)) = Ok sz
       /\ QFS_Eof (Some (a_txt_handle 88 0)) = Ok (sz =? 0).
Proof.
  apply (QFS_OpenFile_fresh demo_disk true a_txt_state a_txt_search "a.txt").
  left. reflexivity.
Defined.

Lemma QFS_LoadPAKFile_loads_witness :
  QFS_LoadPAKFile demo_disk "id1/pak0.pak" state_empty = Ok (1, a_txt_state).
Proof.
  rewrite (proj1 (proj1 (QFS_LoadPAKFile_loads demo_disk "id1/pak0.pak"
                    state_empty (pak_with 24 64) 24 64
                    eq_refl ltac:(vm_compute; lia) eq_refl eq_refl eq_refl
                    ltac:(lia) ltac:(vm_compute; split; discriminate))
                  ltac:(vm_compute; discriminate))).
  reflexivity.
Defined.

Lemma QFS_LoadPAKFile_overruns_info_witness :
  QFS_LoadPAKFile (one_file_disk oversized_pak) "id1/pak0.pak" state_empty
  = Undefined.
Proof.
  apply (QFS_LoadPAKFile_overruns_info (one_file_disk oversized_pak)
           "id1/pak0.pak" state_empty oversized_pak 12 131073).
  - reflexivity.
  - apply Nat.leb_le. vm_compute. reflexivity.
  - vm_compute. reflexivity.
  - vm_compute. reflexivity.
  - vm_compute. reflexivity.
  - lia.
  - vm_compute. split; reflexivity.
  - vm_compute. reflexivity.
Defined.

Lemma QFS_GetLine_loose_file_witness :
  exists k body line,
    line = List.filter (fun c => negb (Byte.eqb c x0d)) body
    /\ QFS_GetLine (miniz := literal_inflater) 8 0
         (Some (loose_handle two_lines 0)) 16
       = Ok (Z.of_nat (length line), Some (line ++ [x00]),
             Some (loose_handle two_lines (0 + k)))
    /\ ((take (Z.to_nat k) (drop (Z.to_nat 0) two_lines) = body
         /\ (Z.of_nat (length line) = 16 - 1
             \/ 0 + k = Z.of_nat (length two_lines)))
        \/ exists c, (c = x0a \/ c = x00)
                     /\ take (Z.to_nat k) (drop (Z.to_nat 0) two_lines)
                        = body ++ [c]).
Proof.
  destruct (QFS_GetLine_loose_file (miniz := literal_inflater) 8 0 two_lines
              0 16 ltac:(cbn; lia) ltac:(cbn; lia) ltac:(lia) ltac:(cbn; lia))
    as (k & body & line & Hline & Hrun & _ & _ & _ & _ & _ & Hcases).
  exists k, body, line. split; [exact Hline |]. split; [exact Hrun |].
  exact Hcases.
Defined.

Lemma QFS_GetChar_overruns_when_trimmed_witness :
  QFS_GetChar 0 (Some loose_handle_trimmed) = Undefined
  /\ forall rounds bufsz, 2 <= bufsz < 2 ^ 64 ->
       QFS_GetLine (S rounds) 0 (Some loose_handle_trimmed) bufsz = Undefined.
Proof.
  apply (QFS_GetChar_overruns_when_trimmed 0 loose_handle_trimmed
           (mkFILE (bytes_of_string "hello, world") 6)).
  - reflexivity.
  - reflexivity.
  - reflexivity.
  - reflexivity.
  - cbn. lia.
  - cbn. lia.
  - cbn. lia.
  - cbn. lia.
  - cbn. lia.
Defined.

Lemma QFS_LoadFile_terminated_witness :
  exists (h : @qfshandle_t literal_inflater) fsz len got h',
    QFS_OpenFile demo_disk true a_txt_state a_txt_search "a.txt" = Ok (Some h)
    /\ QFS_FileSize (Some h) = Ok fsz
    /\ 0 <= fsz
    /\ len = to_size_t fsz
    /\ Some 12 = Some len
    /\ QFS_ReadFile 0 (Some h) len = Ok (len, got, h')
    /\ Z.of_nat (length got) <= len
    /\ (Some <$> bytes_of_string "hello, world") ++ [Some x00]
       = (Some <$> got) ++ replicate (Z.to_nat len - length got) None
         ++ [Some x00]
    /\ Z.of_nat (length ((Some <$> bytes_of_string "hello, world") ++ [Some x00]))
       = len + 1
    /\ ((Some <$> bytes_of_string "hello, world") ++ [Some x00]) !! Z.to_nat len
       = Some (Some x00)
    /\ [res_handle] = QFS_CloseFile h'
    /\ In res_handle [res_handle].
Proof.
  exact (QFS_LoadFile_terminated 0 demo_disk true a_txt_state a_txt_search
           "a.txt" LOADFILE_MALLOC
           (Some ((Some <$> bytes_of_string "hello, world") ++ [Some x00]))
           (Some 12) [res_handle] eq_refl).
Defined.

Lemma S_WAV_CodecOpenStream_accepts_witness :
  fh demo_stream = Some (loose_handle demo_wav 44)
  /\ (snd_info.bits (info demo_stream) = 8
      \/ snd_info.bits (info demo_stream) = 16)
  /\ snd_info.width (info demo_stream) = snd_info.bits (info demo_stream) / 8
  /\ (snd_info.channels (info demo_stream) = 1
      \/ snd_info.channels (info demo_stream) = 2)
  /\ 0 < snd_info.samples (info demo_stream)
  /\ snd_info.samples (info demo_stream)
     = snd_info.size (info demo_stream)
       / (snd_info.width (info demo_stream)
          * snd_info.channels (info demo_stream))
  /\ snd_info.samples (info demo_stream)
     * (snd_info.width (info demo_stream)
        * snd_info.channels (info demo_stream))
     <= snd_info.size (info demo_stream) < 2 ^ 31
  /\ snd_info.dataofs (info demo_stream) = 0
  /\ exists fsz,
       QFS_FileSize (Some (loose_handle (miniz := literal_inflater) demo_wav 44))
         = Ok fsz
       /\ QFS_Tell (Some (loose_handle (miniz := literal_inflater) demo_wav 44))
            + snd_info.size (info demo_stream) <= fsz.
Proof.
  apply (S_WAV_CodecOpenStream_accepts 1 1 0 (Some (loose_handle demo_wav 0))
           (Some (loose_handle demo_wav 44)) demo_stream).
  vm_compute. reflexivity.
Defined.

Lemma S_WAV_CodecOpenStream_plain_file_witness :
  S_WAV_CodecOpenStream 1 1 0 (Some (loose_handle demo_wav 0))
  = Ok (Some demo_stream, Some (loose_handle demo_wav 44)).
Proof.
  apply (S_WAV_CodecOpenStream_plain_file (miniz := literal_inflater) 1 0 0
           1 11025 8 (bytes_of_string "abcdefgh")).
  - lia.
  - left. reflexivity.
  - left. reflexivity.
  - lia.
  - vm_compute. split; [discriminate | reflexivity].
Defined.

Lemma S_WAV_CodecReadStream_loose_file_witness :
  S_WAV_CodecReadStream 0 demo_stream 100 = Ok (0, [], demo_stream)
  /\ S_WAV_CodecRewindStream 0 demo_stream
     = Ok (0, mk_stream (Some (loose_handle demo_wav 0)) demo_info).
Proof.
  apply (S_WAV_CodecReadStream_loose_file (miniz := literal_inflater) 0
           demo_wav 44 100 demo_info).
  - vm_compute. split; discriminate.
  - vm_compute. split; [discriminate | reflexivity].
  - lia.
Defined.

Lemma GL_MakeAliasModelDisplayLists_mesh_witness :
  exists m,
    GL_MakeAliasModelDisplayLists demo_triangles demo_stverts 4 16 4 2 = Ok m
    /\ numindexes m = 2 * 3
    /\ 0 <= numverts_vbo m <= 4 * 2.
Proof.
  destruct (GL_MakeAliasModelDisplayLists_mesh demo_triangles demo_stverts
              4 16 2) as (m & Hrun & Hnum & Hvbo & _).
  - lia.
  - lia.
  - cbn. lia.
  - cbn. lia.
  - intros i tri j Hi Htri Hj.
    assert (Hcases : i = 0 \/ i = 1) by lia.
    assert (Hcorner : j = 0 \/ j = 1 \/ j = 2) by lia.
    destruct Hcases as [-> | ->]; cbn in Htri; injection Htri as <-;
      destruct Hcorner as [-> | [-> | ->]]; cbn; lia.
  - lia.
  - intros [| [| [| [| k]]]] st Hst; try discriminate Hst;
      injection Hst as <-; cbn [stvert.s stvert.t stvert.onseam];
      change (16 ÷ 2) with 8; lia.
  - exists m. auto.
Defined.

Lemma GL_MakeAliasModelDisplayLists_shares_vertices_witness :
  (2 = 2
   <-> remap_slot demo_triangles demo_stverts 0 2
       = remap_slot demo_triangles demo_stverts 1 2)
  /\ (1 = 3
      <-> remap_slot demo_triangles demo_stverts 0 1
          = remap_slot demo_triangles demo_stverts 1 0).
Proof.
  assert (Hwf : forall i tri j,
            0 <= i < 2 -> demo_triangles !! Z.to_nat i = Some tri ->
            0 <= j < 3 ->
            0 <= corner (mtriangle.vertindex tri) j < 4).
  { intros i tri j Hi Htri Hj.
    assert (Hcases : i = 0 \/ i = 1) by lia.
    assert (Hcorner : j = 0 \/ j = 1 \/ j = 2) by lia.
    destruct Hcases as [-> | ->]; cbn in Htri; injection Htri as <-;
      destruct Hcorner as [-> | [-> | ->]]; cbn; lia. }
  split.
  - apply (GL_MakeAliasModelDisplayLists_shares_vertices demo_triangles
             demo_stverts 4 16 2 demo_mesh
             ltac:(lia) ltac:(lia) ltac:(cbn; lia) ltac:(cbn; lia) Hwf
             eq_refl 0 2 1 2 2 2
             ltac:(lia) ltac:(lia) ltac:(lia) ltac:(lia) eq_refl eq_refl).
  - apply (GL_MakeAliasModelDisplayLists_shares_vertices demo_triangles
             demo_stverts 4 16 2 demo_mesh
             ltac:(lia) ltac:(lia) ltac:(cbn; lia) ltac:(cbn; lia) Hwf
             eq_refl 0 1 1 0 1 3
             ltac:(lia) ltac:(lia) ltac:(lia) ltac:(lia) eq_refl eq_refl).
Defined.

